(** * SCEPTTr 1.2: a shallow embedding of [main.cpp]

    The scorer predicts the melting temperature of collagen-like triple
    helices.  This development embeds the interaction selector
    ([PairWiseCalc]), the phase detection of a sample
    ([TripleHelix::determine_reptition]), the helix scorer ([ScoreHelix],
    [ScoreLibrary]) and the coordinate-descent loop of [main], and states
    the properties of the design document against them.

    Numeric model.  A C++ [double] is a rational ([Q]).  In the scorer the
    sums, products and comparisons are the mathematical ones, and the
    concrete evaluations of the scorer use values (small integers, halves)
    on which IEEE double arithmetic is exact as well.  The optimization
    loop is different: it changes a scalar by [delta = 0.1] and moves it
    back by the same amount, which is exact on rationals and is not on
    doubles.  There every addition and subtraction of the source is
    followed by the rounding of binary64 ([to_double]), and 0.1 is the
    double the compiler stores for it.  A [short] is an integer ([Z])
    with the 16-bit wrap-around written out where the source stores the
    result of arithmetic into a [short]; [int] expressions built from
    shorts cannot overflow and are plain [Z]. *)

From Stdlib Require Import ZArith QArith Qabs List Bool String Ascii Lia Lqa
  FinFun.
Import ListNotations.

Local Open Scope Z_scope.

(** ** Numbers *)

(** [a < b] on doubles, as a test. *)
Definition Qlt_bool (a b : Q) : bool := negb (Qle_bool b a).

(** Conversion of an [int] value to [short] (two's complement, 16 bits). *)
Definition to_short (z : Z) : Z := (z + 32768) mod 65536 - 32768.

(** An integer used where a double is expected. *)
Definition of_int (z : Z) : Q := inject_Z z.

(** The double nearest to a rational, as IEEE 754 binary64 arithmetic
    rounds the exact result of an operation: 53 significant bits, a tie
    goes to the even significand, and the exponent does not go below that
    of the subnormal numbers.  The significand [m] and the exponent [e] are
    such that the result is [m * 2^e].  Overflow is left out: the values
    of the tables are far from it. *)
Definition to_double (q : Q) : Q :=
  let n := Z.abs (Qnum q) in
  let d := Zpos (Qden q) in
  if n =? 0 then 0%Q
  else
    let e0 := Z.log2 n - Z.log2 d - 52 in
    let e1 := if d * 2 ^ Z.max 0 e0 * 2 ^ 52 <=? n * 2 ^ Z.max 0 (- e0)
              then e0 else e0 - 1 in
    let e := Z.max e1 (-1074) in
    let N := n * 2 ^ Z.max 0 (- e) in
    let D := d * 2 ^ Z.max 0 e in
    let m0 := N / D in
    let r := N mod D in
    let m := if 2 * r <? D then m0
             else if D <? 2 * r then m0 + 1
             else if Z.even m0 then m0 else m0 + 1 in
    Qred (inject_Z (Z.sgn (Qnum q) * m * 2 ^ Z.max 0 e)
          / inject_Z (2 ^ Z.max 0 (- e))).

(** C arrays of doubles are read through their index. *)
Definition darray := Z -> Q.

Definition dstore (arr : darray) (i : Z) (v : Q) : darray :=
  fun j => if j =? i then v else arr j.

(** An array given by its initial elements, zero afterwards. *)
Definition darray_of (l : list Q) : darray :=
  fun i => if i <? 0 then 0%Q else nth (Z.to_nat i) l 0%Q.

(** ** The interaction selector, [PairWiseCalc] (main.cpp 56-121) *)

Module Selector.

(** [if (v > 0) currentPWSum += v;] *)
Definition add_stabilizing (currentPWSum v : Q) : Q :=
  if Qlt_bool 0 v then (currentPWSum + v)%Q else currentPWSum.

(** [if (currentPWSum > BestPWTotal) BestPWTotal = currentPWSum; return BestPWTotal;] *)
Definition record_best (currentPWSum BestPWTotal : Q) : Q :=
  if Qlt_bool BestPWTotal currentPWSum then currentPWSum else BestPWTotal.

(** The body of [PairWiseCalc].  The three flags [NoPairT], [LatPairT] and
    [AxPairT] of the source are false whenever they are tested, so each
    test reduces to the condition on [previousPWType].  [currentPWSum] is a
    single local variable: what the lateral branch adds to it is still in
    it when the axial branch runs.  [fuel] bounds the recursion depth; the
    recursive calls are at [currentPair + 1 <= lastPair], so no [short]
    wraps. *)
Fixpoint PairWiseCalc_fuel (fuel : nat) (XPW LPW : darray)
    (currentPair lastPair previousPWType : Z)
    (currentPWSum BestPWTotal : Q) : Q :=
  match fuel with
  | O => BestPWTotal
  | S fuel' =>
    let deeper := PairWiseCalc_fuel fuel' XPW LPW (currentPair + 1) lastPair in
    if currentPair >? lastPair then BestPWTotal else
    (* no pair at this site *)
    if negb (previousPWType =? 0) && (currentPair =? lastPair)
    then record_best currentPWSum BestPWTotal else
    let BestPWTotal :=
      if negb (previousPWType =? 0)
      then deeper 0 currentPWSum BestPWTotal else BestPWTotal in
    (* lateral pair at this site *)
    let currentPWSum :=
      if negb (previousPWType =? 2)
      then add_stabilizing currentPWSum (LPW currentPair) else currentPWSum in
    if negb (previousPWType =? 2) && (currentPair =? lastPair)
    then record_best currentPWSum BestPWTotal else
    let BestPWTotal :=
      if negb (previousPWType =? 2)
      then deeper 1 currentPWSum BestPWTotal else BestPWTotal in
    (* axial pair at this site *)
    let currentPWSum := add_stabilizing currentPWSum (XPW currentPair) in
    if currentPair =? lastPair
    then record_best currentPWSum BestPWTotal else
    deeper 2 currentPWSum BestPWTotal
  end.

(** One unit of fuel per site from [currentPair] to [lastPair]. *)
Definition PairWiseCalc (XPW LPW : darray)
    (currentPair lastPair previousPWType : Z)
    (currentPWSum BestPWTotal : Q) : Q :=
  PairWiseCalc_fuel (Z.to_nat (lastPair - currentPair + 1)) XPW LPW
    currentPair lastPair previousPWType currentPWSum BestPWTotal.

(** *** The optimum the design document describes

    Written from the words of the document, to be compared with
    [PairWiseCalc]: every site gets one of three states; two consecutive
    sites are never both [NoPair]; a site is never [Lateral] right after an
    [Axial] one; a chosen pair contributes its value when positive. *)

Inductive site_state := NoPair | Lateral | Axial.

Fixpoint assignments (m : nat) : list (list site_state) :=
  match m with
  | O => [[]]
  | S m' =>
    flat_map (fun l => [NoPair :: l; Lateral :: l; Axial :: l]) (assignments m')
  end.

Fixpoint admissible (l : list site_state) : bool :=
  match l with
  | NoPair :: ((NoPair :: _) as tl) => false
  | Axial :: ((Lateral :: _) as tl) => false
  | _ :: tl => admissible tl
  | [] => true
  end.

Definition contribution (XPW LPW : darray) (i : Z) (s : site_state) : Q :=
  match s with
  | NoPair => 0
  | Lateral => if Qlt_bool 0 (LPW i) then LPW i else 0
  | Axial => if Qlt_bool 0 (XPW i) then XPW i else 0
  end.

Fixpoint assignment_sum (XPW LPW : darray) (i : Z) (l : list site_state) : Q :=
  match l with
  | [] => 0
  | s :: tl => contribution XPW LPW i s + assignment_sum XPW LPW (i + 1) tl
  end.

Definition Qmax (a b : Q) : Q := if Qlt_bool a b then b else a.

(** The largest sum over the admissible assignments of [m] sites. *)
Definition best_admissible_sum (XPW LPW : darray) (m : nat) : Q :=
  fold_left Qmax
    (map (assignment_sum XPW LPW 0) (filter admissible (assignments m))) 0%Q.

End Selector.

(** ** The parameter set, [parameterType] (main.cpp 22-49)

    Residue letters index the tables through [letter - 64]: 1 is A, 26 is
    Z, 0 is undefined.  The tables are total functions of the index; the
    source reads them at indices 1..26 whenever the sequences hold capital
    letters.  The doubles [Nterm] and [Cterm] of the source are named
    [Nterm_p] and [Cterm_p] here, the strings of a sample keep the plain
    names. *)

Record parameterType := mkParameters {
  axial : Z -> Z -> Q;
  lateral : Z -> Z -> Q;
  propensityX : Z -> Q;
  propensityY : Z -> Q;
  A : Q;
  B : Q;
  C : Q;
  charge : Q;
  Nterm_p : Q;
  Cterm_p : Q;
  optLength : bool;
  optPropX : Z -> bool;
  optPropY : Z -> bool;
  optAxial : Z -> Z -> bool;
  optLat : Z -> Z -> bool;
  exAxial : Z -> Z -> Q;
  exLateral : Z -> Z -> Q;
  exPropensityX : Z -> Q;
  exPropensityY : Z -> Q;
  exA : Q;
  exB : Q;
  exC : Q;
  exCharge : Q;
  exNterm : Q;
  exCterm : Q
}.

Definition set_propensityX (v : Z -> Q) (p : parameterType) : parameterType :=
  mkParameters (axial p) (lateral p) v (propensityY p) (A p) (B p) (C p)
    (charge p) (Nterm_p p) (Cterm_p p) (optLength p) (optPropX p) (optPropY p)
    (optAxial p) (optLat p) (exAxial p) (exLateral p) (exPropensityX p)
    (exPropensityY p) (exA p) (exB p) (exC p) (exCharge p) (exNterm p)
    (exCterm p).

Definition set_propensityY (v : Z -> Q) (p : parameterType) : parameterType :=
  mkParameters (axial p) (lateral p) (propensityX p) v (A p) (B p) (C p)
    (charge p) (Nterm_p p) (Cterm_p p) (optLength p) (optPropX p) (optPropY p)
    (optAxial p) (optLat p) (exAxial p) (exLateral p) (exPropensityX p)
    (exPropensityY p) (exA p) (exB p) (exC p) (exCharge p) (exNterm p)
    (exCterm p).

Definition set_axial (v : Z -> Z -> Q) (p : parameterType) : parameterType :=
  mkParameters v (lateral p) (propensityX p) (propensityY p) (A p) (B p) (C p)
    (charge p) (Nterm_p p) (Cterm_p p) (optLength p) (optPropX p) (optPropY p)
    (optAxial p) (optLat p) (exAxial p) (exLateral p) (exPropensityX p)
    (exPropensityY p) (exA p) (exB p) (exC p) (exCharge p) (exNterm p)
    (exCterm p).

Definition set_lateral (v : Z -> Z -> Q) (p : parameterType) : parameterType :=
  mkParameters (axial p) v (propensityX p) (propensityY p) (A p) (B p) (C p)
    (charge p) (Nterm_p p) (Cterm_p p) (optLength p) (optPropX p) (optPropY p)
    (optAxial p) (optLat p) (exAxial p) (exLateral p) (exPropensityX p)
    (exPropensityY p) (exA p) (exB p) (exC p) (exCharge p) (exNterm p)
    (exCterm p).

(** Assignment to one cell of a table. *)
Definition store1 {V} (t : Z -> V) (i : Z) (v : V) : Z -> V :=
  fun j => if j =? i then v else t j.

Definition store2 {V} (t : Z -> Z -> V) (i j : Z) (v : V) : Z -> Z -> V :=
  fun i' j' => if (i' =? i) && (j' =? j) then v else t i' j'.

(** ** A sample, [TripleHelix] (main.cpp 124-292) *)

(** [short r[4]]: leading, middle and trailing peptide, offset. *)
Definition register : Type := Z * Z * Z * Z.

(** The [3][3][3][9] tables of a sample. *)
Definition grid (V : Type) : Type := Z -> Z -> Z -> Z -> V.

Definition gstore {V} (g : grid V) (a b c d : Z) (v : V) : grid V :=
  fun a' b' c' d' =>
    if (a' =? a) && (b' =? b) && (c' =? c) && (d' =? d) then v
    else g a' b' c' d'.

Definition at_reg {V} (g : grid V) (r : register) : V :=
  let '(a, b, c, d) := r in g a b c d.

Definition offset_of (r : register) : Z := let '(_, _, _, d) := r in d.

Record TripleHelix := mkTripleHelix {
  numPep : Z;
  numAA : Z;
  sequences : Z -> Z -> ascii;
  Nterm : string;
  Cterm : string;
  expTm : Q;
  CCTm : Q;
  HighTm : Q;
  deviation : Q;
  secTm : Q;
  specificity : Q;
  bestRegister : register;
  secRegister : register;
  CCRegister : register;
  netCharge : grid Z;
  totalCharge : grid Z;
  bestPropensity : Q;
  bestPairwise : Q;
  Propensity : grid Q;
  PairWise : grid Q;
  Tm : grid Q;
  XaaPos : Z
}.

Arguments netCharge _ (_ _ _ _)%_Z.
Arguments totalCharge _ (_ _ _ _)%_Z.
Arguments Propensity _ (_ _ _ _)%_Z.
Arguments PairWise _ (_ _ _ _)%_Z.
Arguments Tm _ (_ _ _ _)%_Z.

Definition set_XaaPos (v : Z) (h : TripleHelix) : TripleHelix :=
  mkTripleHelix (numPep h) (numAA h) (sequences h) (Nterm h) (Cterm h)
    (expTm h) (CCTm h) (HighTm h) (deviation h) (secTm h) (specificity h)
    (bestRegister h) (secRegister h) (CCRegister h) (netCharge h)
    (totalCharge h) (bestPropensity h) (bestPairwise h) (Propensity h)
    (PairWise h) (Tm h) v.

Definition set_CCTm (v : Q) (h : TripleHelix) : TripleHelix :=
  mkTripleHelix (numPep h) (numAA h) (sequences h) (Nterm h) (Cterm h)
    (expTm h) v (HighTm h) (deviation h) (secTm h) (specificity h)
    (bestRegister h) (secRegister h) (CCRegister h) (netCharge h)
    (totalCharge h) (bestPropensity h) (bestPairwise h) (Propensity h)
    (PairWise h) (Tm h) (XaaPos h).

Definition set_CCRegister (v : register) (h : TripleHelix) : TripleHelix :=
  mkTripleHelix (numPep h) (numAA h) (sequences h) (Nterm h) (Cterm h)
    (expTm h) (CCTm h) (HighTm h) (deviation h) (secTm h) (specificity h)
    (bestRegister h) (secRegister h) v (netCharge h) (totalCharge h)
    (bestPropensity h) (bestPairwise h) (Propensity h) (PairWise h) (Tm h)
    (XaaPos h).

Definition set_HighTm (v : Q) (h : TripleHelix) : TripleHelix :=
  mkTripleHelix (numPep h) (numAA h) (sequences h) (Nterm h) (Cterm h)
    (expTm h) (CCTm h) v (deviation h) (secTm h) (specificity h)
    (bestRegister h) (secRegister h) (CCRegister h) (netCharge h)
    (totalCharge h) (bestPropensity h) (bestPairwise h) (Propensity h)
    (PairWise h) (Tm h) (XaaPos h).

Definition set_deviation (v : Q) (h : TripleHelix) : TripleHelix :=
  mkTripleHelix (numPep h) (numAA h) (sequences h) (Nterm h) (Cterm h)
    (expTm h) (CCTm h) (HighTm h) v (secTm h) (specificity h) (bestRegister h)
    (secRegister h) (CCRegister h) (netCharge h) (totalCharge h)
    (bestPropensity h) (bestPairwise h) (Propensity h) (PairWise h) (Tm h)
    (XaaPos h).

Definition set_secTm (v : Q) (h : TripleHelix) : TripleHelix :=
  mkTripleHelix (numPep h) (numAA h) (sequences h) (Nterm h) (Cterm h)
    (expTm h) (CCTm h) (HighTm h) (deviation h) v (specificity h)
    (bestRegister h) (secRegister h) (CCRegister h) (netCharge h)
    (totalCharge h) (bestPropensity h) (bestPairwise h) (Propensity h)
    (PairWise h) (Tm h) (XaaPos h).

Definition set_specificity (v : Q) (h : TripleHelix) : TripleHelix :=
  mkTripleHelix (numPep h) (numAA h) (sequences h) (Nterm h) (Cterm h)
    (expTm h) (CCTm h) (HighTm h) (deviation h) (secTm h) v (bestRegister h)
    (secRegister h) (CCRegister h) (netCharge h) (totalCharge h)
    (bestPropensity h) (bestPairwise h) (Propensity h) (PairWise h) (Tm h)
    (XaaPos h).

Definition set_bestRegister (v : register) (h : TripleHelix) : TripleHelix :=
  mkTripleHelix (numPep h) (numAA h) (sequences h) (Nterm h) (Cterm h)
    (expTm h) (CCTm h) (HighTm h) (deviation h) (secTm h) (specificity h) v
    (secRegister h) (CCRegister h) (netCharge h) (totalCharge h)
    (bestPropensity h) (bestPairwise h) (Propensity h) (PairWise h) (Tm h)
    (XaaPos h).

Definition set_secRegister (v : register) (h : TripleHelix) : TripleHelix :=
  mkTripleHelix (numPep h) (numAA h) (sequences h) (Nterm h) (Cterm h)
    (expTm h) (CCTm h) (HighTm h) (deviation h) (secTm h) (specificity h)
    (bestRegister h) v (CCRegister h) (netCharge h) (totalCharge h)
    (bestPropensity h) (bestPairwise h) (Propensity h) (PairWise h) (Tm h)
    (XaaPos h).

Definition set_netCharge (v : grid Z) (h : TripleHelix) : TripleHelix :=
  mkTripleHelix (numPep h) (numAA h) (sequences h) (Nterm h) (Cterm h)
    (expTm h) (CCTm h) (HighTm h) (deviation h) (secTm h) (specificity h)
    (bestRegister h) (secRegister h) (CCRegister h) v (totalCharge h)
    (bestPropensity h) (bestPairwise h) (Propensity h) (PairWise h) (Tm h)
    (XaaPos h).

Definition set_totalCharge (v : grid Z) (h : TripleHelix) : TripleHelix :=
  mkTripleHelix (numPep h) (numAA h) (sequences h) (Nterm h) (Cterm h)
    (expTm h) (CCTm h) (HighTm h) (deviation h) (secTm h) (specificity h)
    (bestRegister h) (secRegister h) (CCRegister h) (netCharge h) v
    (bestPropensity h) (bestPairwise h) (Propensity h) (PairWise h) (Tm h)
    (XaaPos h).

Definition set_bestPropensity (v : Q) (h : TripleHelix) : TripleHelix :=
  mkTripleHelix (numPep h) (numAA h) (sequences h) (Nterm h) (Cterm h)
    (expTm h) (CCTm h) (HighTm h) (deviation h) (secTm h) (specificity h)
    (bestRegister h) (secRegister h) (CCRegister h) (netCharge h)
    (totalCharge h) v (bestPairwise h) (Propensity h) (PairWise h) (Tm h)
    (XaaPos h).

Definition set_bestPairwise (v : Q) (h : TripleHelix) : TripleHelix :=
  mkTripleHelix (numPep h) (numAA h) (sequences h) (Nterm h) (Cterm h)
    (expTm h) (CCTm h) (HighTm h) (deviation h) (secTm h) (specificity h)
    (bestRegister h) (secRegister h) (CCRegister h) (netCharge h)
    (totalCharge h) (bestPropensity h) v (Propensity h) (PairWise h) (Tm h)
    (XaaPos h).

Definition set_Propensity (v : grid Q) (h : TripleHelix) : TripleHelix :=
  mkTripleHelix (numPep h) (numAA h) (sequences h) (Nterm h) (Cterm h)
    (expTm h) (CCTm h) (HighTm h) (deviation h) (secTm h) (specificity h)
    (bestRegister h) (secRegister h) (CCRegister h) (netCharge h)
    (totalCharge h) (bestPropensity h) (bestPairwise h) v (PairWise h) (Tm h)
    (XaaPos h).

Definition set_PairWise (v : grid Q) (h : TripleHelix) : TripleHelix :=
  mkTripleHelix (numPep h) (numAA h) (sequences h) (Nterm h) (Cterm h)
    (expTm h) (CCTm h) (HighTm h) (deviation h) (secTm h) (specificity h)
    (bestRegister h) (secRegister h) (CCRegister h) (netCharge h)
    (totalCharge h) (bestPropensity h) (bestPairwise h) (Propensity h) v
    (Tm h) (XaaPos h).

Definition set_Tm (v : grid Q) (h : TripleHelix) : TripleHelix :=
  mkTripleHelix (numPep h) (numAA h) (sequences h) (Nterm h) (Cterm h)
    (expTm h) (CCTm h) (HighTm h) (deviation h) (secTm h) (specificity h)
    (bestRegister h) (secRegister h) (CCRegister h) (netCharge h)
    (totalCharge h) (bestPropensity h) (bestPairwise h) (Propensity h)
    (PairWise h) v (XaaPos h).

Definition set_sequences (v : Z -> Z -> ascii) (h : TripleHelix) : TripleHelix :=
  mkTripleHelix (numPep h) (numAA h) v (Nterm h) (Cterm h) (expTm h) (CCTm h)
    (HighTm h) (deviation h) (secTm h) (specificity h) (bestRegister h)
    (secRegister h) (CCRegister h) (netCharge h) (totalCharge h)
    (bestPropensity h) (bestPairwise h) (Propensity h) (PairWise h) (Tm h)
    (XaaPos h).

(** The values of a loop [for (x = 0; x < n; x++)]. *)
Definition upto (n : Z) : list Z := map Z.of_nat (seq 0 (Z.to_nat n)).

(** [abs(position + (3 - XaaPos)) % 3] *)
Definition role (XaaPos position : Z) : Z :=
  Z.rem (Z.abs (position + (3 - XaaPos))) 3.

Definition isXaa (h : TripleHelix) (position : Z) : bool :=
  role (XaaPos h) position =? 0.

Definition isYaa (h : TripleHelix) (position : Z) : bool :=
  role (XaaPos h) position =? 1.

Definition isGly (h : TripleHelix) (position : Z) : bool :=
  role (XaaPos h) position =? 2.

(** *** [determine_reptition] (main.cpp 250-292) *)

(** The counting loop: [xCount], [yCount] and [zCount] after the positions
    of [xs]. *)
Definition count_step (h : TripleHelix) (cnt : Z * Z * Z) (x : Z) : Z * Z * Z :=
  let '(xCount, yCount, zCount) := cnt in
  let G := Ascii.eqb (sequences h 0 x) "G" in
  let xCount := if (Z.rem x 3 =? 0) && G then xCount + 1 else xCount in
  let yCount := if (Z.rem x 3 =? 1) && G then yCount + 1 else yCount in
  let zCount := if (Z.rem x 3 =? 2) && G then zCount + 1 else zCount in
  (xCount, yCount, zCount).

Definition gly_counts (h : TripleHelix) : Z * Z * Z :=
  fold_left (count_step h) (upto (numAA h)) (0, 0, 0).

(** The result is the sample with its phase, and whether the diagnostic
    ("This peptide does not appear to have a Gly every third residue!",
    followed by [dissect]) was printed. *)
Definition determine_reptition (h : TripleHelix) : TripleHelix * bool :=
  let '(xCount, yCount, zCount) := gly_counts h in
  let goodPeptide := false in
  let '(goodPeptide, h) :=
    if xCount >=? Z.quot (numAA h) 3 then (true, set_XaaPos 1 h)
    else (goodPeptide, h) in
  let '(goodPeptide, h) :=
    if yCount >=? Z.quot (numAA h) 3 then (true, set_XaaPos 2 h)
    else (goodPeptide, h) in
  let '(goodPeptide, h) :=
    if zCount >=? Z.quot (numAA h) 3 then (true, set_XaaPos 0 h)
    else (goodPeptide, h) in
  (h, negb goodPeptide).

(** ** The helix scorer, [ScoreHelix] (main.cpp 873-1366)

    The loop over the offset [d] of the source stops after [d = 0]
    ("short circuited to only look at canonical registers"), so the
    [switch] on [d] is embedded at its case 0. *)

(** [(short)letter - 64], the table index of a residue. *)
Definition residue (ch : ascii) : Z := Z.of_nat (nat_of_ascii ch) - 64.

Definition is_letter (ch : ascii) (l : string) : bool :=
  match l with
  | String l0 _ => Ascii.eqb ch l0
  | EmptyString => false
  end.

(** [for (y = 0; y < numAA; y++) dst[k][y] = src[k][y];] *)
Definition copy_row (n k : Z) (src dst : Z -> Z -> ascii) : Z -> Z -> ascii :=
  fun k' y =>
    if (k' =? k) && (0 <=? y) && (y <? n) then src k y else dst k' y.

(** [trimmedHelix] at offset 0: [numPep], [Nterm], [Cterm], [XaaPos] and
    [numAA] are copied from the sample, and so are the rows [a], [b] and
    [c] of its sequences on the positions below [numAA].  The other
    members of this local object are indeterminate in the source and never
    read; the embedding lets them hold the sample's. *)
Definition trim_canonical (theHelix : TripleHelix) (a b c : Z) : TripleHelix :=
  let n := numAA theHelix in
  let src := sequences theHelix in
  set_sequences (copy_row n c src (copy_row n b src (copy_row n a src src)))
    theHelix.

(** The locals of [ScoreHelix] that live across the iterations. *)
Record locals := mkLocals {
  maxTm : Q;
  secondBestTm : Q;
  bestReg : register;
  secondBestReg : register;
  XinteractionThread : darray;
  LinteractionThread : darray
}.

Section OneRegister.

Variable parameters : parameterType.
Variables a b c d : Z.

(** [theHelix->Propensity[a][b][c][d] += v] and [-= v] *)
Definition add_Propensity (v : Q) (h : TripleHelix) : TripleHelix :=
  set_Propensity (gstore (Propensity h) a b c d (Propensity h a b c d + v)%Q) h.

Definition sub_Propensity (v : Q) (h : TripleHelix) : TripleHelix :=
  set_Propensity (gstore (Propensity h) a b c d (Propensity h a b c d - v)%Q) h.

Definition add_PairWise (v : Q) (h : TripleHelix) : TripleHelix :=
  set_PairWise (gstore (PairWise h) a b c d (PairWise h a b c d + v)%Q) h.

(** [netCharge[a][b][c][d]++] and [--], [totalCharge[a][b][c][d]++], on
    shorts. *)
Definition bump_netCharge (k : Z) (h : TripleHelix) : TripleHelix :=
  set_netCharge
    (gstore (netCharge h) a b c d (to_short (netCharge h a b c d + k))) h.

Definition bump_totalCharge (h : TripleHelix) : TripleHelix :=
  set_totalCharge
    (gstore (totalCharge h) a b c d (to_short (totalCharge h a b c d + 1))) h.

(** Length (main.cpp 1017-1027). *)
Definition length_basis (trimmedHelix : TripleHelix) : Q :=
  if numAA trimmedHelix >? 50
  then (A parameters + B parameters * 50 + C parameters * 50 * 50)%Q
  else (A parameters + B parameters * of_int (numAA trimmedHelix)
        + C parameters * of_int (numAA trimmedHelix)
          * of_int (numAA trimmedHelix))%Q.

Definition set_length (trimmedHelix h : TripleHelix) : TripleHelix :=
  set_Propensity
    (gstore (Propensity h) a b c d (length_basis trimmedHelix)) h.

(** Termination, tyrosine and tryptophan caps, terminal hydrogen bonding
    (main.cpp 1032-1062). *)
Definition all_three (trimmedHelix : TripleHelix) (x : Z) (l : string) : bool :=
  is_letter (sequences trimmedHelix a x) l
  && is_letter (sequences trimmedHelix b x) l
  && is_letter (sequences trimmedHelix c x) l.

Definition termination (trimmedHelix h : TripleHelix) : TripleHelix :=
  let h := if String.eqb (Nterm trimmedHelix) "n"
           then sub_Propensity (9 # 5) h else h in
  let h := if String.eqb (Cterm trimmedHelix) "c"
           then sub_Propensity (9 # 5) h else h in
  let h := if all_three trimmedHelix 0 "Y"
           then add_Propensity 3 h else h in
  let h := if all_three trimmedHelix (numAA trimmedHelix - 1) "Y"
           then add_Propensity 3 h else h in
  let h := if all_three trimmedHelix 0 "W"
           then add_Propensity 3 h else h in
  let h := if all_three trimmedHelix (numAA trimmedHelix - 1) "W"
           then add_Propensity 3 h else h in
  let h := if negb (isXaa trimmedHelix 0)
           then sub_Propensity (9 # 5) h else h in
  let h := if negb (isGly trimmedHelix (numAA h - 1))
           then sub_Propensity (9 # 5) h else h in
  h.

(** Single amino acid score (main.cpp 1070-1126). *)
Definition count_charge (ch : ascii) (h : TripleHelix) : TripleHelix :=
  let h := if is_letter ch "K" || is_letter ch "R"
           then bump_totalCharge (bump_netCharge 1 h) else h in
  let h := if is_letter ch "E" || is_letter ch "D"
           then bump_totalCharge (bump_netCharge (-1) h) else h in
  h.

(** The two statements of one peptide at position [x]; [tip] selects the
    statements of the [else] branch, which divide by 3. *)
Definition residue_propensity (trimmedHelix : TripleHelix) (tip : bool)
    (x k : Z) (h : TripleHelix) : TripleHelix :=
  let i := residue (sequences trimmedHelix k x) in
  let h := if isXaa trimmedHelix x
           then add_Propensity
                  (if tip then propensityX parameters i / 3
                   else propensityX parameters i) h
           else h in
  let h := if isYaa trimmedHelix x
           then add_Propensity
                  (if tip then propensityY parameters i / 3
                   else propensityY parameters i) h
           else h in
  h.

Definition single_AA_step (trimmedHelix h : TripleHelix) (x : Z) : TripleHelix :=
  let h := count_charge (sequences trimmedHelix a x) h in
  let h := count_charge (sequences trimmedHelix b x) h in
  let h := count_charge (sequences trimmedHelix c x) h in
  let tip := negb ((x >? 2) && (x <? numAA h - 2)) in
  let h := residue_propensity trimmedHelix tip x a h in
  let h := residue_propensity trimmedHelix tip x b h in
  let h := residue_propensity trimmedHelix tip x c h in
  h.

Definition single_AA_score (trimmedHelix h : TripleHelix) : TripleHelix :=
  fold_left (single_AA_step trimmedHelix) (upto (numAA h)) h.

(** Charge scoring (main.cpp 1128-1132): the operands of the division are
    [int]s. *)
Definition charge_scoring (h : TripleHelix) : TripleHelix :=
  if Z.abs (netCharge h a b c d) >? 6
  then sub_Propensity
         (of_int (Z.quot (Z.abs (netCharge h a b c d) - 6) 3)) h
  else h.

(** Filling the two interaction threads: [i] counts the Yaa positions met
    so far. *)
Definition fill_step (isY : Z -> bool) (Xv Lv : Z -> Q)
    (st : Z * darray * darray) (x : Z) : Z * darray * darray :=
  let '(i, Xs, Ls) := st in
  if isY x then (i + 1, dstore Xs i (Xv x), dstore Ls i (Lv x)) else st.

Definition fill_threads (isY : Z -> bool) (n : Z) (Xv Lv : Z -> Q)
    (l : locals) : locals :=
  let '(_, Xs, Ls) :=
    fold_left (fill_step isY Xv Lv) (upto n)
      (0, XinteractionThread l, LinteractionThread l) in
  mkLocals (maxTm l) (secondBestTm l) (bestReg l) (secondBestReg l) Xs Ls.

(** "force *ALL* possible destabilizing interactions" *)
Definition destabilizing_step (l : locals) (h : TripleHelix) (x : Z) : TripleHelix :=
  let h := if Qlt_bool (XinteractionThread l x) 0
           then add_PairWise (XinteractionThread l x) h else h in
  let h := if Qlt_bool (LinteractionThread l x) 0
           then add_PairWise (LinteractionThread l x) h else h in
  h.

Definition force_destabilizing (numYaa : Z) (l : locals) (h : TripleHelix)
    : TripleHelix :=
  fold_left (destabilizing_step l) (upto numYaa) h.

Definition best_stabilizing (numYaa : Z) (l : locals) : Q :=
  Selector.PairWiseCalc (XinteractionThread l) (LinteractionThread l)
    0 numYaa 9 0 0.

Definition pair_value (t : Z -> Z -> Q) (s : Z -> Z -> ascii)
    (k x k' x' : Z) : Q :=
  t (residue (s k x)) (residue (s k' x')).

(** The three threads (main.cpp 1138-1222). *)
Definition set_pairwise (numYaa : Z) (trimmedHelix : TripleHelix)
    (st : TripleHelix * locals) : TripleHelix * locals :=
  let '(h, l) := st in
  let s := sequences trimmedHelix in
  (* first thread *)
  let l := fill_threads (isYaa h) (numAA h)
             (fun x => if x + 2 <? numAA trimmedHelix
                       then pair_value (axial parameters) s a x b (x + 2)
                       else 0%Q)
             (fun x => if x - 1 >=? 0
                       then pair_value (lateral parameters) s a x b (x - 1)
                       else 0%Q) l in
  let h := set_PairWise
             (gstore (PairWise h) a b c d (best_stabilizing numYaa l)) h in
  let h := force_destabilizing numYaa l h in
  (* second thread *)
  let l := fill_threads (isYaa trimmedHelix) (numAA trimmedHelix)
             (fun x => if x + 2 <? numAA h
                       then pair_value (axial parameters) s b x c (x + 2)
                       else 0%Q)
             (fun x => if x - 1 >=? 0
                       then pair_value (lateral parameters) s b x c (x - 1)
                       else 0%Q) l in
  let h := add_PairWise (best_stabilizing numYaa l) h in
  let h := force_destabilizing numYaa l h in
  (* third thread *)
  let l := fill_threads (isYaa trimmedHelix) (numAA trimmedHelix)
             (fun x => if x + 5 <? numAA h
                       then pair_value (axial parameters) s c x a (x + 5)
                       else 0%Q)
             (fun x => if x + 2 <? numAA h
                       then pair_value (lateral parameters) s c x a (x + 2)
                       else 0%Q) l in
  let h := add_PairWise (best_stabilizing numYaa l) h in
  let h := force_destabilizing numYaa l h in
  (h, l).

(** [Tm[a][b][c][d] = Propensity[a][b][c][d] + PairWise[a][b][c][d]] *)
Definition set_Tm_cell (h : TripleHelix) : TripleHelix :=
  set_Tm (gstore (Tm h) a b c d (Propensity h a b c d + PairWise h a b c d)%Q) h.

(** Best and second best register (main.cpp 1232-1256). *)
Definition remember_best (tm : Q) (l : locals) : locals :=
  if Qle_bool (maxTm l) tm
  then mkLocals tm (maxTm l) (a, b, c, d) (bestReg l)
         (XinteractionThread l) (LinteractionThread l)
  else if Qle_bool (secondBestTm l) tm
  then mkLocals (maxTm l) tm (bestReg l) (a, b, c, d)
         (XinteractionThread l) (LinteractionThread l)
  else l.

(** The register of the correct composition (main.cpp 1258-1296).  For a
    single peptide the offset entry [CCRegister[3]] is not assigned. *)
Definition remember_CC (h : TripleHelix) : TripleHelix :=
  let h :=
    if numPep h =? 1
    then if Qle_bool (CCTm h) (Tm h a b c d)
         then set_CCRegister (a, b, c, offset_of (CCRegister h))
                (set_CCTm (Tm h a b c d) h)
         else h
    else h in
  let h :=
    if (numPep h =? 2)
       && (negb (a =? b) || negb (a =? c) || negb (b =? c))
    then if Qle_bool (CCTm h) (Tm h a b c d)
         then set_CCRegister (a, b, c, d) (set_CCTm (Tm h a b c d) h)
         else h
    else h in
  let h :=
    if (numPep h =? 3)
       && (negb (a =? b) && negb (a =? c) && negb (b =? c))
    then if Qle_bool (CCTm h) (Tm h a b c d)
         then set_CCRegister (a, b, c, d) (set_CCTm (Tm h a b c d) h)
         else h
    else h in
  h.

(** The Tm of one register: everything up to the assignment of
    [Tm[a][b][c][d]]. *)
Definition score_register (numYaa : Z) (st : TripleHelix * locals)
    : TripleHelix * locals :=
  let '(h, l) := st in
  let trimmedHelix := trim_canonical h a b c in
  let h := set_length trimmedHelix h in
  let h := termination trimmedHelix h in
  let h := single_AA_score trimmedHelix h in
  let h := charge_scoring h in
  let '(h, l) := set_pairwise numYaa trimmedHelix (h, l) in
  (set_Tm_cell h, l).

(** The body of the loop over the registers. *)
Definition register_body (numYaa : Z) (st : TripleHelix * locals)
    : TripleHelix * locals :=
  let '(h, l) := score_register numYaa st in
  (remember_CC h, remember_best (Tm h a b c d) l).

End OneRegister.

(** The registers in the order of the loops over [a], [b] and [c]. *)
Definition registers (numPep : Z) : list (Z * Z * Z) :=
  flat_map (fun a =>
    flat_map (fun b => map (fun c => (a, b, c)) (upto numPep)) (upto numPep))
    (upto numPep).

Definition zero_grid : grid Q := fun _ _ _ _ => 0%Q.

Definition same_peptides (r1 r2 : register) : bool :=
  let '(a1, b1, c1, _) := r1 in
  let '(a2, b2, c2, _) := r2 in
  (a1 =? a2) && (b1 =? b2) && (c1 =? c2).

(** The deviation (main.cpp 1325-1361); the registers are compared on
    their three peptides. *)
Definition set_final_deviation (maxTm : Q) (h : TripleHelix) : TripleHelix :=
  if same_peptides (CCRegister h) (bestRegister h)
  then
    if Qeq_bool (expTm h) (-10)
    then if Qle_bool maxTm 10 then set_deviation 0 h
         else set_deviation (maxTm - 10) h
    else set_deviation (maxTm - expTm h) h
  else
    if Qeq_bool (expTm h) (-10)
    then
      let h := if Qle_bool maxTm 10 then set_deviation 0 h else h in
      let h := if Qlt_bool 10 maxTm then set_deviation (maxTm - 10) h else h in
      h
    else
      let h := set_deviation (CCTm h - expTm h) h in
      if Qlt_bool (deviation h) 0
      then set_deviation (deviation h - (1 # 2) * Qabs (CCTm h - maxTm)) h
      else set_deviation (deviation h + (1 # 2) * Qabs (CCTm h - maxTm)) h.

(** "move all values to the helix parameters" (main.cpp 1303-1315), then
    the deviation. *)
Definition conclude (l : locals) (h : TripleHelix) : TripleHelix :=
  let h := set_HighTm (maxTm l) h in
  let h := set_bestRegister (bestReg l) h in
  let h := set_bestPropensity (at_reg (Propensity h) (bestRegister h)) h in
  let h := set_bestPairwise (at_reg (PairWise h) (bestRegister h)) h in
  let h := set_secTm (secondBestTm l) h in
  let h := set_secRegister (secondBestReg l) h in
  let h := set_specificity (maxTm l - secondBestTm l) h in
  set_final_deviation (maxTm l) h.

(** The state on entry of the loop over the registers (main.cpp 877-917):
    [Propensity], [PairWise] and [Tm] are zeroed, the two threads are
    zeroed, the best, second best and correct-composition slots get their
    sentinels.  [netCharge] and [totalCharge] are not assigned here. *)
Definition initial_locals : locals :=
  mkLocals (-1000) (-2000) (6, 6, 6, 11) (5, 5, 5, 10)
    (fun _ => 0%Q) (fun _ => 0%Q).

Definition prepare (theHelix : TripleHelix) : TripleHelix :=
  let h := set_Tm zero_grid (set_PairWise zero_grid
             (set_Propensity zero_grid theHelix)) in
  set_CCRegister (7, 7, 7, 12) (set_CCTm (-1500) h).

Definition score_registers (parameters : parameterType) (numYaa : Z)
    (rs : list (Z * Z * Z)) (st : TripleHelix * locals) : TripleHelix * locals :=
  fold_left (fun st r => let '(a, b, c) := r in
                         register_body parameters a b c 0 numYaa st) rs st.

Definition ScoreHelix (parameters : parameterType) (theHelix : TripleHelix)
    : TripleHelix :=
  let h := prepare theHelix in
  let numYaa := Z.quot (numAA h) 3 in
  let '(h, l) :=
    score_registers parameters numYaa (registers (numPep h))
      (h, initial_locals) in
  conclude l h.

(** ** Scoring a library (main.cpp 1368-1376)

    [TripleHelix Library[500]] is read through its index. *)
Definition library : Type := Z -> TripleHelix.

Definition ScoreLibrary (start stop : Z) (parameters : parameterType)
    (Lib : library) : library :=
  fold_left (fun L n => store1 L n (ScoreHelix parameters (L n)))
    (map (fun k => start + k) (upto (stop - start))) Lib.

(** The two workers of a scoring pass, [th1] on the first half of the
    library and [th2] on the second, both joined before the caller goes on.
    Each worker has its own copy of the parameters and touches only the
    samples of its half, so the pass is the one worker after the other. *)
Definition score_pass (TotalHelices : Z) (parameters : parameterType)
    (Lib : library) : library :=
  ScoreLibrary (Z.quot TotalHelices 2) TotalHelices parameters
    (ScoreLibrary 0 (Z.quot TotalHelices 2) parameters Lib).

(** [for (n = 0; n < TotalHelices; n++) NewSumSquaredDev += deviation * deviation;] *)
Definition sum_squared (TotalHelices : Z) (Lib : library) : Q :=
  fold_left (fun acc n => (acc + deviation (Lib n) * deviation (Lib n))%Q)
    (upto TotalHelices) 0%Q.

(** ** The optimization loop of [main] (main.cpp 1778-2182) *)

(** [double delta = 0.1;  short maxRounds = 25;  double maxDev = 2.0;]
    (main.cpp 1511-1517).  The double for 0.1 is
    3602879701896397 / 2^55. *)
Definition delta : Q := to_double (1 # 10).
Definition maxRounds : Z := 25.
Definition maxDev : Q := 2.

(** The scalars the loop visits. *)
Inductive scalar :=
| PropX (x : Z)
| PropY (x : Z)
| AxialCell (x y : Z)
| LateralCell (x y : Z).

Definition value (s : scalar) (p : parameterType) : Q :=
  match s with
  | PropX x => propensityX p x
  | PropY x => propensityY p x
  | AxialCell x y => axial p x y
  | LateralCell x y => lateral p x y
  end.

Definition reference (s : scalar) (p : parameterType) : Q :=
  match s with
  | PropX x => exPropensityX p x
  | PropY x => exPropensityY p x
  | AxialCell x y => exAxial p x y
  | LateralCell x y => exLateral p x y
  end.

Definition tunable (s : scalar) (p : parameterType) : bool :=
  match s with
  | PropX x => optPropX p x
  | PropY x => optPropY p x
  | AxialCell x y => optAxial p x y
  | LateralCell x y => optLat p x y
  end.

Definition assign (s : scalar) (v : Q) (p : parameterType) : parameterType :=
  match s with
  | PropX x => set_propensityX (store1 (propensityX p) x v) p
  | PropY x => set_propensityY (store1 (propensityY p) x v) p
  | AxialCell x y => set_axial (store2 (axial p) x y v) p
  | LateralCell x y => set_lateral (store2 (lateral p) x y v) p
  end.

(** The variables of [main] the loop works on. *)
Record search := mkSearch {
  parameters_of : parameterType;
  Library : library;
  sumSquaredDev : Q;
  improved : bool;
  improvedRound : bool;
  done : bool;
  round : Z
}.

Definition with_parameters (p : parameterType) (st : search) : search :=
  mkSearch p (Library st) (sumSquaredDev st) (improved st)
    (improvedRound st) (done st) (round st).

Definition with_improved (i : bool) (st : search) : search :=
  mkSearch (parameters_of st) (Library st) (sumSquaredDev st) i
    (improvedRound st) (done st) (round st).

(** One test of a changed scalar: when the new value is in range, the
    library is scored again and the change is kept if the sum of squared
    deviations got smaller. *)
Definition test_change (TotalHelices : Z) (in_range : bool) (st : search)
    : search :=
  if in_range
  then
    let Lib := score_pass TotalHelices (parameters_of st) (Library st) in
    let NewSumSquaredDev := sum_squared TotalHelices Lib in
    if Qlt_bool NewSumSquaredDev (sumSquaredDev st)
    then mkSearch (parameters_of st) Lib NewSumSquaredDev true true
           (done st) (round st)
    else mkSearch (parameters_of st) Lib (sumSquaredDev st) (improved st)
           (improvedRound st) (done st) (round st)
  else st.

(** [parameters.propensityX[x] -= delta;] and [+= delta;]: the scalar gets
    the double nearest to the exact result. *)
Definition change (s : scalar) (by_ : Q) (st : search) : search :=
  with_parameters
    (assign s (to_double (value s (parameters_of st) + by_))
       (parameters_of st)) st.

(** The block of one scalar (main.cpp 1928-1987 for an Xaa propensity; the
    blocks of the Yaa propensities and of the axial and lateral cells are
    the same statements on their scalar), up to and including the
    [improved = false] that follows it.  The last statement moves the
    scalar back by [delta] ("Go back to original parameter"); nothing
    is saved and written back. *)
Definition tune (TotalHelices : Z) (s : scalar) (st : search) : search :=
  let st :=
    if tunable s (parameters_of st)
    then
      let st := change s (- delta) st in
      let st :=
        test_change TotalHelices
          (Qle_bool (to_double (reference s (parameters_of st) - maxDev))
                    (value s (parameters_of st))) st in
      let st :=
        if negb (improved st)
        then
          let st := change s delta st in
          let st := change s delta st in
          test_change TotalHelices
            (Qle_bool (value s (parameters_of st))
                      (to_double (reference s (parameters_of st) + maxDev)))
            st
        else st in
      let st := if negb (improved st) then change s (- delta) st else st in
      st
    else st in
  with_improved false st.

(** The scalars in the order of the loops over [x] and [y]. *)
Definition visit_order : list scalar :=
  flat_map (fun x =>
    PropX x :: PropY x ::
    flat_map (fun y => [AxialCell x y; LateralCell x y]) (upto 27))
    (upto 27).

(** One round of the [while] loop. *)
Definition one_round (TotalHelices : Z) (st : search) : search :=
  let st := fold_left (fun st s => tune TotalHelices s st) visit_order st in
  let done1 := if negb (improvedRound st) then true else done st in
  let round1 := to_short (round st + 1) in
  let done2 := if round1 >=? maxRounds then true else done1 in
  mkSearch (parameters_of st) (Library st) (sumSquaredDev st) false false
    done2 round1.

(** [while (not done) { ... }] *)
Fixpoint optimize (fuel : nat) (TotalHelices : Z) (st : search) : search :=
  if done st then st
  else match fuel with
       | O => st
       | S fuel' => optimize fuel' TotalHelices (one_round TotalHelices st)
       end.

(** The optimization branch of [main] (main.cpp 1728-1796): the first
    scoring of the library, then the loop.  The source sets [done = true]
    just before the loop ("ie don't make changes! Comment this out to
    allow optimization."). *)
Definition optimization (TotalHelices : Z) (p : parameterType)
    (Lib : library) : search :=
  let Lib := score_pass TotalHelices p Lib in
  let st := mkSearch p Lib (sum_squared TotalHelices Lib) false false
              true 0 in
  optimize (Z.to_nat maxRounds) TotalHelices st.

(** ** Loading a sample *)

(** [initializeAll] (main.cpp 172-205).  [XaaPos] is not assigned: it
    keeps whatever the object held. *)
Definition initializeAll (h : TripleHelix) : TripleHelix :=
  mkTripleHelix 0 0 (fun _ _ => "."%char) "initial" "initial"
    0 0 0 0 0 0 (0, 0, 0, 0) (0, 0, 0, 0) (0, 0, 0, 0)
    (fun _ _ _ _ => 0) (fun _ _ _ _ => 0) 0 0
    zero_grid zero_grid zero_grid (XaaPos h).

(** The characters of the peptides, written over the dots. *)
Definition row_of (s : string) (dots : Z -> ascii) : Z -> ascii :=
  fun y =>
    if y <? 0 then dots y
    else match String.get (Z.to_nat y) s with
         | Some ch => ch
         | None => dots y
         end.

Definition rows_of (peptides : list string) (dots : Z -> Z -> ascii)
    : Z -> Z -> ascii :=
  fun k =>
    if k <? 0 then dots k
    else match nth_error peptides (Z.to_nat k) with
         | Some s => row_of s (dots k)
         | None => dots k
         end.

(** What [readLibrary] stores for one sample (main.cpp 1412-1455), on an
    initialized element, followed by the phase detection (main.cpp 1460).
    The peptides are given in capitals. *)
Definition load_sample (numPep numAA : Z) (Nterm Cterm : string) (expTm : Q)
    (peptides : list string) (h : TripleHelix) : TripleHelix * bool :=
  let h := initializeAll h in
  determine_reptition
    (mkTripleHelix numPep numAA (rows_of peptides (sequences h)) Nterm Cterm
       expTm (CCTm h) (HighTm h) (deviation h) (secTm h) (specificity h)
       (bestRegister h) (secRegister h) (CCRegister h)
       (netCharge h) (totalCharge h) (bestPropensity h) (bestPairwise h)
       (Propensity h) (PairWise h) (Tm h) (XaaPos h)).

(** ** The quantities the properties are stated with *)

(** The number of glycines of peptide 0 on the track of the positions
    congruent to [r] modulo 3. *)
Definition track_glycines (h : TripleHelix) (r : Z) : Z :=
  Z.of_nat (List.length (filter
    (fun x => (x mod 3 =? r) && Ascii.eqb (sequences h 0 x) "G")
    (upto (numAA h)))).

(** The threshold of the design document, the ceiling of [n / 3]. *)
Definition ceil_third (n : Z) : Z := (n + 2) / 3.

(** The composition filter of the correct-composition register. *)
Definition eligible (numPep : Z) (r : Z * Z * Z) : bool :=
  let '(a, b, c) := r in
  (numPep =? 1)
  || ((numPep =? 2) && (negb (a =? b) || negb (a =? c) || negb (b =? c)))
  || ((numPep =? 3) && (negb (a =? b) && negb (a =? c) && negb (b =? c))).

Definition peptides_of (r : register) : Z * Z * Z :=
  let '(a, b, c, _) := r in (a, b, c).

Definition Tm_of (h : TripleHelix) (r : Z * Z * Z) : Q :=
  let '(a, b, c) := r in Tm h a b c 0.

(** The tie-break as the design document words it: the first register
    that reaches the running best is recorded, a later one is recorded
    only when it is strictly better.  The slot starts with the sentinel
    value [tm0] and no register ([None]). *)
Definition first_best_step (tm : Z * Z * Z -> Q) (tm0 : Q)
    (acc : option (Z * Z * Z)) (r : Z * Z * Z) : option (Z * Z * Z) :=
  match acc with
  | None => if Qle_bool tm0 (tm r) then Some r else None
  | Some r0 => if Qlt_bool (tm r0) (tm r) then Some r else Some r0
  end.

Definition first_best (tm : Z * Z * Z -> Q) (tm0 : Q)
    (rs : list (Z * Z * Z)) : option (Z * Z * Z) :=
  fold_left (first_best_step tm tm0) rs None.

(** The deviation as the design document words it, on a scored sample:
    the sentinel handling of the second case is on [CCTm]. *)
Definition sentinel_deviation (tm : Q) : Q :=
  if Qle_bool tm 10 then 0%Q else (tm - 10)%Q.

Definition documented_deviation (r : TripleHelix) : Q :=
  if same_peptides (CCRegister r) (bestRegister r)
  then if Qeq_bool (expTm r) (-10) then sentinel_deviation (HighTm r)
       else (HighTm r - expTm r)%Q
  else if Qeq_bool (expTm r) (-10) then sentinel_deviation (CCTm r)
       else
         let base := (CCTm r - expTm r)%Q in
         if Qle_bool 0 base
         then (base + (1 # 2) * Qabs (CCTm r - HighTm r))%Q
         else (base - (1 # 2) * Qabs (CCTm r - HighTm r))%Q.

(** The deviation as [ScoreHelix] computes it: the sentinel handling is on
    the best Tm in both cases. *)
Definition computed_deviation (r : TripleHelix) : Q :=
  if same_peptides (CCRegister r) (bestRegister r)
  then if Qeq_bool (expTm r) (-10) then sentinel_deviation (HighTm r)
       else (HighTm r - expTm r)%Q
  else if Qeq_bool (expTm r) (-10) then sentinel_deviation (HighTm r)
       else
         let base := (CCTm r - expTm r)%Q in
         if Qle_bool 0 base
         then (base + (1 # 2) * Qabs (CCTm r - HighTm r))%Q
         else (base - (1 # 2) * Qabs (CCTm r - HighTm r))%Q.

(** The propensity of the residue of peptide [k] at position [x], by the
    role of the position. *)
Definition role_propensity (p : parameterType) (h : TripleHelix) (k x : Z) : Q :=
  let i := residue (sequences h k x) in
  if isXaa h x then propensityX p i
  else if isYaa h x then propensityY p i
  else 0%Q.

(** Weights of the positions.  [tip_weight]: full weight on the positions
    3 .. numAA - 3.  [triad_weight], after the design document: a third on
    the three positions at either end, full weight strictly inside. *)
Definition tip_weight (numAA x : Z) : Q :=
  if (3 <=? x) && (x <=? numAA - 3) then 1%Q else (1 # 3)%Q.

Definition triad_weight (numAA x : Z) : Q :=
  if (3 <=? x) && (x <=? numAA - 4) then 1%Q else (1 # 3)%Q.

Definition residue_sum (w : Z -> Q) (p : parameterType) (h : TripleHelix)
    (a b c : Z) : Q :=
  fold_left
    (fun acc x =>
       (acc + w x * (role_propensity p h a x + role_propensity p h b x
                     + role_propensity p h c x))%Q)
    (upto (numAA h)) 0%Q.

Definition when (b : bool) (v : Q) : Q := if b then v else 0%Q.

(** Length basis and the adjustments at the two ends, for the peptides
    [a], [b] and [c]. *)
Definition terminal_terms (p : parameterType) (h : TripleHelix) (a b c : Z) : Q :=
  (length_basis p h
   - when (String.eqb (Nterm h) "n") (9 # 5)
   - when (String.eqb (Cterm h) "c") (9 # 5)
   + when (all_three a b c h 0 "Y") 3
   + when (all_three a b c h (numAA h - 1) "Y") 3
   + when (all_three a b c h 0 "W") 3
   + when (all_three a b c h (numAA h - 1) "W") 3
   - when (negb (isXaa h 0)) (9 # 5)
   - when (negb (isGly h (numAA h - 1))) (9 # 5))%Q.

(** +1 for Lys and Arg, -1 for Glu and Asp. *)
Definition charge_of (ch : ascii) : Z :=
  (if is_letter ch "K" || is_letter ch "R" then 1 else 0)
  + (if is_letter ch "E" || is_letter ch "D" then -1 else 0).

Definition net_charge_sum (h : TripleHelix) (a b c : Z) : Z :=
  fold_left
    (fun acc x => acc + (charge_of (sequences h a x)
                         + charge_of (sequences h b x)
                         + charge_of (sequences h c x)))
    (upto (numAA h)) 0.

(** The charge penalty with the quotient of integers, and with the
    rational quotient of the design document. *)
Definition charge_penalty (nc : Z) : Q :=
  if Z.abs nc >? 6 then of_int (Z.quot (Z.abs nc - 6) 3) else 0%Q.

Definition rational_charge_penalty (nc : Z) : Q :=
  if Z.abs nc >? 6 then (of_int (Z.abs nc - 6) / 3)%Q else 0%Q.

(** ** Concrete samples and parameters *)

Local Open Scope string_scope.

(** An object before [initializeAll]: its phase holds a stray 7. *)
Definition blank : TripleHelix :=
  mkTripleHelix 0 0 (fun _ _ => "."%char) "" "" 0 0 0 0 0 0
    (0, 0, 0, 0) (0, 0, 0, 0) (0, 0, 0, 0)
    (fun _ _ _ _ => 0) (fun _ _ _ _ => 0) 0 0
    zero_grid zero_grid zero_grid 7.

(** All parameters zero, nothing to optimize. *)
Definition zero_parameters : parameterType :=
  mkParameters (fun _ _ => 0%Q) (fun _ _ => 0%Q) (fun _ => 0%Q) (fun _ => 0%Q)
    0 0 0 0 0 0 false (fun _ => false) (fun _ => false)
    (fun _ _ => false) (fun _ _ => false)
    (fun _ _ => 0%Q) (fun _ _ => 0%Q) (fun _ => 0%Q) (fun _ => 0%Q)
    0 0 0 0 0 0.

Definition with_A (v : Q) (p : parameterType) : parameterType :=
  mkParameters (axial p) (lateral p) (propensityX p) (propensityY p) v (B p)
    (C p) (charge p) (Nterm_p p) (Cterm_p p) (optLength p) (optPropX p)
    (optPropY p) (optAxial p) (optLat p) (exAxial p) (exLateral p)
    (exPropensityX p) (exPropensityY p) (exA p) (exB p) (exC p) (exCharge p)
    (exNterm p) (exCterm p).

Definition POG7 : string := "POGPOGPOGPOGPOGPOGPOG".

(** The homotrimer of (Pro-Hyp-Gly)7, acetylated and amidated. *)
Definition homotrimer_POG : TripleHelix :=
  fst (load_sample 1 21 "ac" "am" 30 [POG7] blank).

(** A homotrimer with one lysine. *)
Definition homotrimer_K : TripleHelix :=
  fst (load_sample 1 21 "ac" "am" 30 ["POGPOGPOGPKGPOGPOGPOG"] blank).

(** A homotrimer with three lysines. *)
Definition homotrimer_KKK : TripleHelix :=
  fst (load_sample 1 21 "ac" "am" 30 ["PKGPKGPKGPOGPOGPOGPOG"] blank).

(** Two peptides, three lysines on the first and two on the second. *)
Definition heterotrimer_KK : TripleHelix :=
  fst (load_sample 2 21 "ac" "am" 30
         ["PKGPKGPKGPOGPOGPOGPOG"; "PKGPKGPOGPOGPOGPOGPOG"] blank).

(** Two peptides without charges. *)
Definition heterotrimer_PA : TripleHelix :=
  fst (load_sample 2 21 "ac" "am" 30 [POG7; "PAGPAGPAGPAGPAGPAGPAG"] blank).

(** The same two peptides, no transition observed (sentinel -10). *)
Definition heterotrimer_no_transition : TripleHelix :=
  fst (load_sample 2 21 "ac" "am" (-10) [POG7; "PAGPAGPAGPAGPAGPAGPAG"] blank).

(** Length coefficient 20 and a Yaa propensity of -3 for alanine. *)
Definition alanine_parameters : parameterType :=
  with_A 20 (set_propensityY (store1 (fun _ => 0%Q) 1 (-3)%Q) zero_parameters).

(** An Xaa propensity of 3 for proline. *)
Definition proline_parameters : parameterType :=
  set_propensityX (store1 (fun _ => 0%Q) 16 3%Q) zero_parameters.

(** 22 residues, glycine on seven of the eight positions of track 0. *)
Definition seven_glycines : TripleHelix :=
  mkTripleHelix 1 22 (rows_of ["GPOGPOGPOGPOGPOGPOGPOA"] (fun _ _ => "."%char))
    "ac" "am" 30 0 0 0 0 0 (0, 0, 0, 0) (0, 0, 0, 0) (0, 0, 0, 0)
    (fun _ _ _ _ => 0) (fun _ _ _ _ => 0) 0 0
    zero_grid zero_grid zero_grid 7.

(** Two sites, axial 5 and lateral 3 on the first, nothing on the second. *)
Definition two_sites_axial : darray := darray_of [5; 0]%Q.
Definition two_sites_lateral : darray := darray_of [3; 0]%Q.

Local Close Scope string_scope.

(** One site, axial 5 and lateral 3. *)
Definition one_site_axial : darray := darray_of [5]%Q.
Definition one_site_lateral : darray := darray_of [3]%Q.

(** The proline propensity open to optimization, a library of one sample,
    and the loop about to start with a tracked sum of 100. *)
Definition proline_tunable : parameterType :=
  mkParameters (axial proline_parameters) (lateral proline_parameters)
    (propensityX proline_parameters) (propensityY proline_parameters)
    0 0 0 0 0 0 false (fun x => x =? 16) (fun _ => false)
    (fun _ _ => false) (fun _ _ => false)
    (axial proline_parameters) (lateral proline_parameters)
    (propensityX proline_parameters) (propensityY proline_parameters)
    0 0 0 0 0 0.

Definition search_start : search :=
  mkSearch proline_tunable (fun _ => homotrimer_POG) 100 false false false 0.

(** Four (Ala-Hyp-Gly)7 homotrimers that melt at 76 degrees, an Xaa
    propensity of 4 for alanine, which predicts them exactly, open to
    optimization, and the loop about to start after the first scoring. *)
Local Open Scope string_scope.


Local Close Scope string_scope.

Definition alanine_tunable : parameterType :=
  mkParameters (fun _ _ => 0%Q) (fun _ _ => 0%Q)
    (store1 (fun _ => 0%Q) 1 4%Q) (fun _ => 0%Q)
    0 0 0 0 0 0 false (fun x => x =? 1) (fun _ => false)
    (fun _ _ => false) (fun _ _ => false)
    (fun _ _ => 0%Q) (fun _ _ => 0%Q)
    (store1 (fun _ => 0%Q) 1 4%Q) (fun _ => 0%Q)
    0 0 0 0 0 0.


(** ** Vocabulary of the proofs *)

Definition glycines_on (h : TripleHelix) (r : Z) (xs : list Z) : Z :=
  Z.of_nat (List.length (filter
    (fun x => (x mod 3 =? r) && Ascii.eqb (sequences h 0 x) "G") xs)).

Section CellVocabulary.

Variable p : parameterType.
Variables a b c d : Z.

Definition off_cell {V} (g g' : grid V) : Prop :=
  forall a' b' c' d',
    (a', b', c', d') <> (a, b, c, d) -> g' a' b' c' d' = g a' b' c' d'.

Definition kept {V} (may_change : bool) (g g' : grid V) : Prop :=
  if may_change then off_cell g g' else g' = g.

Record frame (mC mP mW mN mT mM : bool) (h h' : TripleHelix) : Prop := mkFrame {
  fr_numPep : numPep h' = numPep h;
  fr_numAA : numAA h' = numAA h;
  fr_sequences : sequences h' = sequences h;
  fr_Nterm : Nterm h' = Nterm h;
  fr_Cterm : Cterm h' = Cterm h;
  fr_XaaPos : XaaPos h' = XaaPos h;
  fr_expTm : expTm h' = expTm h;
  fr_CC : mC = false -> CCTm h' = CCTm h /\ CCRegister h' = CCRegister h;
  fr_Propensity : kept mP (Propensity h) (Propensity h');
  fr_PairWise : kept mW (PairWise h) (PairWise h');
  fr_netCharge : kept mN (netCharge h) (netCharge h');
  fr_totalCharge : kept mT (totalCharge h) (totalCharge h');
  fr_Tm : kept mM (Tm h) (Tm h')
}.

(** The propensity cell holds [v] and the length of the sample is [n]. *)
Definition cell_is (v : Q) (n : Z) (h : TripleHelix) : Prop :=
  (Propensity h a b c d == v)%Q /\ numAA h = n.

Definition weighted_step (w : Z -> Q) (h : TripleHelix) (acc : Q) (x : Z) : Q :=
  (acc + w x * (role_propensity p h a x + role_propensity p h b x
                + role_propensity p h c x))%Q.

(** The sample when the pairwise terms are about to be computed. *)
Definition before_pairwise (h : TripleHelix) : TripleHelix :=
  let trimmedHelix := trim_canonical h a b c in
  charge_scoring a b c d
    (single_AA_score p a b c d trimmedHelix
       (termination a b c d trimmedHelix
          (set_length p a b c d trimmedHelix h))).

Definition charges_at (h : TripleHelix) (x : Z) : Z :=
  charge_of (sequences h a x) + charge_of (sequences h b x)
  + charge_of (sequences h c x).

End CellVocabulary.

(** The data of a sample that scoring reads and never writes. *)
Record same_sample (h h' : TripleHelix) : Prop := mkSame {
  ss_numPep : numPep h' = numPep h;
  ss_numAA : numAA h' = numAA h;
  ss_sequences : sequences h' = sequences h;
  ss_Nterm : Nterm h' = Nterm h;
  ss_Cterm : Cterm h' = Cterm h;
  ss_XaaPos : XaaPos h' = XaaPos h;
  ss_expTm : expTm h' = expTm h
}.

(** The cells of a register. *)
Record same_cells (a b c : Z) (h h' : TripleHelix) : Prop := mkCells {
  sc_Propensity : Propensity h' a b c 0 = Propensity h a b c 0;
  sc_PairWise : PairWise h' a b c 0 = PairWise h a b c 0;
  sc_netCharge : netCharge h' a b c 0 = netCharge h a b c 0;
  sc_totalCharge : totalCharge h' a b c 0 = totalCharge h a b c 0;
  sc_Tm : Tm h' a b c 0 = Tm h a b c 0
}.

Definition body (p : parameterType) (numYaa : Z)
    (st : TripleHelix * locals) (r : Z * Z * Z)
    : TripleHelix * locals :=
  let '(a, b, c) := r in register_body p a b c 0 numYaa st.

Definition scored_state (p : parameterType) (h : TripleHelix)
    : TripleHelix * locals :=
  score_registers p (Z.quot (numAA h) 3) (registers (numPep h))
    (prepare h, initial_locals).

(** What a slot holds after the registers [els] were compared with it in
    this order, with [tm0] and [reg0] in it before and [tmf] the Tm of a
    register: either nothing reached [tm0] and the slot is as before, or
    the slot holds the last register of the list whose Tm is at least
    [tm0] and at least the Tm of every register before it; the registers
    after it are strictly below. *)
Definition last_best (tmf : Z * Z * Z -> Q) (els : list (Z * Z * Z))
    (tm0 : Q) (reg0 : register) (tm : Q) (reg : register) : Prop :=
  (tm = tm0 /\ reg = reg0 /\ Forall (fun t => (tmf t < tm0)%Q) els)
  \/ (exists l1 t l2,
        els = l1 ++ t :: l2
        /\ peptides_of reg = t
        /\ tm = tmf t
        /\ (tm0 <= tm)%Q
        /\ Forall (fun t' => (tmf t' <= tm)%Q) l1
        /\ Forall (fun t' => (tmf t' < tm)%Q) l2).

(** What the best and the second-best slot hold after the registers [els]
    were compared with them in this order, with [tm0] and [reg0] in the
    best slot and [tm1] and [reg1] in the second-best slot before.  Either
    no register reached [tm0]: the best slot is as before, and the
    second-best slot is the slot that was compared with every register.
    Or the best slot holds the last register [t] with the largest Tm, as
    [last_best] says; the second-best slot then is the slot that was
    compared with every other register, in their order, from what the
    best slot held at first: the first register to take the best slot
    moved [tm0] and [reg0] into it, and every register that lost the best
    slot later was moved into it in its turn. *)
Definition best_two (tmf : Z * Z * Z -> Q) (els : list (Z * Z * Z))
    (tm0 : Q) (reg0 : register) (tm1 : Q) (reg1 : register)
    (tm : Q) (reg : register) (sec : Q) (secreg : register) : Prop :=
  (tm = tm0 /\ reg = reg0 /\ Forall (fun t => (tmf t < tm0)%Q) els
   /\ last_best tmf els tm1 reg1 sec secreg)
  \/ (exists l1 t l2,
        els = l1 ++ t :: l2
        /\ peptides_of reg = t
        /\ tm = tmf t
        /\ (tm0 <= tm)%Q
        /\ Forall (fun t' => (tmf t' <= tm)%Q) l1
        /\ Forall (fun t' => (tmf t' < tm)%Q) l2
        /\ last_best tmf (l1 ++ l2) tm0 reg0 sec secreg).

(** The two slots of a state of the loop: correct composition, and best. *)
Definition CC_slot (st : TripleHelix * locals) : Q * register :=
  (CCTm (fst st), CCRegister (fst st)).

Definition best_slot (st : TripleHelix * locals) : Q * register :=
  (maxTm (snd st), bestReg (snd st)).

Definition any_register (r : Z * Z * Z) : bool := true.

(** The values a block of the optimization loop gives its scalar [v]: after
    [-= delta], after the two [+= delta] that follow a rejected decrease,
    and after the [-= delta] that follows a rejected increase. *)
Definition lowered (v : Q) : Q := to_double (v - delta).

Definition raised (v : Q) : Q :=
  to_double (to_double (lowered v + delta) + delta).

Definition moved_back (v : Q) : Q := to_double (raised v - delta).

(** ** What [userOutput] decides (main.cpp 294-329) *)

(** "Deviation (Tm(predicted) - Tm(experimental))" is printed from the Tm
    of the correct composition. *)
Definition reported_deviation (h : TripleHelix) : Q := (CCTm h - expTm h)%Q.

(** Whether the line "WARNING: The most stable register/composition does
    not include all the peptides you input." is printed: the [else]
    branches of the two tests on [numPep]. *)
Definition composition_warning (h : TripleHelix) : bool :=
  let '(r0, r1, r2, _) := bestRegister h in
  let two :=
    if numPep h =? 2
    then if negb (r0 =? r1) || negb (r0 =? r2) || negb (r1 =? r2)
         then false else true
    else false in
  let three :=
    if numPep h =? 3
    then if negb (r0 =? r1) && negb (r0 =? r2) && negb (r1 =? r2)
         then false else true
    else false in
  two || three.

(** ** The choice of the parameters to optimize (main.cpp 1660-1684)

    [countInteractions] is a [parameterType] whose tables hold the counts
    of the training library. *)

Definition set_optPropX (v : Z -> bool) (p : parameterType) : parameterType :=
  mkParameters (axial p) (lateral p) (propensityX p) (propensityY p) (A p)
    (B p) (C p) (charge p) (Nterm_p p) (Cterm_p p) (optLength p) v
    (optPropY p) (optAxial p) (optLat p) (exAxial p) (exLateral p)
    (exPropensityX p) (exPropensityY p) (exA p) (exB p) (exC p) (exCharge p)
    (exNterm p) (exCterm p).

Definition set_optPropY (v : Z -> bool) (p : parameterType) : parameterType :=
  mkParameters (axial p) (lateral p) (propensityX p) (propensityY p) (A p)
    (B p) (C p) (charge p) (Nterm_p p) (Cterm_p p) (optLength p) (optPropX p)
    v (optAxial p) (optLat p) (exAxial p) (exLateral p)
    (exPropensityX p) (exPropensityY p) (exA p) (exB p) (exC p) (exCharge p)
    (exNterm p) (exCterm p).

Definition set_optAxial (v : Z -> Z -> bool) (p : parameterType) : parameterType :=
  mkParameters (axial p) (lateral p) (propensityX p) (propensityY p) (A p)
    (B p) (C p) (charge p) (Nterm_p p) (Cterm_p p) (optLength p) (optPropX p)
    (optPropY p) v (optLat p) (exAxial p) (exLateral p)
    (exPropensityX p) (exPropensityY p) (exA p) (exB p) (exC p) (exCharge p)
    (exNterm p) (exCterm p).

Definition set_optLat (v : Z -> Z -> bool) (p : parameterType) : parameterType :=
  mkParameters (axial p) (lateral p) (propensityX p) (propensityY p) (A p)
    (B p) (C p) (charge p) (Nterm_p p) (Cterm_p p) (optLength p) (optPropX p)
    (optPropY p) (optAxial p) v (exAxial p) (exLateral p)
    (exPropensityX p) (exPropensityY p) (exA p) (exB p) (exC p) (exCharge p)
    (exNterm p) (exCterm p).

(** "Set optimization by counts": the body of the loop over [x], for a
    row [y]. *)
Definition by_counts_cell (countInteractions : parameterType) (y : Z)
    (p : parameterType) (x : Z) : parameterType :=
  let p := if Qlt_bool 25 (lateral countInteractions y x)
           then set_optLat (store2 (optLat p) y x true) p else p in
  let p := if Qlt_bool 25 (axial countInteractions y x)
           then set_optAxial (store2 (optAxial p) y x true) p else p in
  p.

(** The body of the loop over [y]. *)
Definition by_counts_row (countInteractions : parameterType)
    (p : parameterType) (y : Z) : parameterType :=
  let p := if Qlt_bool 25 (propensityX countInteractions y)
           then set_optPropX (store1 (optPropX p) y true) p else p in
  let p := if Qlt_bool 25 (propensityY countInteractions y)
           then set_optPropY (store1 (optPropY p) y true) p else p in
  fold_left (by_counts_cell countInteractions y) (upto 27) p.

Definition set_optimization_by_counts (countInteractions p : parameterType)
    : parameterType :=
  fold_left (by_counts_row countInteractions) (upto 27) p.

(** "but force Xaa Pro ax & lat interactions to remain at 0. and Yaa Hyp
    ax & lat interactions to remain at 0." *)
Definition force_step (p : parameterType) (x : Z) : parameterType :=
  let P := residue "P" in
  let O := residue "O" in
  let p := set_optPropX (store1 (optPropX p) P false) p in
  let p := set_optPropY (store1 (optPropY p) O false) p in
  let p := set_optLat (store2 (optLat p) O x false) p in
  let p := set_optAxial (store2 (optAxial p) O x false) p in
  let p := set_optAxial (store2 (optAxial p) P x false) p in
  let p := set_optLat (store2 (optLat p) x P false) p in
  let p := set_optAxial (store2 (optAxial p) x P false) p in
  p.

Definition force_fixed (p : parameterType) : parameterType :=
  fold_left force_step (upto 27) p.

(** The two loops, one after the other. *)
Definition choose_optimized (countInteractions p : parameterType)
    : parameterType :=
  force_fixed (set_optimization_by_counts countInteractions p).

(** ** The low-confidence interactions of a user helix (main.cpp 2250-2317)

    [poorPrediction], [poorAxList] and [poorLatList].  The third axial and
    the third lateral test compare with [Library[n].numAA], where [n] is
    [TotalHelices]: the first element of the library that [readLibrary] did
    not fill. *)

Record confidence := mkConfidence {
  poorPrediction : Z;
  poorAxList : Z -> Z -> Z;
  poorLatList : Z -> Z -> Z
}.

(** [if (count[i][j] < lowConfidenceCut) { poorPrediction++; list[i][j]++; }]
    under its guard, for the two lists. *)
Definition note_axial (countInteractions : parameterType) (guard : bool)
    (i j : Z) (st : confidence) : confidence :=
  if guard && Qlt_bool (axial countInteractions i j) 25
  then mkConfidence (to_short (poorPrediction st + 1))
         (store2 (poorAxList st) i j (to_short (poorAxList st i j + 1)))
         (poorLatList st)
  else st.

Definition note_lateral (countInteractions : parameterType) (guard : bool)
    (i j : Z) (st : confidence) : confidence :=
  if guard && Qlt_bool (lateral countInteractions i j) 25
  then mkConfidence (to_short (poorPrediction st + 1))
         (poorAxList st)
         (store2 (poorLatList st) i j (to_short (poorLatList st i j + 1)))
  else st.

Section LowConfidence.

Variable countInteractions : parameterType.
Variables userHelix unread : TripleHelix.
Variables a b c : Z.

Definition confidence_step (st : confidence) (x : Z) : confidence :=
  let s := sequences userHelix in
  if isYaa userHelix x
  then
    let st := note_axial countInteractions (x + 2 <? numAA userHelix)
                (residue (s a x)) (residue (s b (x + 2))) st in
    let st := note_axial countInteractions (x + 2 <? numAA userHelix)
                (residue (s b x)) (residue (s c (x + 2))) st in
    let st := note_axial countInteractions (x + 5 <? numAA unread)
                (residue (s c x)) (residue (s a (x + 5))) st in
    let st := note_lateral countInteractions (x >? 1)
                (residue (s a x)) (residue (s b (x - 1))) st in
    let st := note_lateral countInteractions (x >? 1)
                (residue (s b x)) (residue (s c (x - 1))) st in
    let st := note_lateral countInteractions (x + 2 <? numAA unread)
                (residue (s c x)) (residue (s a (x + 2))) st in
    st
  else st.

(** The same loop body without the two tests of the third thread. *)
Definition confidence_step_two_threads (st : confidence) (x : Z) : confidence :=
  let s := sequences userHelix in
  if isYaa userHelix x
  then
    let st := note_axial countInteractions (x + 2 <? numAA userHelix)
                (residue (s a x)) (residue (s b (x + 2))) st in
    let st := note_axial countInteractions (x + 2 <? numAA userHelix)
                (residue (s b x)) (residue (s c (x + 2))) st in
    let st := note_lateral countInteractions (x >? 1)
                (residue (s a x)) (residue (s b (x - 1))) st in
    let st := note_lateral countInteractions (x >? 1)
                (residue (s b x)) (residue (s c (x - 1))) st in
    st
  else st.

End LowConfidence.

Definition no_confidence : confidence :=
  mkConfidence 0 (fun _ _ => 0) (fun _ _ => 0).

Definition low_confidence (countInteractions : parameterType)
    (userHelix unread : TripleHelix) : confidence :=
  fold_left
    (fun st r =>
       let '(a, b, c) := r in
       fold_left (confidence_step countInteractions userHelix unread a b c)
         (upto (numAA userHelix)) st)
    (registers (numPep userHelix)) no_confidence.

Definition low_confidence_two_threads (countInteractions : parameterType)
    (userHelix : TripleHelix) : confidence :=
  fold_left
    (fun st r =>
       let '(a, b, c) := r in
       fold_left (confidence_step_two_threads countInteractions userHelix a b c)
         (upto (numAA userHelix)) st)
    (registers (numPep userHelix)) no_confidence.

(** ** Further quantities the properties are stated with *)

(** The stabilizing part of a pair value, and the sum of the stabilizing
    parts of both threads over [n] sites from site [i] on. *)
Definition stabilizing (v : Q) : Q := if Qlt_bool 0 v then v else 0%Q.

Fixpoint stabilizing_total (XPW LPW : darray) (i : Z) (n : nat) : Q :=
  match n with
  | O => 0%Q
  | S n' =>
    (stabilizing (LPW i) + stabilizing (XPW i)
     + stabilizing_total XPW LPW (i + 1) n')%Q
  end.

(** The number of charged residues (K, R, E, D). *)
Definition charged (ch : ascii) : Z :=
  (if is_letter ch "K" || is_letter ch "R" then 1 else 0)
  + (if is_letter ch "E" || is_letter ch "D" then 1 else 0).

(** What the optimization loop reads and never writes, which is every
    field of the parameters but the four tables it tunes: the length
    coefficients, the charge and terminus parameters, the flags and all
    the experimental references. *)
Record same_settings (p p' : parameterType) : Prop := mkSettings {
  st_A : A p' = A p;
  st_B : B p' = B p;
  st_C : C p' = C p;
  st_charge : charge p' = charge p;
  st_Nterm : Nterm_p p' = Nterm_p p;
  st_Cterm : Cterm_p p' = Cterm_p p;
  st_optLength : optLength p' = optLength p;
  st_optPropX : optPropX p' = optPropX p;
  st_optPropY : optPropY p' = optPropY p;
  st_optAxial : optAxial p' = optAxial p;
  st_optLat : optLat p' = optLat p;
  st_exAxial : exAxial p' = exAxial p;
  st_exLateral : exLateral p' = exLateral p;
  st_exPropensityX : exPropensityX p' = exPropensityX p;
  st_exPropensityY : exPropensityY p' = exPropensityY p;
  st_exA : exA p' = exA p;
  st_exB : exB p' = exB p;
  st_exC : exC p' = exC p;
  st_exCharge : exCharge p' = exCharge p;
  st_exNterm : exNterm p' = exNterm p;
  st_exCterm : exCterm p' = exCterm p
}.

(** Four (Ala-Hyp-Gly)7 homotrimers that melt at 68 degrees, predicted at
    76 by an Xaa propensity of 4 for alanine, which is open to
    optimization; the loop about to start after the first scoring. *)
Local Open Scope string_scope.

Definition homotrimer_AOG_68 : TripleHelix :=
  fst (load_sample 1 21 "ac" "am" 68 ["AOGAOGAOGAOGAOGAOGAOG"] blank).

Local Close Scope string_scope.

Definition alanine_high_start : search :=
  let Lib := score_pass 4 alanine_tunable (fun _ => homotrimer_AOG_68) in
  mkSearch alanine_tunable Lib (sum_squared 4 Lib) false false false 0.

(** The indices a loop [for (i = 0; i < n; i++)] has visited. *)
Definition below (n i : Z) : bool := (0 <=? i) && (i <? n).

(** The scalars whose count the loops of "set optimization by counts" have
    looked at: the cell [(y, x)]; the cells of row [y] up to column [m];
    the rows up to [n] with their 27 columns. *)
Definition is_cell (y x : Z) (s : scalar) : bool :=
  match s with
  | AxialCell i j | LateralCell i j => (i =? y) && (j =? x)
  | _ => false
  end.

Definition in_cells (y m : Z) (s : scalar) : bool :=
  match s with
  | AxialCell i j | LateralCell i j => (i =? y) && below m j
  | _ => false
  end.

Definition is_row (y : Z) (s : scalar) : bool :=
  match s with
  | PropX i | PropY i => i =? y
  | AxialCell i j | LateralCell i j => (i =? y) && below 27 j
  end.

Definition in_rows (n : Z) (s : scalar) : bool :=
  match s with
  | PropX i | PropY i => below n i
  | AxialCell i j | LateralCell i j => below n i && below 27 j
  end.

(** The scalars that one iteration of the forcing loop switches off, and
    those switched off after the iterations up to [n]. *)
Definition cleared_at (x : Z) (s : scalar) : bool :=
  let P := residue "P" in
  let O := residue "O" in
  match s with
  | PropX i => i =? P
  | PropY i => i =? O
  | LateralCell i j => ((i =? O) && (j =? x)) || ((i =? x) && (j =? P))
  | AxialCell i j =>
    (((i =? O) || (i =? P)) && (j =? x)) || ((i =? x) && (j =? P))
  end.

Definition cleared_upto (n : Z) (s : scalar) : bool :=
  let P := residue "P" in
  let O := residue "O" in
  match s with
  | PropX i => (i =? P) && (0 <? n)
  | PropY i => (i =? O) && (0 <? n)
  | LateralCell i j => ((i =? O) && below n j) || (below n i && (j =? P))
  | AxialCell i j =>
    (((i =? O) || (i =? P)) && below n j) || (below n i && (j =? P))
  end.

(** The scalars of the tables of 27 entries, and among them those that
    are never optimized: the Xaa propensity of Pro, the Yaa propensity of
    Hyp, and the pair values with Hyp first or Pro second (for the axial
    ones also with Pro first). *)
Definition in_tables (s : scalar) : bool := in_rows 27 s.

Definition fixed_scalar (s : scalar) : bool := cleared_upto 27 s.

(** The best and the second best slot of the locals after the registers
    [scored] were compared with them, [tmf] being the Tm of a register:
    the second best is at most the best; every register is at most the
    best; every register but the recorded best one is at most the second
    best; the best slot still holds its sentinel, with every register
    below it, or it holds one of the registers at offset 0 with its Tm. *)
Definition top_two (tmf : Z * Z * Z -> Q) (scored : list (Z * Z * Z))
    (l : locals) : Prop :=
  (secondBestTm l <= maxTm l)%Q
  /\ (forall r, In r scored -> (tmf r <= maxTm l)%Q)
  /\ (forall a b c, In (a, b, c) scored -> bestReg l <> (a, b, c, 0) ->
                    (tmf (a, b, c) <= secondBestTm l)%Q)
  /\ ((bestReg l = (6, 6, 6, 11) /\ maxTm l = (-1000)%Q
       /\ forall r, In r scored -> (tmf r < -1000)%Q)
      \/ (exists a b c, In (a, b, c) scored /\ bestReg l = (a, b, c, 0)
                        /\ maxTm l = tmf (a, b, c))).

(** The parameters [p'] differ from [p] at most in the value of the
    scalar [s]. *)
Definition only_scalar (s : scalar) (p p' : parameterType) : Prop :=
  same_settings p p' /\ forall s', s' <> s -> value s' p' = value s' p.

(** Every entry of the two interaction threads satisfies [P]. *)
Definition threads_all (P : Q -> Prop) (l : locals) : Prop :=
  forall i, P (XinteractionThread l i) /\ P (LinteractionThread l i).

(** Every pair value of the two interaction tables satisfies [P]. *)
Definition pairs_all (P : Q -> Prop) (p : parameterType) : Prop :=
  forall i j, P (axial p i j) /\ P (lateral p i j).

(** The number of charged residues of the three peptides of a register. *)
Definition charged_at (a b c : Z) (h : TripleHelix) (x : Z) : Z :=
  charged (sequences h a x) + charged (sequences h b x)
  + charged (sequences h c x).

Definition total_charge_sum (h : TripleHelix) (a b c : Z) : Z :=
  fold_left (fun acc x => acc + charged_at a b c h x) (upto (numAA h)) 0.

(** The pair of a Yaa hydroxyproline with an Xaa proline, the only pair of
    (Pro-Hyp-Gly)7, destabilizing (axial -1, lateral -1/2) and stabilizing
    (axial 1, lateral 1/2). *)
Definition repelling_pairs : parameterType :=
  set_lateral (store2 (fun _ _ => 0%Q) 15 16 (- (1 # 2))%Q)
    (set_axial (store2 (fun _ _ => 0%Q) 15 16 (- 1)%Q) zero_parameters).

Definition attracting_pairs : parameterType :=
  set_lateral (store2 (fun _ _ => 0%Q) 15 16 (1 # 2)%Q)
    (set_axial (store2 (fun _ _ => 0%Q) 15 16 1%Q) zero_parameters).

(** * Properties *)

(** ** The interaction selector *)

(** The fuel of [PairWiseCalc] is enough: with more fuel the result is the
    same, so the recursion of the source ends with this result. *)
Lemma PairWiseCalc_fuel_enough :
  forall extra fuel XPW LPW currentPair lastPair previousPWType sum best,
    (Z.to_nat (lastPair - currentPair + 1) <= fuel)%nat ->
    Selector.PairWiseCalc_fuel (fuel + extra) XPW LPW currentPair lastPair
      previousPWType sum best
    = Selector.PairWiseCalc_fuel fuel XPW LPW currentPair lastPair
        previousPWType sum best.
Proof.
  intros extra fuel XPW LPW.
  induction fuel as [|fuel IH]; intros cur last prev sum best Hfuel.
  - assert (Hgt : (cur >? last) = true) by (apply Z.gtb_lt; lia).
    destruct extra; simpl; [reflexivity | now rewrite Hgt].
  - simpl.
    destruct (cur >? last) eqn:Hgt; [reflexivity|].
    assert (Hnext : (Z.to_nat (last - (cur + 1) + 1) <= fuel)%nat).
    { rewrite Z.gtb_ltb in Hgt. apply Z.ltb_ge in Hgt. lia. }
    rewrite !IH by exact Hnext.
    reflexivity.
Qed.

(** With a single site the no-pair branch returns at once: the result is
    the initial best, 0. *)
Lemma PairWiseCalc_single_site :
  forall XPW LPW, Selector.PairWiseCalc XPW LPW 0 0 9 0 0 = 0%Q.
Proof. intros. reflexivity. Qed.


Lemma Qlt_bool_true : forall x y, Qlt_bool x y = true -> (x < y)%Q.
Proof.
  unfold Qlt_bool. intros x y H. apply negb_true_iff in H.
  apply Qnot_le_lt. intro Hle. apply Qle_bool_iff in Hle. congruence.
Qed.

Lemma Qlt_bool_false : forall x y, Qlt_bool x y = false -> (y <= x)%Q.
Proof.
  unfold Qlt_bool. intros x y H. apply negb_false_iff in H.
  now apply Qle_bool_iff.
Qed.

(** The call of [ScoreHelix] for one real site, [lastPair = 1] with an
    unused entry behind it: the result is the sum of the two stabilizing
    values of the site, not the larger of them. *)
Lemma PairWiseCalc_one_site_as_called :
  forall XPW LPW : darray,
    Qle (LPW 1) 0 ->
    Qeq (Selector.PairWiseCalc XPW LPW 0 1 9 0 0)
      (Selector.add_stabilizing (Selector.add_stabilizing 0 (LPW 0)) (XPW 0)).
Proof.
  intros XPW LPW H1. unfold Selector.PairWiseCalc.
  change (Z.to_nat (1 - 0 + 1)) with 2%nat. cbn.
  unfold Selector.add_stabilizing, Selector.record_best.
  destruct (Qlt_bool 0 (LPW 1)) eqn:E1;
    [apply Qlt_bool_true in E1; lra|].
  destruct (Qlt_bool 0 (LPW 0)) eqn:EL; destruct (Qlt_bool 0 (XPW 0)) eqn:EX;
    repeat match goal with
    | |- context [Qlt_bool ?x ?y] =>
        let E := fresh "E" in destruct (Qlt_bool x y) eqn:E
    end;
    repeat match goal with
    | H : Qlt_bool _ _ = true |- _ => apply Qlt_bool_true in H
    | H : Qlt_bool _ _ = false |- _ => apply Qlt_bool_false in H
    end; lra.
Qed.

(** ** Phase detection *)

Lemma upto_nonneg : forall n x, In x (upto n) -> 0 <= x.
Proof.
  unfold upto. intros n x Hin. apply in_map_iff in Hin.
  destruct Hin as [k [<- _]]. lia.
Qed.

Lemma upto_bound : forall n x, In x (upto n) -> 0 <= x < n.
Proof.
  unfold upto. intros n x Hin. apply in_map_iff in Hin.
  destruct Hin as [k [<- Hk]]. apply in_seq in Hk. lia.
Qed.

Lemma upto_complete : forall n x, 0 <= x < n -> In x (upto n).
Proof.
  unfold upto. intros n x Hx. apply in_map_iff.
  exists (Z.to_nat x). split; [lia|]. apply in_seq. lia.
Qed.

Lemma upto_NoDup : forall n, NoDup (upto n).
Proof.
  intro n. unfold upto. apply Injective_map_NoDup.
  - intros i j Hij. lia.
  - apply seq_NoDup.
Qed.


Lemma count_step_tracks :
  forall h xs cnt,
    (forall x, In x xs -> 0 <= x) ->
    fold_left (count_step h) xs cnt
    = (fst (fst cnt) + glycines_on h 0 xs,
       snd (fst cnt) + glycines_on h 1 xs,
       snd cnt + glycines_on h 2 xs).
Proof.
  intros h xs. induction xs as [|x xs IH]; intros [[xc yc] zc] Hpos.
  - unfold glycines_on. simpl. rewrite !pair_equal_spec. repeat split; lia.
  - simpl fold_left. rewrite IH by (intros; apply Hpos; now right).
    assert (Hx : 0 <= x) by (apply Hpos; now left).
    unfold count_step, glycines_on. simpl filter.
    rewrite Z.rem_mod_nonneg by lia.
    assert (Hm : 0 <= x mod 3 < 3) by (apply Z.mod_pos_bound; lia).
    destruct (Ascii.eqb (sequences h 0 x) "G");
      rewrite ?andb_true_r, ?andb_false_r; simpl fst; simpl snd.
    + destruct (Z.eqb_spec (x mod 3) 0) as [E0|E0];
        destruct (Z.eqb_spec (x mod 3) 1) as [E1|E1];
        destruct (Z.eqb_spec (x mod 3) 2) as [E2|E2];
        try lia; simpl List.length;
        rewrite !pair_equal_spec; repeat split; lia.
    + destruct (x mod 3 =? 0), (x mod 3 =? 1), (x mod 3 =? 2); reflexivity.
Qed.

Lemma gly_counts_tracks :
  forall h,
    gly_counts h
    = (track_glycines h 0, track_glycines h 1, track_glycines h 2).
Proof.
  intro h. unfold gly_counts.
  rewrite count_step_tracks by apply upto_nonneg.
  reflexivity.
Qed.

(** C4, as the code has it: the threshold is the integer quotient
    numAA / 3.  Track 2 gives phase 0, else track 1 gives phase 2, else
    track 0 gives phase 1; when no track reaches the threshold the phase
    keeps its prior value and the diagnostic is printed. *)
Theorem C4_phase_detection_threshold :
  forall h,
    let t := Z.quot (numAA h) 3 in
    let g := track_glycines h in
    XaaPos (fst (determine_reptition h))
    = (if g 2 >=? t then 0
       else if g 1 >=? t then 2
       else if g 0 >=? t then 1
       else XaaPos h)
    /\ snd (determine_reptition h)
       = negb ((g 0 >=? t) || (g 1 >=? t) || (g 2 >=? t)).
Proof.
  intros h t g. subst t g. unfold determine_reptition.
  rewrite gly_counts_tracks.
  destruct (track_glycines h 0 >=? Z.quot (numAA h) 3); cbn [numAA set_XaaPos];
    destruct (track_glycines h 1 >=? Z.quot (numAA h) 3);
    cbn [numAA set_XaaPos];
    destruct (track_glycines h 2 >=? Z.quot (numAA h) 3);
    cbn; split; reflexivity.
Qed.

(** C4 as stated fails: with 22 residues and seven glycines on track 0 the
    phase is set from that track, although seven is below the ceiling of
    22 / 3. *)
Lemma C4_counterexample_ceiling :
  track_glycines seven_glycines 0 = 7
  /\ 7 < ceil_third (numAA seven_glycines)
  /\ XaaPos seven_glycines = 7
  /\ XaaPos (fst (determine_reptition seven_glycines)) = 1
  /\ snd (determine_reptition seven_glycines) = false.
Proof. vm_compute. repeat split; reflexivity. Qed.


(** ** Frames of the scorer

    Each statement of the loop body of [ScoreHelix] writes one cell of one
    table of the sample.  [frame] records what a piece of the body leaves
    alone: the data of the sample, the correct-composition slot, and the
    tables, either wholly (mask [false]) or outside the cell (mask
    [true]). *)

Section Frames.

Variables a b c d : Z.

Local Abbreviation off_cell := (off_cell a b c d).
Local Abbreviation kept := (kept a b c d).
Local Abbreviation frame := (frame a b c d).



Lemma kept_refl : forall V m (g : grid V), kept m g g.
Proof. intros V [|] g; [intros ? ? ? ? _|]; reflexivity. Qed.

Lemma kept_trans :
  forall V m (g1 g2 g3 : grid V), kept m g1 g2 -> kept m g2 g3 -> kept m g1 g3.
Proof.
  intros V [|] g1 g2 g3 H12 H23; simpl in *.
  - intros a' b' c' d' Hne. rewrite H23, H12 by exact Hne. reflexivity.
  - congruence.
Qed.

Lemma kept_off_cell :
  forall V m (g g' : grid V), kept m g g' -> off_cell g g'.
Proof.
  intros V [|] g g' H; [exact H|]. simpl in H. subst g'.
  intros ? ? ? ? _. reflexivity.
Qed.

Lemma gstore_same :
  forall V (g : grid V) v, gstore g a b c d v a b c d = v.
Proof. intros. unfold gstore. now rewrite !Z.eqb_refl. Qed.

Lemma gstore_other :
  forall V (g : grid V) v a' b' c' d',
    (a', b', c', d') <> (a, b, c, d) ->
    gstore g a b c d v a' b' c' d' = g a' b' c' d'.
Proof.
  intros V g v a' b' c' d' Hne. unfold gstore.
  destruct (Z.eqb_spec a' a), (Z.eqb_spec b' b), (Z.eqb_spec c' c),
    (Z.eqb_spec d' d); simpl; try reflexivity.
  subst. now contradiction Hne.
Qed.

Lemma kept_gstore :
  forall V (g : grid V) v, kept true g (gstore g a b c d v).
Proof. intros V g v a' b' c' d' Hne. now apply gstore_other. Qed.


Lemma frame_refl : forall mC mP mW mN mT mM h, frame mC mP mW mN mT mM h h.
Proof. intros. constructor; try reflexivity; auto using kept_refl. Qed.

Lemma frame_trans :
  forall mC mP mW mN mT mM h1 h2 h3,
    frame mC mP mW mN mT mM h1 h2 -> frame mC mP mW mN mT mM h2 h3 ->
    frame mC mP mW mN mT mM h1 h3.
Proof.
  intros mC mP mW mN mT mM h1 h2 h3 [] [].
  constructor; try congruence; try (eapply kept_trans; eassumption).
  intro E. destruct (fr_CC0 E), (fr_CC1 E). split; congruence.
Qed.

Lemma frame_if :
  forall mC mP mW mN mT mM (t : bool) (f : TripleHelix -> TripleHelix) h,
    frame mC mP mW mN mT mM h (f h) ->
    frame mC mP mW mN mT mM h (if t then f h else h).
Proof. intros. destruct t; [assumption | apply frame_refl]. Qed.

Lemma frame_fold :
  forall mC mP mW mN mT mM X (f : TripleHelix -> X -> TripleHelix) xs h,
    (forall h x, frame mC mP mW mN mT mM h (f h x)) ->
    frame mC mP mW mN mT mM h (fold_left f xs h).
Proof.
  intros mC mP mW mN mT mM X f xs. induction xs as [|x xs IH]; intros h Hf.
  - apply frame_refl.
  - simpl. eapply frame_trans; [apply Hf | apply IH, Hf].
Qed.

Ltac frame_primitive :=
  intros; constructor; cbn; try reflexivity; auto;
  try apply kept_refl; apply kept_gstore.

Lemma frame_add_Propensity :
  forall mC mW mN mT mM v h,
    frame mC true mW mN mT mM h (add_Propensity a b c d v h).
Proof. frame_primitive. Qed.

Lemma frame_sub_Propensity :
  forall mC mW mN mT mM v h,
    frame mC true mW mN mT mM h (sub_Propensity a b c d v h).
Proof. frame_primitive. Qed.

Lemma frame_set_length :
  forall mC (p : parameterType) mW mN mT mM tr h,
    frame mC true mW mN mT mM h (set_length p a b c d tr h).
Proof. frame_primitive. Qed.

Lemma frame_add_PairWise :
  forall mC mP mN mT mM v h,
    frame mC mP true mN mT mM h (add_PairWise a b c d v h).
Proof. frame_primitive. Qed.

Lemma frame_bump_netCharge :
  forall mC mP mW mT mM k h,
    frame mC mP mW true mT mM h (bump_netCharge a b c d k h).
Proof. frame_primitive. Qed.

Lemma frame_bump_totalCharge :
  forall mC mP mW mN mM h,
    frame mC mP mW mN true mM h (bump_totalCharge a b c d h).
Proof. frame_primitive. Qed.

Lemma frame_set_Tm_cell :
  forall mC mP mW mN mT h,
    frame mC mP mW mN mT true h (set_Tm_cell a b c d h).
Proof. frame_primitive. Qed.

Ltac frame_walk :=
  repeat first
    [ apply frame_refl
    | apply frame_add_Propensity
    | apply frame_sub_Propensity
    | apply frame_set_length
    | apply frame_add_PairWise
    | apply frame_bump_netCharge
    | apply frame_bump_totalCharge
    | apply frame_set_Tm_cell
    | lazymatch goal with
      | |- frame ?mC ?mP ?mW ?mN ?mT ?mM ?h (let x := ?e in @?body x) =>
          lazymatch type of e with
          | TripleHelix =>
              apply (frame_trans mC mP mW mN mT mM h e (body e));
              [ | generalize e; intro; cbv beta ]
          | _ => change (frame mC mP mW mN mT mM h (body e)); cbv beta
          end
      | |- frame _ _ _ _ _ _ _ (if ?t then _ else _) => destruct t
      | |- frame _ _ _ _ _ _ _ (add_Propensity _ _ _ _ _ ?h1) =>
          apply frame_trans with (h2 := h1)
      | |- frame _ _ _ _ _ _ _ (sub_Propensity _ _ _ _ _ ?h1) =>
          apply frame_trans with (h2 := h1)
      | |- frame _ _ _ _ _ _ _ (add_PairWise _ _ _ _ _ ?h1) =>
          apply frame_trans with (h2 := h1)
      | |- frame _ _ _ _ _ _ _ (bump_netCharge _ _ _ _ _ ?h1) =>
          apply frame_trans with (h2 := h1)
      | |- frame _ _ _ _ _ _ _ (bump_totalCharge _ _ _ _ ?h1) =>
          apply frame_trans with (h2 := h1)
      end ].

Lemma frame_termination :
  forall mC mW mN mT mM tr h,
    frame mC true mW mN mT mM h (termination a b c d tr h).
Proof. intros. cbv beta delta [termination]. frame_walk. Qed.

Lemma frame_count_charge :
  forall mC mP mW mM ch h,
    frame mC mP mW true true mM h (count_charge a b c d ch h).
Proof. intros. cbv beta delta [count_charge]. frame_walk. Qed.

Lemma frame_residue_propensity :
  forall mC p mW mN mT mM tr tip x k h,
    frame mC true mW mN mT mM h (residue_propensity p a b c d tr tip x k h).
Proof. intros. cbv beta delta [residue_propensity]. frame_walk. Qed.

Lemma frame_single_AA_step :
  forall mC p mW mM tr h x,
    frame mC true mW true true mM h (single_AA_step p a b c d tr h x).
Proof.
  intros. cbv beta delta [single_AA_step].
  repeat first
    [ apply frame_count_charge
    | apply frame_residue_propensity
    | apply frame_refl
    | lazymatch goal with
      | |- frame ?mC ?mP ?mW ?mN ?mT ?mM ?h (let x := ?e in @?body x) =>
          lazymatch type of e with
          | TripleHelix =>
              apply (frame_trans mC mP mW mN mT mM h e (body e));
              [ | generalize e; intro; cbv beta ]
          | _ => change (frame mC mP mW mN mT mM h (body e)); cbv beta
          end
      end ].
Qed.

Lemma frame_single_AA_score :
  forall mC p mW mM tr h,
    frame mC true mW true true mM h (single_AA_score p a b c d tr h).
Proof.
  intros. unfold single_AA_score. apply frame_fold.
  intros. apply frame_single_AA_step.
Qed.

Lemma frame_charge_scoring :
  forall mC mW mN mT mM h,
    frame mC true mW mN mT mM h (charge_scoring a b c d h).
Proof. intros. cbv beta delta [charge_scoring]. frame_walk. Qed.

Lemma frame_destabilizing_step :
  forall mC mP mN mT mM l h x,
    frame mC mP true mN mT mM h (destabilizing_step a b c d l h x).
Proof. intros. cbv beta delta [destabilizing_step]. frame_walk. Qed.

Lemma frame_force_destabilizing :
  forall mC mP mN mT mM n l h,
    frame mC mP true mN mT mM h (force_destabilizing a b c d n l h).
Proof.
  intros. unfold force_destabilizing. apply frame_fold.
  intros. apply frame_destabilizing_step.
Qed.

Lemma frame_store_PairWise :
  forall mC mP mN mT mM v h,
    frame mC mP true mN mT mM h
      (set_PairWise (gstore (PairWise h) a b c d v) h).
Proof. frame_primitive. Qed.

Lemma frame_set_pairwise :
  forall mC p mP mN mT mM n tr h l,
    frame mC mP true mN mT mM h (fst (set_pairwise p a b c d n tr (h, l))).
Proof.
  intros. unfold set_pairwise. cbv zeta. cbn [fst].
  repeat first
    [ apply frame_force_destabilizing
    | apply frame_add_PairWise
    | apply frame_store_PairWise
    | lazymatch goal with
      | |- frame _ _ _ _ _ _ ?h (force_destabilizing _ _ _ _ _ _ ?h1) =>
          apply frame_trans with (h2 := h1)
      | |- frame _ _ _ _ _ _ ?h (add_PairWise _ _ _ _ _ ?h1) =>
          apply frame_trans with (h2 := h1)
      end ].
Qed.

End Frames.


(** ** The propensity of one register *)

Lemma trim_sequences :
  forall h a b c k y,
    sequences (trim_canonical h a b c) k y = sequences h k y.
Proof.
  intros. unfold trim_canonical, copy_row. cbn.
  repeat match goal with
  | |- context [if (?k' =? ?k0) && ?t1 && ?t2 then _ else _] =>
      destruct (Z.eqb_spec k' k0); [subst|]; cbn [andb];
      [destruct (t1 && t2)|]
  end; reflexivity.
Qed.

Lemma trim_isXaa : forall h a b c x, isXaa (trim_canonical h a b c) x = isXaa h x.
Proof. reflexivity. Qed.

Lemma trim_isYaa : forall h a b c x, isYaa (trim_canonical h a b c) x = isYaa h x.
Proof. reflexivity. Qed.

Lemma trim_isGly : forall h a b c x, isGly (trim_canonical h a b c) x = isGly h x.
Proof. reflexivity. Qed.

Lemma trim_all_three :
  forall h a b c x l,
    all_three a b c (trim_canonical h a b c) x l = all_three a b c h x l.
Proof. intros. unfold all_three. now rewrite !trim_sequences. Qed.

Lemma Xaa_not_Yaa : forall h x, isXaa h x = true -> isYaa h x = false.
Proof.
  unfold isXaa, isYaa. intros h x H. apply Z.eqb_eq in H. rewrite H.
  reflexivity.
Qed.

Section Cell.

Variable p : parameterType.
Variables a b c d : Z.

Local Abbreviation cell_is := (cell_is a b c d).
Local Abbreviation weighted_step := (weighted_step p a b c).


Lemma cell_is_sub_when :
  forall v n t w h,
    cell_is v n h ->
    cell_is (v - when t w) n (if t then sub_Propensity a b c d w h else h).
Proof.
  intros v n t w h [Hv Hn]. destruct t; split; cbn; try exact Hn.
  - rewrite gstore_same, Hv. reflexivity.
  - rewrite Hv. unfold when. ring.
Qed.

Lemma cell_is_add_when :
  forall v n t w h,
    cell_is v n h ->
    cell_is (v + when t w) n (if t then add_Propensity a b c d w h else h).
Proof.
  intros v n t w h [Hv Hn]. destruct t; split; cbn; try exact Hn.
  - rewrite gstore_same, Hv. reflexivity.
  - rewrite Hv. unfold when. ring.
Qed.

Lemma cell_is_let :
  forall v1 v n (e : TripleHelix) (body : TripleHelix -> TripleHelix),
    cell_is v1 n e ->
    (forall h1, cell_is v1 n h1 -> cell_is v n (body h1)) ->
    cell_is v n (let x := e in body x).
Proof. intros v1 v n e body He Hb. apply Hb, He. Qed.

Lemma cell_is_eq :
  forall v v' n h, cell_is v n h -> (v == v')%Q -> cell_is v' n h.
Proof. intros v v' n h [Hv Hn] E. split; [now rewrite Hv | exact Hn]. Qed.

(** Length and ends: the propensity before the residues are summed. *)
Lemma termination_value :
  forall h,
    cell_is (terminal_terms p h a b c) (numAA h)
      (termination a b c d (trim_canonical h a b c)
         (set_length p a b c d (trim_canonical h a b c) h)).
Proof.
  intro h.
  assert (H0 : cell_is (length_basis p h) (numAA h)
                 (set_length p a b c d (trim_canonical h a b c) h)).
  { split; [|reflexivity]. cbn. rewrite gstore_same. reflexivity. }
  revert H0. generalize (set_length p a b c d (trim_canonical h a b c) h).
  intros h0 H0. cbv beta delta [termination].
  rewrite !trim_all_three, trim_isXaa.
  change (Nterm (trim_canonical h a b c)) with (Nterm h).
  change (Cterm (trim_canonical h a b c)) with (Cterm h).
  change (numAA (trim_canonical h a b c)) with (numAA h).
  repeat (lazymatch goal with
          | |- cell_is ?v ?n (let x := ?e in @?body x) =>
              eapply (cell_is_let _ v n e body)
          end;
          [ first [ apply cell_is_sub_when | apply cell_is_add_when ];
            eassumption
          | let h1 := fresh "h" in
            let H1 := fresh "H" in
            intros h1 H1; cbv beta; rewrite ?(proj2 H1) ]).
  eapply cell_is_eq; [eassumption|].
  unfold terminal_terms. rewrite trim_isGly. reflexivity.
Qed.


Lemma role_propensity_trim :
  forall h a' b' c' k x,
    role_propensity p (trim_canonical h a' b' c') k x = role_propensity p h k x.
Proof.
  intros. unfold role_propensity.
  now rewrite trim_sequences, trim_isXaa, trim_isYaa.
Qed.

Lemma residue_propensity_value :
  forall v n tr (tip : bool) x k h,
    cell_is v n h ->
    cell_is (v + (if tip then 1 # 3 else 1) * role_propensity p tr k x)%Q n
      (residue_propensity p a b c d tr tip x k h).
Proof.
  intros v n tr tip x k h [Hv Hn].
  unfold residue_propensity, role_propensity. cbv zeta.
  destruct (isXaa tr x) eqn:EX.
  - rewrite (Xaa_not_Yaa _ _ EX).
    destruct tip; split; cbn; try exact Hn;
      rewrite gstore_same, Hv; field.
  - destruct (isYaa tr x); destruct tip; split; cbn; try exact Hn;
      rewrite ?gstore_same, Hv; field.
Qed.

Lemma count_charge_cell :
  forall v n ch h, cell_is v n h -> cell_is v n (count_charge a b c d ch h).
Proof.
  intros v n ch h [Hv Hn].
  destruct (frame_count_charge a b c d false false false false ch h)
    as [_ HnA _ _ _ _ _ _ HP _ _ _ _].
  simpl in HP. split; [rewrite HP; exact Hv | congruence].
Qed.

Lemma tip_weight_test :
  forall n x,
    (if negb ((x >? 2) && (x <? n - 2)) then 1 # 3 else 1)%Q = tip_weight n x.
Proof.
  intros n x. unfold tip_weight.
  destruct (Z.gtb_spec x 2), (Z.ltb_spec x (n - 2)), (Z.leb_spec 3 x),
    (Z.leb_spec x (n - 3)); cbn; try reflexivity; lia.
Qed.


Lemma single_AA_step_value :
  forall v n h0 a' b' c' h x,
    cell_is v n h ->
    cell_is (weighted_step (tip_weight n) h0 v x) n
      (single_AA_step p a b c d (trim_canonical h0 a' b' c') h x).
Proof.
  intros v n h0 a' b' c' h x H.
  cbv beta delta [single_AA_step].
  do 3 (lazymatch goal with
        | |- cell_is ?w ?m (let y := ?e in @?body y) =>
            eapply (cell_is_let _ w m e body);
            [ apply count_charge_cell; eassumption
            | let h1 := fresh "h" in
              let H1 := fresh "H" in
              intros h1 H1; cbv beta ]
        end).
  cbv zeta. rewrite (proj2 H2).
  eapply cell_is_eq.
  - do 3 apply residue_propensity_value. eassumption.
  - rewrite !role_propensity_trim, tip_weight_test.
    unfold weighted_step. ring.
Qed.

Lemma single_AA_score_value :
  forall h0 a' b' c' xs v n h,
    cell_is v n h ->
    cell_is (fold_left (weighted_step (tip_weight n) h0) xs v) n
      (fold_left (single_AA_step p a b c d (trim_canonical h0 a' b' c')) xs h).
Proof.
  intros h0 a' b' c' xs. induction xs as [|x xs IH]; intros v n h H.
  - exact H.
  - simpl. apply IH. now apply single_AA_step_value.
Qed.

Lemma weighted_sum_from :
  forall w h xs v,
    (fold_left (weighted_step w h) xs v
     == v + fold_left (weighted_step w h) xs 0)%Q.
Proof.
  intros w h xs. induction xs as [|x xs IH]; intro v; simpl.
  - ring.
  - rewrite IH. rewrite (IH (weighted_step w h 0 x)).
    unfold weighted_step. ring.
Qed.

Lemma charge_scoring_value :
  forall v n h,
    cell_is v n h ->
    cell_is (v - charge_penalty (netCharge h a b c d))%Q n
      (charge_scoring a b c d h).
Proof.
  intros v n h [Hv Hn]. unfold charge_scoring, charge_penalty.
  destruct (Z.abs (netCharge h a b c d) >? 6); split; cbn; try exact Hn.
  - rewrite gstore_same, Hv. reflexivity.
  - rewrite Hv. ring.
Qed.

End Cell.


(** ** One register *)

Section Register.

Variable p : parameterType.
Variables a b c d : Z.
Variable numYaa : Z.

Local Abbreviation before_pairwise := (before_pairwise p a b c d).


Lemma score_register_fst :
  forall h l,
    fst (score_register p a b c d numYaa (h, l))
    = set_Tm_cell a b c d
        (fst (set_pairwise p a b c d numYaa (trim_canonical h a b c)
                (before_pairwise h, l))).
Proof.
  intros h l. unfold score_register, before_pairwise. cbv zeta.
  destruct (set_pairwise _ _ _ _ _ _ _ _). reflexivity.
Qed.

Lemma frame_before_pairwise :
  forall mC mW mM h,
    frame a b c d mC true mW true true mM h (before_pairwise h).
Proof.
  intros. unfold before_pairwise. cbv zeta.
  eapply frame_trans; [|apply frame_charge_scoring].
  eapply frame_trans; [|apply frame_single_AA_score].
  eapply frame_trans; [|apply frame_termination].
  apply frame_set_length.
Qed.

Lemma frame_score_register :
  forall mC h l,
    frame a b c d mC true true true true true h
      (fst (score_register p a b c d numYaa (h, l))).
Proof.
  intros. rewrite score_register_fst.
  eapply frame_trans; [|apply frame_set_Tm_cell].
  eapply frame_trans; [|apply frame_set_pairwise].
  apply frame_before_pairwise.
Qed.

Lemma frame_remember_CC :
  forall mP mW mN mT mM h,
    frame a b c d true mP mW mN mT mM h (remember_CC a b c d h).
Proof.
  intros. cbv beta delta [remember_CC].
  repeat lazymatch goal with
  | |- frame _ _ _ _ ?mC ?mP ?mW ?mN ?mT ?mM ?h (let x := ?e in @?body x) =>
      apply (frame_trans a b c d mC mP mW mN mT mM h e (body e));
      [ | generalize e; intro; cbv beta ]
  | |- frame _ _ _ _ _ _ _ _ _ _ _ (if ?t then _ else _) => destruct t
  | |- _ => first [ apply frame_refl
                  | constructor; cbn; try reflexivity;
                    try apply kept_refl; discriminate ]
  end.
Qed.

Lemma frame_register_body :
  forall st,
    frame a b c d true true true true true true (fst st)
      (fst (register_body p a b c d numYaa st)).
Proof.
  intros [h l]. unfold register_body.
  pose proof (frame_score_register true h l) as F.
  destruct (score_register p a b c d numYaa (h, l)) as [h1 l1].
  cbn [fst] in *.
  eapply frame_trans; [exact F | apply frame_remember_CC].
Qed.

(** The threads are the only locals a register changes before its Tm is
    compared. *)
Lemma fill_threads_maxTm :
  forall isY n Xv Lv l, maxTm (fill_threads isY n Xv Lv l) = maxTm l.
Proof.
  intros. unfold fill_threads.
  destruct (fold_left _ _ _) as [[i Xs] Ls]. reflexivity.
Qed.

Lemma fill_threads_secondBestTm :
  forall isY n Xv Lv l,
    secondBestTm (fill_threads isY n Xv Lv l) = secondBestTm l.
Proof.
  intros. unfold fill_threads.
  destruct (fold_left _ _ _) as [[i Xs] Ls]. reflexivity.
Qed.

Lemma fill_threads_bestReg :
  forall isY n Xv Lv l, bestReg (fill_threads isY n Xv Lv l) = bestReg l.
Proof.
  intros. unfold fill_threads.
  destruct (fold_left _ _ _) as [[i Xs] Ls]. reflexivity.
Qed.

Lemma fill_threads_secondBestReg :
  forall isY n Xv Lv l,
    secondBestReg (fill_threads isY n Xv Lv l) = secondBestReg l.
Proof.
  intros. unfold fill_threads.
  destruct (fold_left _ _ _) as [[i Xs] Ls]. reflexivity.
Qed.

Lemma score_register_slots :
  forall h l,
    let l' := snd (score_register p a b c d numYaa (h, l)) in
    maxTm l' = maxTm l /\ secondBestTm l' = secondBestTm l
    /\ bestReg l' = bestReg l /\ secondBestReg l' = secondBestReg l.
Proof.
  intros h l. unfold score_register. cbv zeta.
  generalize (charge_scoring a b c d
    (single_AA_score p a b c d (trim_canonical h a b c)
       (termination a b c d (trim_canonical h a b c)
          (set_length p a b c d (trim_canonical h a b c) h)))).
  intro h4. unfold set_pairwise. cbv zeta. cbn [snd].
  repeat split.
  - do 3 (etransitivity; [apply fill_threads_maxTm|]). reflexivity.
  - do 3 (etransitivity; [apply fill_threads_secondBestTm|]). reflexivity.
  - do 3 (etransitivity; [apply fill_threads_bestReg|]). reflexivity.
  - do 3 (etransitivity; [apply fill_threads_secondBestReg|]). reflexivity.
Qed.

Lemma set_pairwise_Propensity :
  forall tr h l,
    Propensity (fst (set_pairwise p a b c d numYaa tr (h, l))) = Propensity h.
Proof.
  intros.
  exact (fr_Propensity _ _ _ _ _ _ _ _ _ _ _ _
           (frame_set_pairwise a b c d false p false false false false
              numYaa tr h l)).
Qed.

Lemma set_pairwise_netCharge :
  forall tr h l,
    netCharge (fst (set_pairwise p a b c d numYaa tr (h, l))) = netCharge h.
Proof.
  intros.
  exact (fr_netCharge _ _ _ _ _ _ _ _ _ _ _ _
           (frame_set_pairwise a b c d false p false false false false
              numYaa tr h l)).
Qed.

Lemma charge_scoring_netCharge :
  forall h, netCharge (charge_scoring a b c d h) = netCharge h.
Proof.
  intros.
  exact (fr_netCharge _ _ _ _ _ _ _ _ _ _ _ _
           (frame_charge_scoring a b c d false false false false false h)).
Qed.

(** The propensity of a register when the pairwise terms are about to be
    computed: length and ends, the weighted residues, less the charge
    penalty. *)
Lemma before_pairwise_Propensity :
  forall h,
    (Propensity (before_pairwise h) a b c d
     == terminal_terms p h a b c
        + residue_sum (tip_weight (numAA h)) p h a b c
        - charge_penalty (netCharge (before_pairwise h) a b c d))%Q.
Proof.
  intro h. unfold before_pairwise. cbv zeta.
  rewrite charge_scoring_netCharge.
  pose proof (termination_value p a b c d h) as H2.
  revert H2.
  generalize (termination a b c d (trim_canonical h a b c)
                (set_length p a b c d (trim_canonical h a b c) h)).
  intros h2 H2.
  unfold single_AA_score. rewrite (proj2 H2).
  pose proof (single_AA_score_value p a b c d h a b c (upto (numAA h))
                _ _ h2 H2) as H3.
  revert H3.
  generalize (fold_left (single_AA_step p a b c d (trim_canonical h a b c))
                (upto (numAA h)) h2).
  intros h3 H3.
  destruct (charge_scoring_value a b c d _ _ h3 H3) as [H4 _].
  rewrite H4, weighted_sum_from.
  unfold residue_sum, weighted_step. ring.
Qed.

Lemma score_register_Propensity :
  forall h l,
    let h' := fst (score_register p a b c d numYaa (h, l)) in
    (Propensity h' a b c d
     == terminal_terms p h a b c
        + residue_sum (tip_weight (numAA h)) p h a b c
        - charge_penalty (netCharge h' a b c d))%Q.
Proof.
  intros h l h'. subst h'. rewrite score_register_fst.
  change (Propensity (set_Tm_cell a b c d ?x)) with (Propensity x).
  change (netCharge (set_Tm_cell a b c d ?x)) with (netCharge x).
  rewrite set_pairwise_Propensity, set_pairwise_netCharge.
  apply before_pairwise_Propensity.
Qed.

End Register.


(** ** The loop over the registers *)


Lemma same_sample_refl : forall h, same_sample h h.
Proof. intro h. constructor; reflexivity. Qed.

Lemma same_sample_trans :
  forall h1 h2 h3, same_sample h1 h2 -> same_sample h2 h3 -> same_sample h1 h3.
Proof. intros h1 h2 h3 [] []. constructor; congruence. Qed.

Lemma frame_same_sample :
  forall a b c d mC mP mW mN mT mM h h',
    frame a b c d mC mP mW mN mT mM h h' -> same_sample h h'.
Proof. intros until h'. intros []. constructor; assumption. Qed.

Lemma terminal_terms_same :
  forall p h h' a b c,
    same_sample h h' -> terminal_terms p h' a b c = terminal_terms p h a b c.
Proof.
  intros p h h' a b c [_ Hn Hs HN HC HX _].
  unfold terminal_terms, length_basis, all_three, isXaa, isGly.
  now rewrite Hn, Hs, HN, HC, HX.
Qed.

Lemma residue_sum_same :
  forall w p h h' a b c,
    same_sample h h' -> residue_sum w p h' a b c = residue_sum w p h a b c.
Proof.
  intros w p h h' a b c [_ Hn Hs _ _ HX _].
  unfold residue_sum, role_propensity, isXaa, isYaa.
  now rewrite Hn, Hs, HX.
Qed.

Lemma net_charge_sum_same :
  forall h h' a b c,
    same_sample h h' -> net_charge_sum h' a b c = net_charge_sum h a b c.
Proof.
  intros h h' a b c [_ Hn Hs _ _ _ _].
  unfold net_charge_sum. now rewrite Hn, Hs.
Qed.


Lemma same_cells_refl : forall a b c h, same_cells a b c h h.
Proof. intros. constructor; reflexivity. Qed.

Lemma same_cells_trans :
  forall a b c h1 h2 h3,
    same_cells a b c h1 h2 -> same_cells a b c h2 h3 -> same_cells a b c h1 h3.
Proof. intros a b c h1 h2 h3 [] []. constructor; congruence. Qed.

Lemma frame_other_cells :
  forall a b c a' b' c' mC mP mW mN mT mM h h',
    frame a' b' c' 0 mC mP mW mN mT mM h h' ->
    (a, b, c) <> (a', b', c') ->
    same_cells a b c h h'.
Proof.
  intros a b c a' b' c' mC mP mW mN mT mM h h' F Hne.
  assert (Hne' : (a, b, c, 0) <> (a', b', c', 0)) by congruence.
  destruct F as [_ _ _ _ _ _ _ _ HP HW HN HT HM].
  constructor.
  - exact (kept_off_cell _ _ _ _ _ _ _ _ HP a b c 0 Hne').
  - exact (kept_off_cell _ _ _ _ _ _ _ _ HW a b c 0 Hne').
  - exact (kept_off_cell _ _ _ _ _ _ _ _ HN a b c 0 Hne').
  - exact (kept_off_cell _ _ _ _ _ _ _ _ HT a b c 0 Hne').
  - exact (kept_off_cell _ _ _ _ _ _ _ _ HM a b c 0 Hne').
Qed.

Section Loop.

Variable p : parameterType.
Variable numYaa : Z.

Local Abbreviation body := (body p numYaa).


Lemma score_registers_cons :
  forall r rs st,
    score_registers p numYaa (r :: rs) st
    = score_registers p numYaa rs (body st r).
Proof. reflexivity. Qed.

Lemma body_eq :
  forall st a b c,
    body st (a, b, c) = register_body p a b c 0 numYaa st.
Proof. reflexivity. Qed.

Lemma body_same_sample :
  forall st r, same_sample (fst st) (fst (body st r)).
Proof.
  intros st [[a b] c]. unfold body.
  eapply frame_same_sample. apply frame_register_body.
Qed.

Lemma score_registers_same_sample :
  forall rs st, same_sample (fst st) (fst (score_registers p numYaa rs st)).
Proof.
  induction rs as [|r rs IH]; intro st.
  - apply same_sample_refl.
  - rewrite score_registers_cons.
    apply same_sample_trans with (h2 := fst (body st r));
      [apply body_same_sample | apply IH].
Qed.

Lemma body_other_cells :
  forall st r a b c,
    (a, b, c) <> r -> same_cells a b c (fst st) (fst (body st r)).
Proof.
  intros st [[a' b'] c'] a b c Hne. unfold body.
  eapply frame_other_cells; [apply frame_register_body | exact Hne].
Qed.

Lemma score_registers_other_cells :
  forall rs st a b c,
    ~ In (a, b, c) rs ->
    same_cells a b c (fst st) (fst (score_registers p numYaa rs st)).
Proof.
  induction rs as [|r rs IH]; intros st a b c Hnot.
  - apply same_cells_refl.
  - rewrite score_registers_cons.
    apply same_cells_trans with (h2 := fst (body st r)).
    + apply body_other_cells. intro E. apply Hnot. left. congruence.
    + apply IH. intro Hin. apply Hnot. now right.
Qed.

(** A register of the list is scored once: there is a state of the loop,
    with the sample's data and the register's cells as on entry, from
    which the body leaves the cells as they are at the end. *)
Lemma score_registers_at :
  forall rs st a b c,
    NoDup rs -> In (a, b, c) rs ->
    exists hb lb,
      same_sample (fst st) hb
      /\ same_cells a b c (fst st) hb
      /\ same_cells a b c (fst (register_body p a b c 0 numYaa (hb, lb)))
           (fst (score_registers p numYaa rs st)).
Proof.
  induction rs as [|r rs IH]; intros st a b c Hnd Hin; [contradiction|].
  rewrite score_registers_cons. inversion Hnd as [|? ? Hnotin Hnd']; subst.
  destruct Hin as [E | Hin].
  - subst r. destruct st as [hb lb]. exists hb, lb.
    split; [apply same_sample_refl|].
    split; [apply same_cells_refl|].
    apply score_registers_other_cells. exact Hnotin.
  - destruct (IH (body st r) a b c Hnd' Hin) as [hb [lb [Hs [Hc Hf]]]].
    exists hb, lb. split; [|split].
    + apply same_sample_trans with (h2 := fst (body st r));
        [apply body_same_sample | exact Hs].
    + apply same_cells_trans with (h2 := fst (body st r)); [|exact Hc].
      apply body_other_cells. intro E. subst r. contradiction.
    + exact Hf.
Qed.

End Loop.

Lemma NoDup_flat_map :
  forall X Y (f : X -> list Y) l,
    NoDup l ->
    (forall x, In x l -> NoDup (f x)) ->
    (forall x x' y, In x l -> In x' l -> In y (f x) -> In y (f x') -> x = x') ->
    NoDup (flat_map f l).
Proof.
  intros X Y f l. induction l as [|x l IH]; intros Hnd Hf Hinj; simpl.
  - constructor.
  - inversion Hnd as [|? ? Hx Hl]; subst.
    apply NoDup_app.
    + apply Hf. now left.
    + apply IH; auto.
      * intros x0 Hx0. apply Hf. now right.
      * intros x0 x' y H0 H1. apply Hinj; now right.
    + intros y Hy Hy'. apply in_flat_map in Hy'.
      destruct Hy' as [x' [Hx' Hy']].
      assert (x = x') by (apply (Hinj x x' y); auto; [now left | now right]).
      subst x'. contradiction.
Qed.

Lemma registers_NoDup : forall n, NoDup (registers n).
Proof.
  intro n. unfold registers.
  apply NoDup_flat_map; [apply upto_NoDup | |].
  - intros a _. apply NoDup_flat_map; [apply upto_NoDup | |].
    + intros b _. apply Injective_map_NoDup; [|apply upto_NoDup].
      intros c c' E. congruence.
    + intros b b' y _ _ H1 H2.
      apply in_map_iff in H1. apply in_map_iff in H2.
      destruct H1 as [c1 [<- _]]. destruct H2 as [c2 [E _]]. congruence.
  - intros a a' y _ _ H1 H2.
    apply in_flat_map in H1. apply in_flat_map in H2.
    destruct H1 as [b1 [_ H1]]. destruct H2 as [b2 [_ H2]].
    apply in_map_iff in H1. apply in_map_iff in H2.
    destruct H1 as [c1 [<- _]]. destruct H2 as [c2 [E _]]. congruence.
Qed.

Lemma registers_In :
  forall n a b c,
    In (a, b, c) (registers n) <-> 0 <= a < n /\ 0 <= b < n /\ 0 <= c < n.
Proof.
  intros n a b c. unfold registers. rewrite in_flat_map. split.
  - intros [a' [Ha H]]. apply in_flat_map in H. destruct H as [b' [Hb H]].
    apply in_map_iff in H. destruct H as [c' [E Hc]].
    inversion E; subst.
    apply upto_bound in Ha, Hb, Hc. lia.
  - intros [Ha [Hb Hc]]. exists a. split; [now apply upto_complete|].
    apply in_flat_map. exists b. split; [now apply upto_complete|].
    apply in_map_iff. exists c. split; [reflexivity | now apply upto_complete].
Qed.


(** ** The net charge of one register *)

Lemma to_short_small :
  forall z, -32768 <= z <= 32767 -> to_short z = z.
Proof. intros z Hz. unfold to_short. rewrite Z.mod_small; lia. Qed.

Lemma charge_of_bound : forall ch, -1 <= charge_of ch <= 1.
Proof.
  intro ch. unfold charge_of.
  destruct (is_letter ch "K" || is_letter ch "R"),
    (is_letter ch "E" || is_letter ch "D"); lia.
Qed.

Section NetCharge.

Variable p : parameterType.
Variables a b c d : Z.

Local Abbreviation charges_at := (charges_at a b c).

Lemma count_charge_netCharge :
  forall ch h,
    -32768 <= netCharge h a b c d - 1 ->
    netCharge h a b c d + 1 <= 32767 ->
    netCharge (count_charge a b c d ch h) a b c d
    = netCharge h a b c d + charge_of ch.
Proof.
  intros ch h Hlo Hhi. unfold count_charge, charge_of.
  destruct (is_letter ch "K" || is_letter ch "R"),
    (is_letter ch "E" || is_letter ch "D"); cbn;
    rewrite ?gstore_same; cbn; rewrite ?gstore_same;
    rewrite ?to_short_small; rewrite ?to_short_small; lia.
Qed.


Lemma residue_propensity_netCharge :
  forall tr tip x k h,
    netCharge (residue_propensity p a b c d tr tip x k h) = netCharge h.
Proof.
  intros.
  exact (fr_netCharge _ _ _ _ _ _ _ _ _ _ _ _
           (frame_residue_propensity a b c d false p false false false false
              tr tip x k h)).
Qed.

Lemma single_AA_step_netCharge :
  forall tr h x,
    -32768 <= netCharge h a b c d - 3 ->
    netCharge h a b c d + 3 <= 32767 ->
    netCharge (single_AA_step p a b c d tr h x) a b c d
    = netCharge h a b c d + charges_at tr x.
Proof.
  intros tr h x Hlo Hhi. unfold single_AA_step. cbv zeta.
  rewrite !residue_propensity_netCharge.
  pose proof (charge_of_bound (sequences tr a x)) as Ba.
  pose proof (charge_of_bound (sequences tr b x)) as Bb.
  pose proof (charge_of_bound (sequences tr c x)) as Bc.
  assert (H1 : netCharge (count_charge a b c d (sequences tr a x) h) a b c d
               = netCharge h a b c d + charge_of (sequences tr a x))
    by (apply count_charge_netCharge; lia).
  assert (H2 : netCharge
                 (count_charge a b c d (sequences tr b x)
                    (count_charge a b c d (sequences tr a x) h)) a b c d
               = netCharge h a b c d + charge_of (sequences tr a x)
                 + charge_of (sequences tr b x))
    by (rewrite count_charge_netCharge; lia).
  rewrite count_charge_netCharge by lia.
  unfold charges_at. lia.
Qed.

Lemma single_AA_fold_netCharge :
  forall tr xs h,
    -32768 <= netCharge h a b c d - 3 * Z.of_nat (List.length xs) ->
    netCharge h a b c d + 3 * Z.of_nat (List.length xs) <= 32767 ->
    netCharge (fold_left (single_AA_step p a b c d tr) xs h) a b c d
    = fold_left (fun acc x => acc + charges_at tr x) xs (netCharge h a b c d).
Proof.
  intros tr xs. induction xs as [|x xs IH]; intros h Hlo Hhi.
  - reflexivity.
  - cbn [fold_left]. cbn [List.length] in Hlo, Hhi.
    assert (Hs : netCharge (single_AA_step p a b c d tr h x) a b c d
                 = netCharge h a b c d + charges_at tr x)
      by (apply single_AA_step_netCharge; lia).
    assert (Hb : -3 <= charges_at tr x <= 3).
    { unfold charges_at.
      pose proof (charge_of_bound (sequences tr a x)).
      pose proof (charge_of_bound (sequences tr b x)).
      pose proof (charge_of_bound (sequences tr c x)). lia. }
    rewrite IH by lia. now rewrite Hs.
Qed.

Lemma charges_from :
  forall h xs v,
    fold_left (fun acc x => acc + charges_at h x) xs v
    = v + fold_left (fun acc x => acc + charges_at h x) xs 0.
Proof.
  intros h xs. induction xs as [|x xs IH]; intro v; simpl.
  - lia.
  - rewrite IH. rewrite (IH (charges_at h x)). lia.
Qed.

Lemma charges_trim :
  forall h xs v,
    fold_left (fun acc x => acc + charges_at (trim_canonical h a b c) x) xs v
    = fold_left (fun acc x => acc + charges_at h x) xs v.
Proof.
  intros h xs. induction xs as [|x xs IH]; intro v; simpl.
  - reflexivity.
  - rewrite IH. unfold charges_at. now rewrite !trim_sequences.
Qed.

Lemma upto_length : forall n, List.length (upto n) = Z.to_nat n.
Proof. intro n. unfold upto. now rewrite length_map, length_seq. Qed.

Lemma before_pairwise_netCharge :
  forall h,
    -32768 <= netCharge h a b c d <= 32767 ->
    -32768 <= netCharge h a b c d - 3 * numAA h ->
    netCharge h a b c d + 3 * numAA h <= 32767 ->
    netCharge (before_pairwise p a b c d h) a b c d
    = netCharge h a b c d
      + fold_left (fun acc x => acc + charges_at h x) (upto (numAA h)) 0.
Proof.
  intros h Hin Hlo Hhi. unfold before_pairwise. cbv zeta.
  rewrite charge_scoring_netCharge.
  set (tr := trim_canonical h a b c).
  pose proof (frame_termination a b c d false false false false false tr
                (set_length p a b c d tr h)) as F2.
  pose proof (frame_set_length a b c d false p false false false false tr h)
    as F1.
  pose proof (frame_trans _ _ _ _ _ _ _ _ _ _ _ _ _ F1 F2) as F.
  destruct F as [_ Hn _ _ _ _ _ _ _ _ HN _ _]. simpl in HN.
  unfold single_AA_score. rewrite Hn.
  rewrite single_AA_fold_netCharge; rewrite HN, ?upto_length; try lia.
  rewrite charges_from. f_equal. subst tr. apply charges_trim.
Qed.

End NetCharge.


(** ** The whole scorer *)


Lemma ScoreHelix_eq :
  forall p h,
    ScoreHelix p h = conclude (snd (scored_state p h)) (fst (scored_state p h)).
Proof.
  intros p h. unfold ScoreHelix, scored_state. cbv zeta.
  change (numAA (prepare h)) with (numAA h).
  change (numPep (prepare h)) with (numPep h).
  destruct (score_registers _ _ _ _). reflexivity.
Qed.

Lemma set_final_deviation_keeps :
  forall m h,
    let h' := set_final_deviation m h in
    Propensity h' = Propensity h /\ netCharge h' = netCharge h
    /\ Tm h' = Tm h /\ CCTm h' = CCTm h /\ CCRegister h' = CCRegister h
    /\ HighTm h' = HighTm h /\ bestRegister h' = bestRegister h
    /\ secTm h' = secTm h /\ secRegister h' = secRegister h
    /\ specificity h' = specificity h /\ expTm h' = expTm h.
Proof.
  intros m h. unfold set_final_deviation. cbv zeta.
  repeat match goal with
  | |- context [if ?t then _ else _] => destruct t
  end; cbn; repeat split; reflexivity.
Qed.

Lemma conclude_keeps :
  forall l h,
    let h' := conclude l h in
    Propensity h' = Propensity h /\ netCharge h' = netCharge h
    /\ Tm h' = Tm h /\ CCTm h' = CCTm h /\ CCRegister h' = CCRegister h
    /\ expTm h' = expTm h.
Proof.
  intros l h. unfold conclude. cbv zeta.
  match goal with
  | |- context [set_final_deviation ?m ?x] =>
      destruct (set_final_deviation_keeps m x)
        as (HP & HN & HT & HC & HR & _ & _ & _ & _ & _ & HE)
  end.
  cbv zeta in *. rewrite HP, HN, HT, HC, HR, HE. cbn. repeat split; reflexivity.
Qed.

Lemma conclude_slots :
  forall l h,
    let h' := conclude l h in
    HighTm h' = maxTm l /\ bestRegister h' = bestReg l
    /\ secTm h' = secondBestTm l /\ secRegister h' = secondBestReg l
    /\ specificity h' = (maxTm l - secondBestTm l)%Q.
Proof.
  intros l h. unfold conclude. cbv zeta.
  match goal with
  | |- context [set_final_deviation ?m ?x] =>
      destruct (set_final_deviation_keeps m x)
        as (_ & _ & _ & _ & _ & H1 & H2 & H3 & H4 & H5 & _)
  end.
  cbv zeta in *. rewrite H1, H2, H3, H4, H5. cbn. repeat split; reflexivity.
Qed.

Lemma prepare_same_sample : forall h, same_sample h (prepare h).
Proof. intro h. constructor; reflexivity. Qed.

Lemma remember_CC_cells :
  forall a b c h, same_cells a b c h (remember_CC a b c 0 h).
Proof.
  intros a b c h.
  destruct (frame_remember_CC a b c 0 false false false false false h)
    as [_ _ _ _ _ _ _ _ HP HW HN HT HM].
  simpl in *. constructor; congruence.
Qed.

(** The cells of a register of the sample after [ScoreHelix]: they are
    what [score_register] leaves from some state of the loop that has the
    sample's data and, in these cells, what the sample had on entry. *)
Lemma ScoreHelix_register :
  forall p h a b c,
    In (a, b, c) (registers (numPep h)) ->
    exists hb lb,
      same_sample h hb
      /\ netCharge hb a b c 0 = netCharge h a b c 0
      /\ let h1 := fst (score_register p a b c 0 (Z.quot (numAA h) 3) (hb, lb)) in
         Propensity (ScoreHelix p h) a b c 0 = Propensity h1 a b c 0
         /\ netCharge (ScoreHelix p h) a b c 0 = netCharge h1 a b c 0
         /\ Tm (ScoreHelix p h) a b c 0 = Tm h1 a b c 0.
Proof.
  intros p h a b c Hin.
  destruct (score_registers_at p (Z.quot (numAA h) 3) (registers (numPep h))
              (prepare h, initial_locals) a b c (registers_NoDup _) Hin)
    as [hb [lb [Hs [Hc Hf]]]].
  exists hb, lb. cbn [fst] in Hs, Hc.
  split; [eapply same_sample_trans; [apply prepare_same_sample | exact Hs]|].
  split; [exact (sc_netCharge _ _ _ _ _ Hc)|].
  cbv zeta. rewrite ScoreHelix_eq.
  destruct (conclude_keeps (snd (scored_state p h)) (fst (scored_state p h)))
    as (HP & HN & HT & _).
  cbv zeta in *. rewrite HP, HN, HT. fold (scored_state p h) in Hf.
  unfold register_body in Hf.
  destruct (score_register p a b c 0 (Z.quot (numAA h) 3) (hb, lb))
    as [h1 l1].
  cbn [fst] in *.
  pose proof (remember_CC_cells a b c h1) as Hr.
  pose proof (same_cells_trans _ _ _ _ _ _ Hr Hf) as [H1 _ H3 _ H5].
  auto.
Qed.

(** The propensity of a scored register in closed form. *)
Lemma ScoreHelix_Propensity :
  forall p h a b c,
    In (a, b, c) (registers (numPep h)) ->
    (Propensity (ScoreHelix p h) a b c 0
     == terminal_terms p h a b c
        + residue_sum (tip_weight (numAA h)) p h a b c
        - charge_penalty (netCharge (ScoreHelix p h) a b c 0))%Q.
Proof.
  intros p h a b c Hin.
  destruct (ScoreHelix_register p h a b c Hin)
    as [hb [lb [Hs [_ [HP [HN _]]]]]].
  rewrite HP, HN.
  rewrite (score_register_Propensity p a b c 0 _ hb lb).
  rewrite (terminal_terms_same p h hb a b c Hs).
  rewrite (residue_sum_same _ p h hb a b c Hs).
  rewrite (ss_numAA _ _ Hs). reflexivity.
Qed.

(** C6, as the code has it: the residues at the positions 3 .. numAA - 3
    count in full, those at the positions 0, 1, 2, numAA - 2 and numAA - 1
    count for a third.  The propensity of every scored register is the
    length and end terms, plus the sum over the positions of the role
    propensities of the three peptides with these weights, less the charge
    penalty. *)
Theorem C6_propensity_weights :
  forall p h a b c,
    In (a, b, c) (registers (numPep h)) ->
    (forall x, 3 <= x <= numAA h - 3 -> tip_weight (numAA h) x = 1%Q)
    /\ (forall x, x < 3 \/ numAA h - 3 < x ->
                  tip_weight (numAA h) x = (1 # 3)%Q)
    /\ (Propensity (ScoreHelix p h) a b c 0
        == terminal_terms p h a b c
           + residue_sum (tip_weight (numAA h)) p h a b c
           - charge_penalty (netCharge (ScoreHelix p h) a b c 0))%Q.
Proof.
  intros p h a b c Hin. split; [|split].
  - intros x Hx. unfold tip_weight.
    destruct (Z.leb_spec 3 x), (Z.leb_spec x (numAA h - 3));
      try lia; reflexivity.
  - intros x Hx. unfold tip_weight.
    destruct (Z.leb_spec 3 x), (Z.leb_spec x (numAA h - 3));
      try lia; reflexivity.
  - now apply ScoreHelix_Propensity.
Qed.

Lemma score_register_netCharge :
  forall p a b c numYaa h l,
    -32768 <= netCharge h a b c 0 <= 32767 ->
    -32768 <= netCharge h a b c 0 - 3 * numAA h ->
    netCharge h a b c 0 + 3 * numAA h <= 32767 ->
    netCharge (fst (score_register p a b c 0 numYaa (h, l))) a b c 0
    = netCharge h a b c 0 + net_charge_sum h a b c.
Proof.
  intros p a b c numYaa h l Hin Hlo Hhi.
  rewrite score_register_fst.
  change (netCharge (set_Tm_cell a b c 0 ?x)) with (netCharge x).
  rewrite set_pairwise_netCharge.
  now apply before_pairwise_netCharge.
Qed.

(** C7, as the code has it: on a sample whose charge counter of the
    register is zero on entry, the net charge is the sum of +1 for Lys and
    Arg and -1 for Glu and Asp over the residues of the three peptides, and
    beyond 6 the propensity loses the integer quotient of
    (|net charge| - 6) by 3. *)
Theorem C7_charge_penalty_is_integer_quotient :
  forall p h a b c,
    In (a, b, c) (registers (numPep h)) ->
    netCharge h a b c 0 = 0 ->
    0 <= 3 * numAA h <= 32767 ->
    let nc := net_charge_sum h a b c in
    netCharge (ScoreHelix p h) a b c 0 = nc
    /\ (Propensity (ScoreHelix p h) a b c 0
        == terminal_terms p h a b c
           + residue_sum (tip_weight (numAA h)) p h a b c
           - (if Z.abs nc >? 6
              then of_int (Z.quot (Z.abs nc - 6) 3) else 0))%Q.
Proof.
  intros p h a b c Hin H0 Hlen nc.
  assert (Hnc : netCharge (ScoreHelix p h) a b c 0 = nc).
  { destruct (ScoreHelix_register p h a b c Hin)
      as [hb [lb [Hs [Hb [_ [HN _]]]]]].
    rewrite HN, score_register_netCharge;
      rewrite ?Hb, ?H0, ?(ss_numAA _ _ Hs); try lia.
    subst nc. now rewrite (net_charge_sum_same h hb a b c Hs). }
  split; [exact Hnc|].
  rewrite (ScoreHelix_Propensity p h a b c Hin), Hnc. reflexivity.
Qed.


(** ** Deviation *)

Lemma set_final_deviation_value :
  forall h,
    deviation (set_final_deviation (HighTm h) h)
    = computed_deviation (set_final_deviation (HighTm h) h).
Proof.
  intro h.
  unfold set_final_deviation, computed_deviation, sentinel_deviation, Qlt_bool.
  cbv zeta.
  destruct (same_peptides (CCRegister h) (bestRegister h)) eqn:Es;
    destruct (Qeq_bool (expTm h) (-10)) eqn:Ee;
    destruct (Qle_bool (HighTm h) 10) eqn:El;
    cbn; rewrite ?Es, ?Ee, ?El; try reflexivity;
    destruct (Qle_bool 0 (CCTm h - expTm h)) eqn:Eb;
    cbn; rewrite ?Es, ?Ee, ?Eb; reflexivity.
Qed.

(** C2, as the code has it: the registers are compared on their three
    peptides; when they agree the deviation is bestTm - expTm, or with the
    sentinel expTm = -10 it is 0 for bestTm <= 10 and bestTm - 10
    otherwise; when they differ and expTm = -10 the same sentinel rule
    applies, on bestTm again; when they differ and expTm is not the
    sentinel the base CCTm - expTm gets 0.5 |CCTm - bestTm| added when it
    is >= 0 and subtracted when it is < 0. *)
Theorem C2_deviation_rule :
  forall p h,
    deviation (ScoreHelix p h) = computed_deviation (ScoreHelix p h).
Proof.
  intros p h. rewrite ScoreHelix_eq.
  destruct (scored_state p h) as [h' l]. cbn [fst snd].
  unfold conclude. cbv zeta.
  match goal with
  | |- context [set_final_deviation (maxTm l) ?x] =>
      change (maxTm l) with (HighTm x)
  end.
  apply set_final_deviation_value.
Qed.

(** C2 as stated fails: two peptides, no transition observed, the
    homotrimer of the first peptide predicted at 20 and the best register
    of the correct composition at 3; the deviation is 10, where the
    sentinel rule on CCTm gives 0. *)
Lemma C2_counterexample_sentinel_on_best :
  let r := ScoreHelix alanine_parameters heterotrimer_no_transition in
  same_peptides (CCRegister r) (bestRegister r) = false
  /\ (expTm r == -10)%Q /\ (CCTm r == 3)%Q /\ (HighTm r == 20)%Q
  /\ (deviation r == 10)%Q
  /\ (documented_deviation r == 0)%Q
  /\ ~ (deviation r == documented_deviation r)%Q.
Proof.
  vm_compute. repeat split; try reflexivity. intro H. discriminate H.
Qed.

(** ** The second-best slot of a single peptide *)

Lemma registers_one : registers 1 = [(0, 0, 0)].
Proof. reflexivity. Qed.

Lemma remember_CC_Tm :
  forall a b c h, Tm (remember_CC a b c 0 h) = Tm h.
Proof.
  intros.
  exact (fr_Tm _ _ _ _ _ _ _ _ _ _ _ _
           (frame_remember_CC a b c 0 false false false false false h)).
Qed.

(** C10: with a single peptide and a Tm of at least -1000 for its one
    register, the second-best slot holds the demoted initial sentinel:
    secTm is -1000, secRegister is (6,6,6,11), and the specificity is
    HighTm + 1000. *)
Theorem C10_single_peptide_second_best_is_sentinel :
  forall p h,
    numPep h = 1 ->
    (-1000 <= Tm (ScoreHelix p h) 0 0 0 0)%Q ->
    secTm (ScoreHelix p h) = (-1000)%Q
    /\ secRegister (ScoreHelix p h) = (6, 6, 6, 11)
    /\ (specificity (ScoreHelix p h) == HighTm (ScoreHelix p h) + 1000)%Q.
Proof.
  intros p h Hn Htm. rewrite ScoreHelix_eq in *.
  destruct (conclude_keeps (snd (scored_state p h)) (fst (scored_state p h)))
    as (_ & _ & HT & _).
  destruct (conclude_slots (snd (scored_state p h)) (fst (scored_state p h)))
    as (H1 & _ & H3 & H4 & H5).
  cbv zeta in *. rewrite HT in Htm. rewrite H1, H3, H4, H5.
  clear HT H1 H3 H4 H5. revert Htm.
  unfold scored_state. rewrite Hn, registers_one.
  unfold score_registers. cbn [fold_left]. unfold register_body.
  pose proof (score_register_slots p 0 0 0 0 (Z.quot (numAA h) 3)
                (prepare h) initial_locals) as Hs.
  cbv zeta in Hs.
  destruct (score_register p 0 0 0 0 (Z.quot (numAA h) 3)
              (prepare h, initial_locals)) as [h1 l1].
  cbn [fst snd] in *. destruct Hs as (M1 & M2 & M3 & M4).
  rewrite remember_CC_Tm. intro Htm.
  unfold remember_best. rewrite M1.
  assert (E : Qle_bool (maxTm initial_locals) (Tm h1 0 0 0 0) = true)
    by (apply Qle_bool_iff; exact Htm).
  rewrite E. cbn. rewrite M3.
  split; [reflexivity|]. split; [reflexivity|]. ring.
Qed.


(** ** The register of the correct composition *)

Lemma remember_CC_spec :
  forall a b c h,
    let h' := remember_CC a b c 0 h in
    if eligible (numPep h) (a, b, c) && Qle_bool (CCTm h) (Tm h a b c 0)
    then CCTm h' = Tm h a b c 0 /\ peptides_of (CCRegister h') = (a, b, c)
    else CCTm h' = CCTm h /\ CCRegister h' = CCRegister h.
Proof.
  intros a b c h. destruct h as [n ? ? ? ? ? cctm ? ? ? ? ? ? ccreg ? ? ? ? ? ? tm ?].
  unfold remember_CC, eligible.
  assert (Hn : n = 1 \/ n = 2 \/ n = 3 \/ (n <> 1 /\ n <> 2 /\ n <> 3)) by lia.
  destruct Hn as [-> | [-> | [-> | (N1 & N2 & N3)]]]; cbn.
  - destruct (Qle_bool cctm (tm a b c 0)); cbn; auto.
  - destruct (negb (a =? b) || negb (a =? c) || negb (b =? c)); cbn; auto.
    destruct (Qle_bool cctm (tm a b c 0)); cbn; auto.
  - destruct (negb (a =? b) && negb (a =? c) && negb (b =? c)); cbn; auto.
    destruct (Qle_bool cctm (tm a b c 0)); cbn; auto.
  - apply Z.eqb_neq in N1, N2, N3. rewrite N1. cbn. rewrite N2. cbn.
    rewrite N3. cbn. auto.
Qed.


Lemma Qle_bool_false : forall x y, Qle_bool x y = false -> (y < x)%Q.
Proof.
  intros x y H. apply Qnot_le_lt. intro Hle.
  apply Qle_bool_iff in Hle. congruence.
Qed.

Section Scan.

Variable p : parameterType.
Variable numYaa : Z.

Local Abbreviation body := (body p numYaa).

Lemma body_CC :
  forall st a b c,
    let h1 := fst (body st (a, b, c)) in
    numPep h1 = numPep (fst st)
    /\ if eligible (numPep (fst st)) (a, b, c)
          && Qle_bool (CCTm (fst st)) (Tm h1 a b c 0)
       then CCTm h1 = Tm h1 a b c 0 /\ peptides_of (CCRegister h1) = (a, b, c)
       else CCTm h1 = CCTm (fst st) /\ CCRegister h1 = CCRegister (fst st).
Proof.
  intros [h l] a b c. cbv zeta. rewrite !body_eq. unfold register_body.
  pose proof (frame_score_register p a b c 0 numYaa false h l) as F.
  destruct (score_register p a b c 0 numYaa (h, l)) as [hs ls].
  cbn [fst] in *. destruct F as [Hn _ _ _ _ _ _ HC _ _ _ _ _].
  destruct (HC eq_refl) as [HC1 HC2].
  pose proof (remember_CC_spec a b c hs) as S. cbv zeta in S.
  rewrite remember_CC_Tm.
  split.
  - rewrite <- Hn.
    exact (fr_numPep _ _ _ _ _ _ _ _ _ _ _ _
             (frame_remember_CC a b c 0 false false false false false hs)).
  - rewrite Hn, HC1, HC2 in S. exact S.
Qed.

Lemma body_best :
  forall st a b c,
    let st1 := body st (a, b, c) in
    if Qle_bool (maxTm (snd st)) (Tm (fst st1) a b c 0)
    then maxTm (snd st1) = Tm (fst st1) a b c 0
         /\ bestReg (snd st1) = (a, b, c, 0)
    else maxTm (snd st1) = maxTm (snd st)
         /\ bestReg (snd st1) = bestReg (snd st).
Proof.
  intros [h l] a b c. cbv zeta. rewrite !body_eq. unfold register_body.
  pose proof (score_register_slots p a b c 0 numYaa h l) as Hs.
  cbv zeta in Hs.
  destruct (score_register p a b c 0 numYaa (h, l)) as [hs ls].
  cbn [fst snd] in *. destruct Hs as (M1 & M2 & M3 & M4).
  rewrite remember_CC_Tm. unfold remember_best. rewrite M1.
  destruct (Qle_bool (maxTm l) (Tm hs a b c 0)); cbn.
  - auto.
  - destruct (Qle_bool (secondBestTm ls) (Tm hs a b c 0)); cbn; auto.
Qed.

(** The scan of a slot over the registers of the loop.  [inv] is kept by
    the body; under it a register that passes [elig] with a Tm at least
    what the slot holds takes the slot, and any other register leaves the
    slot alone. *)
Lemma scan_slot :
  forall (slot : TripleHelix * locals -> Q * register)
         (elig : Z * Z * Z -> bool) (inv : TripleHelix * locals -> Prop),
    (forall st r, inv st -> inv (body st r)) ->
    (forall st a b c,
        inv st ->
        if elig (a, b, c)
           && Qle_bool (fst (slot st)) (Tm (fst (body st (a, b, c))) a b c 0)
        then fst (slot (body st (a, b, c)))
             = Tm (fst (body st (a, b, c))) a b c 0
             /\ peptides_of (snd (slot (body st (a, b, c)))) = (a, b, c)
        else slot (body st (a, b, c)) = slot st) ->
    forall rs st,
      inv st -> NoDup rs ->
      last_best (Tm_of (fst (score_registers p numYaa rs st)))
        (filter elig rs) (fst (slot st)) (snd (slot st))
        (fst (slot (score_registers p numYaa rs st)))
        (snd (slot (score_registers p numYaa rs st))).
Proof.
  intros slot elig inv Hinv Hstep.
  induction rs as [|r rs IH]; intros st Hst Hnd.
  - left. cbn. auto.
  - inversion Hnd as [|? ? Hnotin Hnd']; subst.
    rewrite score_registers_cons. fold (body st r).
    specialize (IH (body st r) (Hinv st r Hst) Hnd').
    destruct r as [[a b] c].
    pose proof (Hstep st a b c Hst) as HS.
    pose proof (sc_Tm _ _ _ _ _
                  (score_registers_other_cells p numYaa rs
                     (body st (a, b, c)) a b c Hnotin)) as HT.
    set (S := score_registers p numYaa rs (body st (a, b, c))) in *.
    set (st1 := body st (a, b, c)) in *.
    cbn [filter].
    destruct (elig (a, b, c)) eqn:El; cbn [andb] in HS.
    + destruct (Qle_bool (fst (slot st)) (Tm (fst st1) a b c 0)) eqn:Eq.
      * destruct HS as [HC1 HC2].
        apply Qle_bool_iff in Eq. right.
        destruct IH as [(I1 & I2 & I3) | (l1 & t & l2 & I1 & I2 & I3 & I4 & I5 & I6)].
        -- exists [], (a, b, c), (filter elig rs).
           rewrite I1, I2, HC1. unfold Tm_of at 1 2. rewrite HT.
           repeat split; auto.
           rewrite <- HC1. exact I3.
        -- exists ((a, b, c) :: l1), t, l2.
           rewrite I1. repeat split; auto.
           ++ rewrite HC1 in I4. eapply Qle_trans; [exact Eq | exact I4].
           ++ constructor; [|exact I5].
              unfold Tm_of at 1. rewrite HT. rewrite <- HC1. exact I4.
      * rewrite HS in IH. apply Qle_bool_false in Eq.
        destruct IH as [(I1 & I2 & I3) | (l1 & t & l2 & I1 & I2 & I3 & I4 & I5 & I6)].
        -- left. repeat split; auto.
           constructor; [|exact I3].
           unfold Tm_of. rewrite HT. exact Eq.
        -- right. exists ((a, b, c) :: l1), t, l2.
           rewrite I1. repeat split; auto.
           constructor; [|exact I5].
           unfold Tm_of at 1. rewrite HT.
           apply Qlt_le_weak. eapply Qlt_le_trans; [exact Eq | exact I4].
    + rewrite HS in IH. exact IH.
Qed.

Lemma scan_CC :
  forall n rs st,
    numPep (fst st) = n -> NoDup rs ->
    last_best (Tm_of (fst (score_registers p numYaa rs st)))
      (filter (eligible n) rs) (CCTm (fst st)) (CCRegister (fst st))
      (CCTm (fst (score_registers p numYaa rs st)))
      (CCRegister (fst (score_registers p numYaa rs st))).
Proof.
  intros n rs st Hn Hnd.
  apply (scan_slot CC_slot (eligible n) (fun st => numPep (fst st) = n));
    try assumption.
  - intros st0 [[a b] c] H0.
    destruct (body_CC st0 a b c) as [H1 _]. cbv zeta in H1. congruence.
  - intros st0 a b c H0.
    destruct (body_CC st0 a b c) as [_ H2]. cbv zeta in H2.
    rewrite H0 in H2. unfold CC_slot. cbn [fst snd].
    destruct (eligible n (a, b, c)
              && Qle_bool (CCTm (fst st0))
                   (Tm (fst (body st0 (a, b, c))) a b c 0)).
    + exact H2.
    + destruct H2 as [E1 E2]. now rewrite E1, E2.
Qed.

Lemma scan_best :
  forall rs st,
    NoDup rs ->
    last_best (Tm_of (fst (score_registers p numYaa rs st)))
      (filter any_register rs) (maxTm (snd st)) (bestReg (snd st))
      (maxTm (snd (score_registers p numYaa rs st)))
      (bestReg (snd (score_registers p numYaa rs st))).
Proof.
  intros rs st Hnd.
  apply (scan_slot best_slot any_register (fun _ => True)); auto.
  intros st0 a b c _.
  pose proof (body_best st0 a b c) as H. cbv zeta in H.
  unfold best_slot, any_register. cbn [fst snd andb].
  destruct (Qle_bool (maxTm (snd st0))
              (Tm (fst (body st0 (a, b, c))) a b c 0)).
  - destruct H as [E1 E2]. rewrite E2. auto.
  - destruct H as [E1 E2]. now rewrite E1, E2.
Qed.

(** The four slots after the body are those [remember_best] leaves. *)
Lemma body_slots :
  forall st a b c,
    let st1 := body st (a, b, c) in
    let l' := remember_best a b c 0 (Tm (fst st1) a b c 0) (snd st) in
    maxTm (snd st1) = maxTm l' /\ secondBestTm (snd st1) = secondBestTm l'
    /\ bestReg (snd st1) = bestReg l'
    /\ secondBestReg (snd st1) = secondBestReg l'.
Proof.
  intros [h l] a b c. cbv zeta. rewrite !body_eq. unfold register_body.
  pose proof (score_register_slots p a b c 0 numYaa h l) as Hs.
  cbv zeta in Hs.
  destruct (score_register p a b c 0 numYaa (h, l)) as [hs ls].
  cbn [fst snd] in *. destruct Hs as (M1 & M2 & M3 & M4).
  rewrite remember_CC_Tm. unfold remember_best. rewrite M1, M2, M3.
  destruct (Qle_bool (maxTm l) (Tm hs a b c 0)); cbn; [auto|].
  destruct (Qle_bool (secondBestTm l) (Tm hs a b c 0)); cbn; auto.
Qed.

(** A register put before the others takes a slot it reaches, and leaves a
    slot it does not reach. *)
Lemma last_best_cons_take :
  forall tmf r els tm0 reg0 reg1 tm reg,
    peptides_of reg1 = r ->
    (tm0 <= tmf r)%Q ->
    last_best tmf els (tmf r) reg1 tm reg ->
    last_best tmf (r :: els) tm0 reg0 tm reg.
Proof.
  intros tmf r els tm0 reg0 reg1 tm reg Hr H0
    [(I1 & I2 & I3) | (l1 & t & l2 & I1 & I2 & I3 & I4 & I5 & I6)].
  - right. exists [], r, els. subst tm reg.
    repeat split; auto.
  - right. exists (r :: l1), t, l2. rewrite I1.
    repeat split; auto.
    eapply Qle_trans; eassumption.
Qed.

Lemma last_best_cons_skip :
  forall tmf r els tm0 reg0 tm reg,
    (tmf r < tm0)%Q ->
    last_best tmf els tm0 reg0 tm reg ->
    last_best tmf (r :: els) tm0 reg0 tm reg.
Proof.
  intros tmf r els tm0 reg0 tm reg H0
    [(I1 & I2 & I3) | (l1 & t & l2 & I1 & I2 & I3 & I4 & I5 & I6)].
  - left. repeat split; auto.
  - right. exists (r :: l1), t, l2. rewrite I1.
    repeat split; auto.
    constructor; [|exact I5].
    apply Qlt_le_weak. eapply Qlt_le_trans; eassumption.
Qed.

(** The scan of the best and the second-best slot over the registers of
    the loop. *)
Lemma scan_best_two :
  forall rs st,
    NoDup rs ->
    let S := score_registers p numYaa rs st in
    best_two (Tm_of (fst S)) rs
      (maxTm (snd st)) (bestReg (snd st))
      (secondBestTm (snd st)) (secondBestReg (snd st))
      (maxTm (snd S)) (bestReg (snd S))
      (secondBestTm (snd S)) (secondBestReg (snd S)).
Proof.
  induction rs as [|r rs IH]; intros st Hnd; cbv zeta.
  - left. cbn. repeat split; auto. left. repeat split; auto.
  - inversion Hnd as [|? ? Hnotin Hnd']; subst.
    rewrite score_registers_cons. fold (body st r).
    specialize (IH (body st r) Hnd'). cbv zeta in IH.
    destruct r as [[a b] c].
    destruct (body_slots st a b c) as (S1 & S2 & S3 & S4). cbv zeta in *.
    pose proof (sc_Tm _ _ _ _ _
                  (score_registers_other_cells p numYaa rs
                     (body st (a, b, c)) a b c Hnotin)) as HT.
    remember (score_registers p numYaa rs (body st (a, b, c))) as S eqn:ES.
    clear ES.
    remember (body st (a, b, c)) as st1 eqn:Est1. clear Est1.
    change (Tm (fst S) a b c 0) with (Tm_of (fst S) (a, b, c)) in HT.
    rewrite <- HT in S1, S2, S3, S4. clear HT.
    remember (Tm_of (fst S)) as tmf eqn:Etmf. clear Etmf.
    unfold remember_best in S1, S2, S3, S4.
    destruct (Qle_bool (maxTm (snd st)) (tmf (a, b, c))) eqn:E1.
    + cbn in S1, S2, S3, S4. apply Qle_bool_iff in E1.
      rewrite S1, S2, S3, S4 in IH.
      destruct IH as [(I1 & I2 & I3 & I4)
                     | (l1 & t & l2 & I1 & I2 & I3 & I4 & I5 & I6 & I7)].
      * right. exists [], (a, b, c), rs. rewrite I1, I2.
        repeat split; auto.
      * right. exists ((a, b, c) :: l1), t, l2. rewrite I1.
        repeat split; auto.
        -- eapply Qle_trans; eassumption.
        -- apply (last_best_cons_take tmf (a, b, c) (l1 ++ l2) _ _
                    (a, b, c, 0)); auto.
    + apply Qle_bool_false in E1.
      destruct (Qle_bool (secondBestTm (snd st)) (tmf (a, b, c))) eqn:E2.
      * cbn in S1, S2, S3, S4. apply Qle_bool_iff in E2.
        rewrite S1, S2, S3, S4 in IH.
        destruct IH as [(I1 & I2 & I3 & I4)
                       | (l1 & t & l2 & I1 & I2 & I3 & I4 & I5 & I6 & I7)].
        -- left. repeat split; auto.
           apply (last_best_cons_take tmf (a, b, c) rs _ _ (a, b, c, 0));
             auto.
        -- right. exists ((a, b, c) :: l1), t, l2. rewrite I1.
           repeat split; auto.
           ++ constructor; [|exact I5].
              apply Qlt_le_weak. exact (Qlt_le_trans _ _ _ E1 I4).
           ++ apply (last_best_cons_skip tmf (a, b, c) (l1 ++ l2)); auto.
      * cbn in S1, S2, S3, S4. apply Qle_bool_false in E2.
        rewrite S1, S2, S3, S4 in IH.
        destruct IH as [(I1 & I2 & I3 & I4)
                       | (l1 & t & l2 & I1 & I2 & I3 & I4 & I5 & I6 & I7)].
        -- left. repeat split; auto.
           apply (last_best_cons_skip tmf (a, b, c) rs); auto.
        -- right. exists ((a, b, c) :: l1), t, l2. rewrite I1.
           repeat split; auto.
           ++ constructor; [|exact I5].
              apply Qlt_le_weak. exact (Qlt_le_trans _ _ _ E1 I4).
           ++ apply (last_best_cons_skip tmf (a, b, c) (l1 ++ l2)); auto.
Qed.

End Scan.

Lemma filter_any_register : forall rs, filter any_register rs = rs.
Proof.
  induction rs as [|r rs IH]; [reflexivity|]. cbn. now rewrite IH.
Qed.

(** C5, as the code has it: every register of the right composition whose
    Tm is greater than or equal to the running best is recorded, also one
    whose Tm equals the recorded best.  After [ScoreHelix] the slot of the
    correct composition holds the last register, in the order of the
    enumeration, among those of the right composition with the largest Tm
    (every one before it is at most as good, every one after it is
    strictly worse), or it holds the initial sentinel when every such Tm
    is below -1500.  The best register is recorded likewise, over all the
    registers and from the sentinel -1000.  The second-best slot follows
    the same rule over the registers other than the best one, starting
    from the sentinel -1000 and (6,6,6,11) that the first best register
    moved into it: it holds the last of the other registers with the
    largest Tm, a later equal one replacing an earlier one, or that
    sentinel when every other Tm is below -1000.  When no register
    reaches -1000, the second-best slot is recorded over all the
    registers, from its own sentinel -2000 and (5,5,5,10). *)
Theorem C5_last_best_register_is_recorded :
  forall p h,
    last_best (Tm_of (ScoreHelix p h))
      (filter (eligible (numPep h)) (registers (numPep h)))
      (-1500)%Q (7, 7, 7, 12)
      (CCTm (ScoreHelix p h)) (CCRegister (ScoreHelix p h))
    /\ last_best (Tm_of (ScoreHelix p h)) (registers (numPep h))
         (-1000)%Q (6, 6, 6, 11)
         (HighTm (ScoreHelix p h)) (bestRegister (ScoreHelix p h))
    /\ best_two (Tm_of (ScoreHelix p h)) (registers (numPep h))
         (-1000)%Q (6, 6, 6, 11) (-2000)%Q (5, 5, 5, 10)
         (HighTm (ScoreHelix p h)) (bestRegister (ScoreHelix p h))
         (secTm (ScoreHelix p h)) (secRegister (ScoreHelix p h)).
Proof.
  intros p h.
  pose proof (scan_CC p (Z.quot (numAA h) 3) (numPep h)
                (registers (numPep h)) (prepare h, initial_locals)
                eq_refl (registers_NoDup _)) as S.
  pose proof (scan_best p (Z.quot (numAA h) 3) (registers (numPep h))
                (prepare h, initial_locals) (registers_NoDup _)) as Sb.
  pose proof (scan_best_two p (Z.quot (numAA h) 3) (registers (numPep h))
                (prepare h, initial_locals) (registers_NoDup _)) as St.
  rewrite filter_any_register in Sb.
  cbv zeta in St.
  fold (scored_state p h) in S, Sb, St. cbn [fst snd] in S, Sb, St.
  change (CCTm (prepare h)) with (-1500)%Q in S.
  change (CCRegister (prepare h)) with (7, 7, 7, 12) in S.
  change (maxTm initial_locals) with (-1000)%Q in Sb, St.
  change (bestReg initial_locals) with (6, 6, 6, 11) in Sb, St.
  change (secondBestTm initial_locals) with (-2000)%Q in St.
  change (secondBestReg initial_locals) with (5, 5, 5, 10) in St.
  rewrite ScoreHelix_eq.
  destruct (conclude_keeps (snd (scored_state p h)) (fst (scored_state p h)))
    as (_ & _ & HT & HC & HR & _).
  destruct (conclude_slots (snd (scored_state p h)) (fst (scored_state p h)))
    as (H1 & H2 & H3 & H4 & _).
  cbv zeta in *. unfold Tm_of in *. rewrite HT, HC, HR, H1, H2, H3, H4.
  split; [|split]; assumption.
Qed.

(** C5 as stated fails: with two peptides and all parameters zero every
    register has the same Tm; the recorded register of the correct
    composition is the last of the right composition, (1,1,0), not the
    first, (0,0,1), and the best register is the last of all, (1,1,1), not
    the first, (0,0,0).  The second-best register is the last of the
    others, (1,1,0), not the first of those that follow the first,
    (0,0,1). *)
Lemma C5_counterexample_later_equal_replaces :
  let r := ScoreHelix zero_parameters heterotrimer_PA in
  Forall (fun t => Qeq (Tm_of r t) 0) (registers 2)
  /\ first_best (Tm_of r) (-1500) (filter (eligible 2) (registers 2))
     = Some (0, 0, 1)
  /\ peptides_of (CCRegister r) = (1, 1, 0)
  /\ Some (peptides_of (CCRegister r))
     <> first_best (Tm_of r) (-1500) (filter (eligible 2) (registers 2))
  /\ first_best (Tm_of r) (-1000) (registers 2) = Some (0, 0, 0)
  /\ peptides_of (bestRegister r) = (1, 1, 1)
  /\ first_best (Tm_of r) (-2000) (tl (registers 2)) = Some (0, 0, 1)
  /\ peptides_of (secRegister r) = (1, 1, 0).
Proof.
  vm_compute. repeat split; try reflexivity.
  - repeat constructor.
  - intro H. discriminate H.
Qed.


(** ** The optimization loop *)

Lemma value_assign : forall s v p, value s (assign s v p) = v.
Proof.
  intros [x|x|x y|x y] v p; cbn; unfold store1, store2;
    now rewrite ?Z.eqb_refl.
Qed.

Lemma reference_assign : forall s v p, reference s (assign s v p) = reference s p.
Proof. intros [x|x|x y|x y] v p; reflexivity. Qed.

Lemma change_value :
  forall s k st,
    value s (parameters_of (change s k st))
    = to_double (value s (parameters_of st) + k).
Proof. intros. unfold change. cbn. apply value_assign. Qed.

Lemma change_reference :
  forall s k st,
    reference s (parameters_of (change s k st))
    = reference s (parameters_of st).
Proof. intros. unfold change. cbn. apply reference_assign. Qed.

Lemma change_sumSquaredDev :
  forall s k st, sumSquaredDev (change s k st) = sumSquaredDev st.
Proof. reflexivity. Qed.

Lemma change_improved :
  forall s k st, improved (change s k st) = improved st.
Proof. reflexivity. Qed.

(** A test keeps the parameters; it lowers the tracked sum and raises the
    flag, or leaves both. *)
Lemma test_change_cases :
  forall T t st,
    let st' := test_change T t st in
    parameters_of st' = parameters_of st
    /\ ((improved st' = true /\ (sumSquaredDev st' < sumSquaredDev st)%Q)
        \/ (improved st' = improved st
            /\ sumSquaredDev st' = sumSquaredDev st)).
Proof.
  intros T t st. unfold test_change. destruct t; cbv zeta.
  - destruct (Qlt_bool _ _) eqn:E; cbn.
    + split; [reflexivity|]. left. split; [reflexivity|].
      unfold Qlt_bool in E. apply negb_true_iff in E.
      now apply Qle_bool_false.
    + split; [reflexivity|]. right. split; reflexivity.
  - split; [reflexivity|]. right. split; reflexivity.
Qed.



(** A test either lowers the tracked sum, and then it was in range, the
    library was scored again with the parameters under test and the new
    tracked sum is the sum over that library; or it leaves the flag and
    the tracked sum as they were. *)
Lemma test_change_kept :
  forall T t st,
    let st' := test_change T t st in
    (t = true /\ improved st' = true
     /\ (sumSquaredDev st' < sumSquaredDev st)%Q
     /\ Library st' = score_pass T (parameters_of st) (Library st)
     /\ sumSquaredDev st' = sum_squared T (Library st'))
    \/ (improved st' = improved st /\ sumSquaredDev st' = sumSquaredDev st).
Proof.
  intros T t st. unfold test_change. destruct t; cbv zeta.
  - destruct (Qlt_bool _ _) eqn:E; cbn.
    + left. split; [reflexivity|]. split; [reflexivity|].
      split; [|split; reflexivity].
      unfold Qlt_bool in E. apply negb_true_iff in E.
      now apply Qle_bool_false.
    + right. split; reflexivity.
  - right. split; reflexivity.
Qed.

(** What one block does, entered with [improved] false.  Either nothing is
    kept: the tracked sum is as before, and the scalar is untouched (its
    flag is off) or has been moved down, up twice and down again.  Or a
    change is kept: the scalar is open to optimization, the value kept
    passed the range test of its direction, the library is the one scored
    with the parameters kept, and the tracked sum is the sum over that
    library, strictly below the sum before. *)
Lemma tune_outcome :
  forall T s st,
    improved st = false ->
    let v := value s (parameters_of st) in
    let ref := reference s (parameters_of st) in
    let st' := tune T s st in
    (sumSquaredDev st' = sumSquaredDev st
     /\ (value s (parameters_of st') = v
         \/ value s (parameters_of st') = moved_back v))
    \/ (tunable s (parameters_of st) = true
        /\ (sumSquaredDev st' < sumSquaredDev st)%Q
        /\ sumSquaredDev st' = sum_squared T (Library st')
        /\ (exists L, Library st' = score_pass T (parameters_of st') L)
        /\ ((value s (parameters_of st') = lowered v
             /\ Qle_bool (to_double (ref - maxDev)) (lowered v) = true)
            \/ (value s (parameters_of st') = raised v
                /\ Qle_bool (raised v) (to_double (ref + maxDev)) = true))).
Proof.
  intros T s st Hi. cbv zeta. unfold tune. cbv zeta.
  change (sumSquaredDev (with_improved false ?x)) with (sumSquaredDev x).
  change (parameters_of (with_improved false ?x)) with (parameters_of x).
  change (Library (with_improved false ?x)) with (Library x).
  destruct (tunable s (parameters_of st)) eqn:Et;
    [|left; split; [reflexivity | left; reflexivity]].
  remember (value s (parameters_of st)) as v eqn:Ev.
  remember (reference s (parameters_of st)) as ref eqn:Er.
  set (st1 := change s (- delta) st).
  assert (V1 : value s (parameters_of st1) = lowered v)
    by (subst st1 v; unfold lowered, Qminus; apply change_value).
  assert (R1 : reference s (parameters_of st1) = ref)
    by (subst st1 ref; apply change_reference).
  set (t1 := Qle_bool (to_double (reference s (parameters_of st1) - maxDev))
               (value s (parameters_of st1))).
  set (st2 := test_change T t1 st1).
  assert (P2 : parameters_of st2 = parameters_of st1)
    by exact (proj1 (test_change_cases T t1 st1)).
  destruct (test_change_kept T t1 st1) as [(Ht & I2 & S2 & L2 & Q2) | (I2 & S2)];
    fold st2 in I2, S2.
  - fold st2 in L2, Q2. repeat (rewrite I2; cbn [negb]). right.
    split; [reflexivity|]. split; [exact S2|]. split; [exact Q2|].
    split; [exists (Library st1); rewrite P2; exact L2|].
    left. split; [rewrite P2; exact V1|].
    subst t1. rewrite R1, V1 in Ht. exact Ht.
  - change (improved st1) with (improved st) in I2. rewrite Hi in I2.
    change (sumSquaredDev st1) with (sumSquaredDev st) in S2.
    repeat (rewrite I2; cbn [negb]).
    set (st3 := change s delta (change s delta st2)).
    assert (V3 : value s (parameters_of st3) = raised v).
    { subst st3. rewrite !change_value, P2, V1. unfold raised.
      reflexivity. }
    assert (R3 : reference s (parameters_of st3) = ref).
    { subst st3. rewrite !change_reference, P2. exact R1. }
    set (t3 := Qle_bool (value s (parameters_of st3))
                 (to_double (reference s (parameters_of st3) + maxDev))).
    set (st4 := test_change T t3 st3).
    assert (P4 : parameters_of st4 = parameters_of st3)
      by exact (proj1 (test_change_cases T t3 st3)).
    destruct (test_change_kept T t3 st3)
      as [(Ht & I4 & S4 & L4 & Q4) | (I4 & S4)]; fold st4 in I4, S4.
    + fold st4 in L4, Q4. repeat (rewrite I4; cbn [negb]). right.
      change (sumSquaredDev st3) with (sumSquaredDev st2) in S4.
      split; [reflexivity|]. split; [now rewrite <- S2|]. split; [exact Q4|].
      split; [exists (Library st3); rewrite P4; exact L4|].
      right. split; [rewrite P4; exact V3|].
      subst t3. rewrite R3, V3 in Ht. exact Ht.
    + change (improved st3) with (improved st2) in I4. rewrite I2 in I4.
      change (sumSquaredDev st3) with (sumSquaredDev st2) in S4.
      repeat (rewrite I4; cbn [negb]). left.
      split; [rewrite change_sumSquaredDev; congruence|].
      right. rewrite change_value, P4, V3. unfold moved_back, Qminus.
      reflexivity.
Qed.




Lemma test_change_round :
  forall T t st,
    round (test_change T t st) = round st
    /\ done (test_change T t st) = done st.
Proof.
  intros T t st. unfold test_change. destruct t; cbv zeta;
    [destruct (Qlt_bool _ _)|]; split; reflexivity.
Qed.

Lemma tune_round :
  forall T s st,
    round (tune T s st) = round st /\ done (tune T s st) = done st.
Proof.
  intros T s st. unfold tune. cbv zeta.
  change (round (with_improved false ?x)) with (round x).
  change (done (with_improved false ?x)) with (done x).
  destruct (tunable s (parameters_of st)); [|split; reflexivity].
  set (st2 := test_change T _ (change s (- delta) st)).
  assert (H2 : round st2 = round st /\ done st2 = done st)
    by (subst st2; exact (test_change_round _ _ (change s (- delta) st))).
  destruct (negb (improved st2)) eqn:E2.
  - set (st4 := test_change T _ (change s delta (change s delta st2))).
    assert (H4 : round st4 = round st /\ done st4 = done st).
    { subst st4.
      destruct (test_change_round T
                  (Qle_bool
                     (value s (parameters_of
                                 (change s delta (change s delta st2))))
                     (to_double
                        (reference s (parameters_of
                                        (change s delta (change s delta st2)))
                         + maxDev)))
                  (change s delta (change s delta st2))) as [R D].
      rewrite R, D. exact H2. }
    destruct (negb (improved st4)); exact H4.
  - rewrite E2. exact H2.
Qed.

Lemma tune_fold_round :
  forall T ss st,
    round (fold_left (fun st s => tune T s st) ss st) = round st.
Proof.
  intros T ss. induction ss as [|s ss IH]; intro st; simpl.
  - reflexivity.
  - rewrite IH. apply tune_round.
Qed.

(** The [while] loop ends: from round 0 the rounds are counted up to
    [maxRounds], where [done] is set, so 25 units of fuel reach the exit. *)
Lemma optimize_reaches_done :
  forall fuel T st,
    (done st = true \/ 0 <= round st < maxRounds) ->
    maxRounds - round st <= Z.of_nat fuel ->
    done (optimize fuel T st) = true.
Proof.
  induction fuel as [|fuel IH]; intros T st Hinv Hfuel; simpl.
  - destruct (done st) eqn:E; [exact E|]. unfold maxRounds in *.
    destruct Hinv as [H|H]; [discriminate | lia].
  - destruct (done st) eqn:E; [exact E|].
    destruct Hinv as [H|H]; [discriminate|]. unfold maxRounds in *.
    assert (Hr : round (one_round T st) = round st + 1).
    { unfold one_round. generalize visit_order. intro ss.
      cbv zeta. cbn [round]. rewrite tune_fold_round.
      apply to_short_small. lia. }
    apply IH.
    + destruct (Z_lt_dec (round st + 1) 25) as [Hlt|Hge].
      * right. rewrite Hr. unfold maxRounds. lia.
      * left. unfold one_round. generalize visit_order. intro ss.
        cbv zeta. cbn [done]. rewrite tune_fold_round.
        rewrite to_short_small by lia. unfold maxRounds.
        destruct (Z.geb_spec (round st + 1) 25); [reflexivity | lia].
    + rewrite Hr. unfold maxRounds. lia.
Qed.

(** With the fuel [optimization] gives it, the loop started at round 0
    runs to its exit. *)
Lemma optimize_terminates :
  forall T st,
    round st = 0 ->
    done (optimize (Z.to_nat maxRounds) T st) = true.
Proof.
  intros T st H0. apply optimize_reaches_done.
  - right. rewrite H0. unfold maxRounds. lia.
  - rewrite H0. unfold maxRounds. lia.
Qed.

(** As the source stands, [done] is set before the loop: the parameters
    come out as they went in, and the tracked sum is that of the first
    scoring. *)
Lemma optimization_as_shipped :
  forall T p Lib,
    parameters_of (optimization T p Lib) = p
    /\ sumSquaredDev (optimization T p Lib)
       = sum_squared T (score_pass T p Lib).
Proof. intros. split; reflexivity. Qed.



(** ** The two workers of a scoring pass *)

Lemma fold_store_at :
  forall (f : TripleHelix -> TripleHelix) idx (L : library) n,
    NoDup idx ->
    fold_left (fun L k => store1 L k (f (L k))) idx L n
    = if in_dec Z.eq_dec n idx then f (L n) else L n.
Proof.
  intros f idx. induction idx as [|k idx IH]; intros L n Hnd.
  - reflexivity.
  - inversion Hnd as [|? ? Hk Hnd']; subst. cbn [fold_left].
    rewrite IH by exact Hnd'. unfold store1.
    destruct (in_dec Z.eq_dec n idx) as [Hin|Hout];
      destruct (in_dec Z.eq_dec n (k :: idx)) as [Hin'|Hout'].
    + destruct (Z.eqb_spec n k); [subst; contradiction | reflexivity].
    + exfalso. apply Hout'. now right.
    + destruct Hin' as [E|Hin']; [|contradiction]. subst k.
      now rewrite Z.eqb_refl.
    + destruct (Z.eqb_spec n k); [|reflexivity].
      exfalso. apply Hout'. now left.
Qed.

Lemma ScoreLibrary_at :
  forall start stop p Lib n,
    ScoreLibrary start stop p Lib n
    = if (start <=? n) && (n <? stop) then ScoreHelix p (Lib n) else Lib n.
Proof.
  intros start stop p Lib n. unfold ScoreLibrary.
  rewrite fold_store_at.
  - destruct (in_dec Z.eq_dec n _) as [Hin|Hout].
    + apply in_map_iff in Hin. destruct Hin as [k [<- Hk]].
      apply upto_bound in Hk.
      destruct (Z.leb_spec start (start + k)), (Z.ltb_spec (start + k) stop);
        try lia; reflexivity.
    + destruct (Z.leb_spec start n), (Z.ltb_spec n stop); try reflexivity.
      exfalso. apply Hout. apply in_map_iff. exists (n - start).
      split; [lia|]. apply upto_complete. lia.
  - apply Injective_map_NoDup; [|apply upto_NoDup].
    intros i j Hij. lia.
Qed.

(** The two halves are disjoint: whichever worker runs first, every sample
    below [TotalHelices] is scored once from its own state. *)
Lemma score_pass_any_order :
  forall T p Lib n,
    0 <= T ->
    score_pass T p Lib n
    = ScoreLibrary 0 (Z.quot T 2) p (ScoreLibrary (Z.quot T 2) T p Lib) n
    /\ score_pass T p Lib n
       = if (0 <=? n) && (n <? T) then ScoreHelix p (Lib n) else Lib n.
Proof.
  intros T p Lib n HT. unfold score_pass. rewrite !ScoreLibrary_at.
  pose proof (Z.quot_pos T 2 HT ltac:(lia)) as Hq.
  assert (Hq2 : Z.quot T 2 <= T) by (apply Z.quot_le_upper_bound; lia).
  destruct (Z.leb_spec 0 n), (Z.ltb_spec n (Z.quot T 2)),
    (Z.leb_spec (Z.quot T 2) n), (Z.ltb_spec n T);
    cbn [andb]; try lia; split; reflexivity.
Qed.

(** ** Concrete evaluations *)

(** C1 fails on the code.  On two sites, axial 5 and lateral 3 on the
    first and nothing on the second, [PairWiseCalc] returns 8: the axial
    branch adds its 5 to a sum that still holds the 3 of the lateral
    branch.  The largest sum of an admissible assignment is 5. *)
Theorem C1_PairWiseCalc_exceeds_admissible_maximum :
  (Selector.PairWiseCalc two_sites_axial two_sites_lateral 0 1 9 0 0 == 8)%Q
  /\ (Selector.best_admissible_sum two_sites_axial two_sites_lateral 2 == 5)%Q.
Proof. split; vm_compute; reflexivity. Qed.

(** C3 fails on the code.  With a single site the result is 0 whatever
    the two values are: the first call has [previousPWType = 9], so the
    no-pair branch returns at the last site before a pair is tried.  For
    axial 5 and lateral 3 the documented value is 5. *)
Theorem C3_single_site_returns_zero :
  (forall XPW LPW, (Selector.PairWiseCalc XPW LPW 0 0 9 0 0 == 0)%Q)
  /\ (Selector.PairWiseCalc one_site_axial one_site_lateral 0 0 9 0 0 == 0)%Q
  /\ (Selector.best_admissible_sum one_site_axial one_site_lateral 1 == 5)%Q.
Proof.
  split; [|split].
  - intros. rewrite PairWiseCalc_single_site. reflexivity.
  - vm_compute. reflexivity.
  - vm_compute. reflexivity.
Qed.

(** C6 as stated fails: in (Pro-Hyp-Gly)7 position 18 = numAA - 3 is an
    Xaa position of the last triad, and its proline counts in full.  With
    an Xaa propensity of 3 for proline the propensity of the register is
    57; weights of a third on the three positions at either end give 51. *)
Lemma C6_counterexample_third_from_the_end :
  let p := proline_parameters in
  let h := homotrimer_POG in
  let r := ScoreHelix p h in
  isXaa h (numAA h - 3) = true
  /\ (Propensity r 0 0 0 0 == 57)%Q
  /\ (terminal_terms p h 0 0 0 + residue_sum (triad_weight (numAA h)) p h 0 0 0
      - charge_penalty (netCharge r 0 0 0 0) == 51)%Q
  /\ ~ (Propensity r 0 0 0 0
        == terminal_terms p h 0 0 0
           + residue_sum (triad_weight (numAA h)) p h 0 0 0
           - charge_penalty (netCharge r 0 0 0 0))%Q.
Proof.
  vm_compute. repeat split; try reflexivity. intro H. discriminate H.
Qed.

(** C6 applies to the homotrimer of (Pro-Hyp-Gly)7 and its one register. *)
Lemma C6_witness :
  In (0, 0, 0) (registers (numPep homotrimer_POG))
  /\ (Propensity (ScoreHelix proline_parameters homotrimer_POG) 0 0 0 0
      == terminal_terms proline_parameters homotrimer_POG 0 0 0
         + residue_sum (tip_weight (numAA homotrimer_POG)) proline_parameters
             homotrimer_POG 0 0 0
         - charge_penalty
             (netCharge (ScoreHelix proline_parameters homotrimer_POG)
                0 0 0 0))%Q.
Proof.
  assert (Hin : In (0, 0, 0) (registers (numPep homotrimer_POG)))
    by (vm_compute; left; reflexivity).
  split; [exact Hin|].
  exact (proj2 (proj2
           (C6_propensity_weights proline_parameters homotrimer_POG 0 0 0 Hin))).
Defined.

(** C7 as stated fails: the register (0,0,1) of two peptides with three
    and two lysines has net charge 8, and its propensity is not reduced:
    the quotient of the integers 2 and 3 is 0, not the rational 2/3. *)
Lemma C7_counterexample_net_charge_eight :
  let p := zero_parameters in
  let h := heterotrimer_KK in
  let r := ScoreHelix p h in
  netCharge r 0 0 1 0 = 8
  /\ (rational_charge_penalty 8 == 2 # 3)%Q
  /\ (terminal_terms p h 0 0 1
      + residue_sum (tip_weight (numAA h)) p h 0 0 1 == 0)%Q
  /\ (Propensity r 0 0 1 0 == 0)%Q
  /\ ~ (Propensity r 0 0 1 0
        == terminal_terms p h 0 0 1
           + residue_sum (tip_weight (numAA h)) p h 0 0 1
           - rational_charge_penalty (netCharge r 0 0 1 0))%Q.
Proof.
  vm_compute. repeat split; try reflexivity. intro H. discriminate H.
Qed.

(** C7 applies to the register (0,0,1) of the two lysine peptides, freshly
    loaded. *)
Lemma C7_witness :
  In (0, 0, 1) (registers (numPep heterotrimer_KK))
  /\ netCharge heterotrimer_KK 0 0 1 0 = 0
  /\ 0 <= 3 * numAA heterotrimer_KK <= 32767
  /\ netCharge (ScoreHelix zero_parameters heterotrimer_KK) 0 0 1 0
     = net_charge_sum heterotrimer_KK 0 0 1.
Proof.
  assert (Hin : In (0, 0, 1) (registers (numPep heterotrimer_KK)))
    by (vm_compute; right; left; reflexivity).
  assert (H0 : netCharge heterotrimer_KK 0 0 1 0 = 0) by reflexivity.
  assert (Hlen : 0 <= 3 * numAA heterotrimer_KK <= 32767)
    by (vm_compute; split; discriminate).
  split; [exact Hin|]. split; [exact H0|]. split; [exact Hlen|].
  exact (proj1 (C7_charge_penalty_is_integer_quotient zero_parameters
                  heterotrimer_KK 0 0 1 Hin H0 Hlen)).
Defined.

(** C8 fails on the code: [ScoreHelix] zeroes [Propensity], [PairWise] and
    [Tm] on entry but not [netCharge] and [totalCharge], which it only
    increments.  A homotrimer with three lysines has net charge 9 and
    Tm -1 after the first call, net charge 18 and Tm -4 after the second;
    the deviations are -31 and -34. *)
Theorem C8_second_call_differs :
  let r1 := ScoreHelix zero_parameters homotrimer_KKK in
  let r2 := ScoreHelix zero_parameters r1 in
  netCharge r1 0 0 0 0 = 9 /\ netCharge r2 0 0 0 0 = 18
  /\ totalCharge r1 0 0 0 0 = 9 /\ totalCharge r2 0 0 0 0 = 18
  /\ (Propensity r1 0 0 0 0 == -1)%Q /\ (Propensity r2 0 0 0 0 == -4)%Q
  /\ (Tm r1 0 0 0 0 == -1)%Q /\ (Tm r2 0 0 0 0 == -4)%Q
  /\ (deviation r1 == -31)%Q /\ (deviation r2 == -34)%Q.
Proof. vm_compute. repeat split; reflexivity. Qed.


(** C10 applies to the homotrimer of (Pro-Hyp-Gly)7, whose Tm is 0 with
    all parameters zero. *)
Lemma C10_witness :
  numPep homotrimer_POG = 1
  /\ (-1000 <= Tm (ScoreHelix zero_parameters homotrimer_POG) 0 0 0 0)%Q
  /\ secTm (ScoreHelix zero_parameters homotrimer_POG) = (-1000)%Q
  /\ secRegister (ScoreHelix zero_parameters homotrimer_POG) = (6, 6, 6, 11)
  /\ (specificity (ScoreHelix zero_parameters homotrimer_POG)
      == HighTm (ScoreHelix zero_parameters homotrimer_POG) + 1000)%Q.
Proof.
  assert (Hn : numPep homotrimer_POG = 1) by reflexivity.
  assert (Htm : (-1000 <= Tm (ScoreHelix zero_parameters homotrimer_POG)
                            0 0 0 0)%Q)
    by (vm_compute; discriminate).
  split; [exact Hn|]. split; [exact Htm|].
  exact (C10_single_peptide_second_best_is_sentinel zero_parameters
           homotrimer_POG Hn Htm).
Defined.
(** ** The selector between the values it adds up *)

Lemma stabilizing_nonneg : forall v, (0 <= stabilizing v)%Q.
Proof.
  intro v. unfold stabilizing.
  destruct (Qlt_bool 0 v) eqn:E; [|apply Qle_refl].
  apply Qlt_le_weak, Qlt_bool_true, E.
Qed.

Lemma add_stabilizing_eq :
  forall s v, Selector.add_stabilizing s v = (if Qlt_bool 0 v then s + v else s)%Q.
Proof. reflexivity. Qed.

Lemma add_stabilizing_bounds :
  forall s v,
    (s <= Selector.add_stabilizing s v)%Q
    /\ (Selector.add_stabilizing s v <= s + stabilizing v)%Q.
Proof.
  intros s v. unfold Selector.add_stabilizing, stabilizing.
  destruct (Qlt_bool 0 v) eqn:E.
  - apply Qlt_bool_true in E. split; lra.
  - split; lra.
Qed.

Lemma stabilizing_total_nonneg :
  forall XPW LPW n i, (0 <= stabilizing_total XPW LPW i n)%Q.
Proof.
  intros XPW LPW n. induction n as [|n IH]; intro i; cbn.
  - apply Qle_refl.
  - pose proof (stabilizing_nonneg (LPW i)).
    pose proof (stabilizing_nonneg (XPW i)).
    specialize (IH (i + 1)). lra.
Qed.

Lemma record_best_lower :
  forall s b, (b <= Selector.record_best s b)%Q.
Proof.
  intros s b. unfold Selector.record_best.
  destruct (Qlt_bool b s) eqn:E.
  - apply Qlt_le_weak, Qlt_bool_true, E.
  - apply Qle_refl.
Qed.

Lemma record_best_upper :
  forall s b M, (s <= M)%Q -> (b <= M)%Q -> (Selector.record_best s b <= M)%Q.
Proof.
  intros s b M Hs Hb. unfold Selector.record_best.
  destruct (Qlt_bool b s); assumption.
Qed.

Lemma PairWiseCalc_fuel_lower :
  forall fuel XPW LPW currentPair lastPair previousPWType sum best,
    (best <= Selector.PairWiseCalc_fuel fuel XPW LPW currentPair lastPair
               previousPWType sum best)%Q.
Proof.
  induction fuel as [|fuel IH]; intros XPW LPW cur last prev sum best.
  - apply Qle_refl.
  - cbn [Selector.PairWiseCalc_fuel]. cbv zeta.
    destruct (cur >? last); [apply Qle_refl|].
    destruct (negb (prev =? 0)) eqn:E0; cbn [andb];
      destruct (negb (prev =? 2)) eqn:E2; cbn [andb];
      destruct (cur =? last);
      repeat first
        [ apply record_best_lower
        | apply Qle_refl
        | eapply Qle_trans; [|apply IH]
        | eapply Qle_trans; [|apply record_best_lower] ].
Qed.

Lemma PairWiseCalc_fuel_upper :
  forall fuel XPW LPW currentPair lastPair previousPWType sum best M,
    (best <= M)%Q ->
    (sum + stabilizing_total XPW LPW currentPair fuel <= M)%Q ->
    (Selector.PairWiseCalc_fuel fuel XPW LPW currentPair lastPair
       previousPWType sum best <= M)%Q.
Proof.
  induction fuel as [|fuel IH]; intros XPW LPW cur last prev sum best M Hb Hs.
  - exact Hb.
  - cbn [Selector.PairWiseCalc_fuel stabilizing_total] in *. cbv zeta.
    pose proof (stabilizing_total_nonneg XPW LPW fuel (cur + 1)) as Ht.
    pose proof (stabilizing_nonneg (LPW cur)) as HL.
    pose proof (stabilizing_nonneg (XPW cur)) as HX.
    pose proof (add_stabilizing_bounds sum (LPW cur)) as [HL1 HL2].
    pose proof (add_stabilizing_bounds sum (XPW cur)) as [HX1 HX2].
    pose proof (add_stabilizing_bounds
                  (Selector.add_stabilizing sum (LPW cur)) (XPW cur))
      as [HLX1 HLX2].
    destruct (cur >? last); [exact Hb|].
    destruct (negb (prev =? 0)) eqn:E0; cbn [andb];
      destruct (negb (prev =? 2)) eqn:E2; cbn [andb];
      destruct (cur =? last);
      repeat first
        [ apply record_best_upper
        | apply IH
        | lra ].
Qed.

Lemma Qmax_upper_left : forall a b, (a <= Selector.Qmax a b)%Q.
Proof.
  intros a b. unfold Selector.Qmax. destruct (Qlt_bool a b) eqn:E.
  - apply Qlt_le_weak, Qlt_bool_true, E.
  - apply Qle_refl.
Qed.

Lemma Qmax_upper_right : forall a b, (b <= Selector.Qmax a b)%Q.
Proof.
  intros a b. unfold Selector.Qmax. destruct (Qlt_bool a b) eqn:E.
  - apply Qle_refl.
  - apply Qlt_bool_false, E.
Qed.

Lemma stabilizing_total_zero :
  forall XPW LPW n i,
    (forall j, i <= j < i + Z.of_nat n -> (LPW j <= 0)%Q /\ (XPW j <= 0)%Q) ->
    (stabilizing_total XPW LPW i n == 0)%Q.
Proof.
  intros XPW LPW n. induction n as [|n IH]; intros i H; cbn [stabilizing_total].
  - reflexivity.
  - rewrite IH by (intros j Hj; apply H; lia).
    destruct (H i ltac:(lia)) as [HL HX].
    unfold stabilizing.
    destruct (Qlt_bool 0 (LPW i)) eqn:EL;
      [apply Qlt_bool_true in EL; lra|].
    destruct (Qlt_bool 0 (XPW i)) eqn:EX;
      [apply Qlt_bool_true in EX; lra|].
    lra.
Qed.

(** X1.  Whatever the arguments, the value [PairWiseCalc] returns is at
    least the best total it was given, and at most the larger of that best
    total and the running sum plus all the stabilizing (positive) values of
    both threads on the sites from [currentPair] to [lastPair].  In the
    call of [ScoreHelix] (sum and best total 0) it is therefore never
    negative and never more than the stabilizing values together. *)
Theorem PairWiseCalc_between_best_and_stabilizing_total :
  forall XPW LPW currentPair lastPair previousPWType sum best,
    let sites := Z.to_nat (lastPair - currentPair + 1) in
    let r := Selector.PairWiseCalc XPW LPW currentPair lastPair
               previousPWType sum best in
    (best <= r)%Q
    /\ (r <= Selector.Qmax best
               (sum + stabilizing_total XPW LPW currentPair sites))%Q
    /\ forall numYaa l,
         (0 <= best_stabilizing numYaa l)%Q
         /\ (best_stabilizing numYaa l
             <= stabilizing_total (XinteractionThread l)
                  (LinteractionThread l) 0 (Z.to_nat (numYaa + 1)))%Q.
Proof.
  intros XPW LPW cur last prev sum best sites r.
  split; [apply PairWiseCalc_fuel_lower|].
  split.
  - apply PairWiseCalc_fuel_upper.
    + apply Qmax_upper_left.
    + apply Qmax_upper_right.
  - intros numYaa l. unfold best_stabilizing, Selector.PairWiseCalc. split.
    + apply PairWiseCalc_fuel_lower.
    + apply PairWiseCalc_fuel_upper.
      * apply stabilizing_total_nonneg.
      * replace (numYaa - 0 + 1) with (numYaa + 1) by lia. lra.
Qed.

(** X2.  When no value of either thread is positive on the sites from
    [currentPair] to [lastPair] and the running sum does not exceed the
    best total, [PairWiseCalc] returns the best total it was given: the
    selector never picks up a destabilizing value.  In the call of
    [ScoreHelix] the stabilizing part of such a thread is 0. *)
Theorem PairWiseCalc_without_stabilizing_values :
  forall XPW LPW currentPair lastPair previousPWType sum best,
    (forall i, currentPair <= i <= lastPair ->
               (LPW i <= 0)%Q /\ (XPW i <= 0)%Q) ->
    (sum <= best)%Q ->
    (Selector.PairWiseCalc XPW LPW currentPair lastPair previousPWType
       sum best == best)%Q.
Proof.
  intros XPW LPW cur last prev sum best Hneg Hsum.
  apply Qle_antisym.
  - apply PairWiseCalc_fuel_upper; [apply Qle_refl|].
    rewrite stabilizing_total_zero; [lra|].
    intros j Hj. apply Hneg.
    destruct (Z_le_gt_dec cur last) as [Hle|Hgt].
    + rewrite Z2Nat.id in Hj by lia. lia.
    + replace (Z.to_nat (last - cur + 1)) with 0%nat in Hj by lia. lia.
  - apply PairWiseCalc_fuel_lower.
Qed.

Lemma PairWiseCalc_without_stabilizing_values_witness :
  (Selector.PairWiseCalc (darray_of [-1; -2]%Q) (darray_of [0; -3]%Q)
     0 1 9 0 0 == 0)%Q.
Proof.
  apply PairWiseCalc_without_stabilizing_values.
  - intros i Hi.
    assert (i = 0 \/ i = 1) as [-> | ->] by lia;
      split; vm_compute; discriminate.
  - lra.
Defined.

(** ** Roles of the positions and the phase *)

Lemma role_nonneg :
  forall X x, 0 <= x + (3 - X) -> role X x = (x + (3 - X)) mod 3.
Proof.
  intros X x H. unfold role.
  rewrite Z.abs_eq by exact H.
  apply Z.rem_mod_nonneg; lia.
Qed.

Lemma role_range : forall X x, 0 <= role X x < 3.
Proof.
  intros X x. unfold role.
  apply Z.rem_bound_pos; [apply Z.abs_nonneg | lia].
Qed.

Lemma mod3_eqb_shift :
  forall x k t,
    0 <= t < 3 ->
    ((x + k) mod 3 =? t) = (x mod 3 =? (t - k) mod 3).
Proof.
  intros x k t Ht.
  destruct (Z.eqb_spec ((x + k) mod 3) t) as [E|E];
    destruct (Z.eqb_spec (x mod 3) ((t - k) mod 3)) as [F|F];
    try reflexivity; exfalso.
  - apply F. clear F. subst t.
    Z.div_mod_to_equations. lia.
  - apply E. clear E.
    Z.div_mod_to_equations. lia.
Qed.

(** X3.  At every position exactly one of [isXaa], [isYaa] and [isGly]
    holds.  With a phase in 0..2 and a position that is not negative, the
    Xaa positions are those congruent to [XaaPos] modulo 3, the Yaa
    positions the next ones and the Gly positions the ones after. *)
Theorem roles_partition_the_positions :
  forall h x,
    0 <= XaaPos h <= 2 ->
    0 <= x ->
    isXaa h x = (x mod 3 =? XaaPos h)
    /\ isYaa h x = (x mod 3 =? (XaaPos h + 1) mod 3)
    /\ isGly h x = (x mod 3 =? (XaaPos h + 2) mod 3)
    /\ (if isXaa h x then 1 else 0) + (if isYaa h x then 1 else 0)
       + (if isGly h x then 1 else 0) = 1.
Proof.
  intros h x HX Hx. unfold isXaa, isYaa, isGly.
  rewrite role_nonneg by lia.
  rewrite !mod3_eqb_shift by lia.
  assert (E0 : (0 - (3 - XaaPos h)) mod 3 = XaaPos h)
    by (Z.div_mod_to_equations; lia).
  assert (E1 : (1 - (3 - XaaPos h)) mod 3 = (XaaPos h + 1) mod 3)
    by (Z.div_mod_to_equations; lia).
  assert (E2 : (2 - (3 - XaaPos h)) mod 3 = (XaaPos h + 2) mod 3)
    by (Z.div_mod_to_equations; lia).
  rewrite E0, E1, E2. repeat split.
  destruct (Z.eqb_spec (x mod 3) (XaaPos h));
    destruct (Z.eqb_spec (x mod 3) ((XaaPos h + 1) mod 3));
    destruct (Z.eqb_spec (x mod 3) ((XaaPos h + 2) mod 3));
    Z.div_mod_to_equations; lia.
Qed.

Lemma roles_partition_the_positions_witness :
  isXaa homotrimer_POG 3 = (3 mod 3 =? XaaPos homotrimer_POG)
  /\ isYaa homotrimer_POG 3 = (3 mod 3 =? (XaaPos homotrimer_POG + 1) mod 3)
  /\ isGly homotrimer_POG 3 = (3 mod 3 =? (XaaPos homotrimer_POG + 2) mod 3)
  /\ (if isXaa homotrimer_POG 3 then 1 else 0)
     + (if isYaa homotrimer_POG 3 then 1 else 0)
     + (if isGly homotrimer_POG 3 then 1 else 0) = 1.
Proof.
  apply (roles_partition_the_positions homotrimer_POG 3).
  - vm_compute. split; discriminate.
  - lia.
Defined.

(** The phase after the three tests of [determine_reptition]. *)
Lemma determine_reptition_cases :
  forall h,
    let t := Z.quot (numAA h) 3 in
    let g := track_glycines h in
    determine_reptition h
    = if g 2 >=? t then (set_XaaPos 0 h, false)
      else if g 1 >=? t then (set_XaaPos 2 h, false)
      else if g 0 >=? t then (set_XaaPos 1 h, false)
      else (h, true).
Proof.
  intros h t g. unfold determine_reptition.
  rewrite gly_counts_tracks. subst t g.
  assert (N : forall v k, numAA (set_XaaPos v k) = numAA k) by reflexivity.
  destruct (track_glycines h 0 >=? Z.quot (numAA h) 3);
    cbv beta iota; rewrite ?N;
    (destruct (track_glycines h 1 >=? Z.quot (numAA h) 3);
     cbv beta iota; rewrite ?N;
     (destruct (track_glycines h 2 >=? Z.quot (numAA h) 3);
      reflexivity)).
Qed.

Lemma track_glycines_set_XaaPos :
  forall v h r, track_glycines (set_XaaPos v h) r = track_glycines h r.
Proof. reflexivity. Qed.

(** X4.  A sample that [determine_reptition] does not flag has a track
    [t] of chain 0 with at least [numAA / 3] glycines, and the phase it
    gets puts the Gly role exactly on the positions of that track, the Xaa
    role on the positions after them and the Yaa role on those before. *)
Theorem accepted_phase_puts_Gly_on_a_glycine_track :
  forall h,
    snd (determine_reptition h) = false ->
    let h' := fst (determine_reptition h) in
    exists t,
      0 <= t <= 2
      /\ track_glycines h t >= Z.quot (numAA h) 3
      /\ XaaPos h' = (t + 1) mod 3
      /\ forall x, 0 <= x ->
           isGly h' x = (x mod 3 =? t)
           /\ isXaa h' x = (x mod 3 =? (t + 1) mod 3)
           /\ isYaa h' x = (x mod 3 =? (t + 2) mod 3).
Proof.
  intros h Hflag h'. subst h'. revert Hflag.
  rewrite determine_reptition_cases.
  assert (R : forall v t,
             0 <= v <= 2 -> 0 <= t <= 2 -> v = (t + 1) mod 3 ->
             forall x, 0 <= x ->
               isGly (set_XaaPos v h) x = (x mod 3 =? t)
               /\ isXaa (set_XaaPos v h) x = (x mod 3 =? (t + 1) mod 3)
               /\ isYaa (set_XaaPos v h) x = (x mod 3 =? (t + 2) mod 3)).
  { intros v t Hv Ht E x Hx.
    unfold isXaa, isYaa, isGly.
    replace (XaaPos (set_XaaPos v h)) with v by reflexivity.
    rewrite role_nonneg by lia.
    rewrite !mod3_eqb_shift by lia.
    replace ((2 - (3 - v)) mod 3) with t
      by (Z.div_mod_to_equations; lia).
    replace ((0 - (3 - v)) mod 3) with ((t + 1) mod 3)
      by (Z.div_mod_to_equations; lia).
    replace ((1 - (3 - v)) mod 3) with ((t + 2) mod 3)
      by (Z.div_mod_to_equations; lia).
    repeat split. }
  destruct (track_glycines h 2 >=? Z.quot (numAA h) 3) eqn:E2.
  { intros _. exists 2. cbn [fst]. repeat split; try lia.
    all: try (apply R; try lia; reflexivity). }
  destruct (track_glycines h 1 >=? Z.quot (numAA h) 3) eqn:E1.
  { intros _. exists 1. cbn [fst]. repeat split; try lia.
    all: try (apply R; try lia; reflexivity). }
  destruct (track_glycines h 0 >=? Z.quot (numAA h) 3) eqn:E0.
  { intros _. exists 0. cbn [fst]. repeat split; try lia.
    all: try (apply R; try lia; reflexivity). }
  cbn [snd]. discriminate.
Qed.

Lemma accepted_phase_puts_Gly_on_a_glycine_track_witness :
  exists t,
    0 <= t <= 2
    /\ track_glycines seven_glycines t >= Z.quot (numAA seven_glycines) 3
    /\ XaaPos (fst (determine_reptition seven_glycines)) = (t + 1) mod 3
    /\ forall x, 0 <= x ->
         isGly (fst (determine_reptition seven_glycines)) x = (x mod 3 =? t)
         /\ isXaa (fst (determine_reptition seven_glycines)) x
            = (x mod 3 =? (t + 1) mod 3)
         /\ isYaa (fst (determine_reptition seven_glycines)) x
            = (x mod 3 =? (t + 2) mod 3).
Proof.
  apply (accepted_phase_puts_Gly_on_a_glycine_track seven_glycines).
  vm_compute. reflexivity.
Defined.

(** X5.  [determine_reptition] writes nothing but the phase: every other
    member of the sample is as before.  Running it again changes nothing
    and gives the same verdict. *)
Theorem determine_reptition_writes_only_the_phase :
  forall h,
    let h' := fst (determine_reptition h) in
    h' = set_XaaPos (XaaPos h') h
    /\ (forall r, track_glycines h' r = track_glycines h r)
    /\ determine_reptition h' = determine_reptition h.
Proof.
  intro h. cbv zeta.
  assert (S1 : forall v w k, set_XaaPos v (set_XaaPos w k) = set_XaaPos v k)
    by reflexivity.
  assert (S2 : forall k, set_XaaPos (XaaPos k) k = k)
    by (intro k; destruct k; reflexivity).
  rewrite (determine_reptition_cases (fst (determine_reptition h))).
  rewrite (determine_reptition_cases h).
  destruct (track_glycines h 2 >=? Z.quot (numAA h) 3) eqn:E2;
    [|destruct (track_glycines h 1 >=? Z.quot (numAA h) 3) eqn:E1;
      [|destruct (track_glycines h 0 >=? Z.quot (numAA h) 3) eqn:E0]];
    cbn [fst];
    rewrite ?track_glycines_set_XaaPos;
    change (numAA (set_XaaPos 0 h)) with (numAA h);
    change (numAA (set_XaaPos 1 h)) with (numAA h);
    change (numAA (set_XaaPos 2 h)) with (numAA h);
    rewrite ?E2, ?E1, ?E0, ?S1;
    repeat split; try reflexivity; symmetry; apply S2.
Qed.

(** The positions of a track among the first [n]. *)
Lemma track_size :
  forall t n,
    0 <= t <= 2 ->
    Z.of_nat (List.length
      (filter (fun x => x mod 3 =? t) (map Z.of_nat (seq 0 n))))
    = (Z.of_nat n + 2 - t) / 3.
Proof.
  intros t n Ht. induction n as [|n IH].
  - cbn [seq map filter List.length]. change (Z.of_nat 0) with 0.
    Z.div_mod_to_equations. lia.
  - rewrite seq_S, map_app, filter_app, length_app, Nat2Z.inj_add, IH.
    cbn [map filter Nat.add].
    destruct (Z.eqb_spec (Z.of_nat n mod 3) t) as [E|E]; cbn [List.length].
    + rewrite Nat2Z.inj_succ. Z.div_mod_to_equations. lia.
    + rewrite Nat2Z.inj_succ. Z.div_mod_to_equations. lia.
Qed.

Lemma filter_and_all :
  forall X (f g : X -> bool) l,
    (forall x, In x l -> f x = true -> g x = true) ->
    filter (fun x => f x && g x) l = filter f l.
Proof.
  intros X f g l H. induction l as [|x l IH]; [reflexivity|].
  cbn [filter]. rewrite IH by (intros y Hy; apply H; right; exact Hy).
  destruct (f x) eqn:E; [|reflexivity].
  rewrite (H x (or_introl eq_refl) E). reflexivity.
Qed.

(** X6.  A sample whose chain 0 has a glycine at every position of one
    track (every third residue, from position [t] on) is never flagged by
    [determine_reptition], whatever its length. *)
Theorem glycine_at_every_third_position_is_accepted :
  forall h t,
    0 <= t <= 2 ->
    (forall x, 0 <= x < numAA h -> x mod 3 = t -> sequences h 0 x = "G"%char) ->
    snd (determine_reptition h) = false
    /\ 0 <= XaaPos (fst (determine_reptition h)) <= 2.
Proof.
  intros h t Ht HG.
  assert (Hn : track_glycines h t >= Z.quot (numAA h) 3).
  { unfold track_glycines.
    rewrite filter_and_all.
    - unfold upto. rewrite track_size by exact Ht.
      destruct (Z_le_gt_dec 0 (numAA h)) as [Hpos|Hneg].
      + rewrite Z2Nat.id by exact Hpos.
        rewrite Z.quot_div_nonneg by lia.
        Z.div_mod_to_equations. lia.
      + replace (Z.to_nat (numAA h)) with 0%nat by lia.
        pose proof (Z.quot_opp_l (- numAA h) 3 ltac:(lia)) as Hq.
        rewrite Z.opp_involutive in Hq. rewrite Hq.
        pose proof (Z.quot_pos (- numAA h) 3 ltac:(lia) ltac:(lia)).
        change (Z.of_nat 0) with 0.
        Z.div_mod_to_equations. lia.
    - intros x Hx E. apply upto_bound in Hx.
      apply Z.eqb_eq in E. rewrite (HG x Hx E). reflexivity. }
  rewrite determine_reptition_cases.
  destruct (track_glycines h 2 >=? Z.quot (numAA h) 3) eqn:E2;
    [cbn; lia|].
  destruct (track_glycines h 1 >=? Z.quot (numAA h) 3) eqn:E1;
    [cbn; lia|].
  destruct (track_glycines h 0 >=? Z.quot (numAA h) 3) eqn:E0;
    [cbn; lia|].
  exfalso.
  assert (t = 0 \/ t = 1 \/ t = 2) as [-> | [-> | ->]] by lia; lia.
Qed.

Lemma glycine_at_every_third_position_is_accepted_witness :
  snd (determine_reptition homotrimer_POG) = false
  /\ 0 <= XaaPos (fst (determine_reptition homotrimer_POG)) <= 2.
Proof.
  apply (glycine_at_every_third_position_is_accepted homotrimer_POG 2).
  - lia.
  - intros x Hx E.
    change (numAA homotrimer_POG) with 21 in Hx.
    assert (x = 2 \/ x = 5 \/ x = 8 \/ x = 11 \/ x = 14 \/ x = 17 \/ x = 20)
      as [-> | [-> | [-> | [-> | [-> | [-> | ->]]]]]]
      by (Z.div_mod_to_equations; lia);
      vm_compute; reflexivity.
Defined.

(** ** What [ScoreHelix] leaves in the sample *)

Lemma set_final_deviation_tables :
  forall m h,
    let h' := set_final_deviation m h in
    same_sample h h'
    /\ PairWise h' = PairWise h /\ totalCharge h' = totalCharge h
    /\ bestPropensity h' = bestPropensity h
    /\ bestPairwise h' = bestPairwise h.
Proof.
  intros m h. unfold set_final_deviation. cbv zeta.
  repeat match goal with
  | |- context [if ?t then _ else _] => destruct t
  end; cbn; repeat split; reflexivity.
Qed.

Lemma conclude_tables :
  forall l h,
    let h' := conclude l h in
    same_sample h h'
    /\ PairWise h' = PairWise h /\ totalCharge h' = totalCharge h
    /\ bestPropensity h' = at_reg (Propensity h) (bestReg l)
    /\ bestPairwise h' = at_reg (PairWise h) (bestReg l).
Proof.
  intros l h. unfold conclude. cbv zeta.
  match goal with
  | |- context [set_final_deviation ?m ?x] =>
      destruct (set_final_deviation_tables m x)
        as (HS & HW & HT & HP & HB)
  end.
  cbv zeta in *. rewrite HW, HT, HP, HB.
  split; [|cbn; repeat split; reflexivity].
  eapply same_sample_trans; [|exact HS].
  constructor; reflexivity.
Qed.

Lemma conclude_cells :
  forall l h a b c, same_cells a b c h (conclude l h).
Proof.
  intros l h a b c.
  destruct (conclude_keeps l h) as (HP & HN & HT & _).
  destruct (conclude_tables l h) as (_ & HW & HC & _).
  cbv zeta in *. constructor; congruence.
Qed.

Lemma ScoreHelix_same_sample : forall p h, same_sample h (ScoreHelix p h).
Proof.
  intros p h. rewrite ScoreHelix_eq.
  eapply same_sample_trans; [apply prepare_same_sample|].
  eapply same_sample_trans;
    [|apply (conclude_tables (snd (scored_state p h)) (fst (scored_state p h)))].
  apply (score_registers_same_sample p (Z.quot (numAA h) 3)
           (registers (numPep h)) (prepare h, initial_locals)).
Qed.

(** X7.  [ScoreHelix] reads the data of a sample and never writes them:
    the number of peptides, the length, the sequences, the two termini,
    the experimental Tm and the phase are after the call what they were
    before, whatever the parameters. *)
Theorem ScoreHelix_never_writes_the_sample_data :
  forall p h,
    numPep (ScoreHelix p h) = numPep h
    /\ numAA (ScoreHelix p h) = numAA h
    /\ sequences (ScoreHelix p h) = sequences h
    /\ Nterm (ScoreHelix p h) = Nterm h
    /\ Cterm (ScoreHelix p h) = Cterm h
    /\ expTm (ScoreHelix p h) = expTm h
    /\ XaaPos (ScoreHelix p h) = XaaPos h.
Proof.
  intros p h.
  destruct (ScoreHelix_same_sample p h) as [H1 H2 H3 H4 H5 H6 H7].
  repeat split; assumption.
Qed.

(** The cells of a scored register at the end are those [score_register]
    left. *)
Lemma ScoreHelix_register_cells :
  forall p h a b c,
    In (a, b, c) (registers (numPep h)) ->
    exists hb lb,
      same_sample h hb
      /\ same_cells a b c (prepare h) hb
      /\ same_cells a b c
           (fst (score_register p a b c 0 (Z.quot (numAA h) 3) (hb, lb)))
           (ScoreHelix p h).
Proof.
  intros p h a b c Hin.
  destruct (score_registers_at p (Z.quot (numAA h) 3) (registers (numPep h))
              (prepare h, initial_locals) a b c (registers_NoDup _) Hin)
    as [hb [lb [Hs [Hc Hf]]]].
  exists hb, lb. cbn [fst] in Hs, Hc.
  split; [eapply same_sample_trans; [apply prepare_same_sample | exact Hs]|].
  split; [exact Hc|].
  rewrite ScoreHelix_eq. fold (scored_state p h) in Hf.
  unfold register_body in Hf.
  destruct (score_register p a b c 0 (Z.quot (numAA h) 3) (hb, lb))
    as [h1 l1].
  cbn [fst] in *.
  eapply same_cells_trans; [apply remember_CC_cells|].
  eapply same_cells_trans; [exact Hf|].
  apply conclude_cells.
Qed.

Lemma score_register_Tm :
  forall p a b c d numYaa h l,
    let h1 := fst (score_register p a b c d numYaa (h, l)) in
    Tm h1 a b c d = (Propensity h1 a b c d + PairWise h1 a b c d)%Q.
Proof.
  intros p a b c d numYaa h l. cbv zeta.
  rewrite score_register_fst.
  generalize (fst (set_pairwise p a b c d numYaa (trim_canonical h a b c)
                     (before_pairwise p a b c d h, l))).
  intro k. unfold set_Tm_cell.
  change (Tm (set_Tm ?g k)) with g.
  change (Propensity (set_Tm ?g k)) with (Propensity k).
  change (PairWise (set_Tm ?g k)) with (PairWise k).
  apply gstore_same.
Qed.

(** X8.  After [ScoreHelix] the Tm of every scored register is the sum of
    its propensity and its pairwise term, both as the sample holds them. *)
Theorem scored_Tm_is_propensity_plus_pairwise :
  forall p h a b c,
    In (a, b, c) (registers (numPep h)) ->
    Tm (ScoreHelix p h) a b c 0
    = (Propensity (ScoreHelix p h) a b c 0
       + PairWise (ScoreHelix p h) a b c 0)%Q.
Proof.
  intros p h a b c Hin.
  destruct (ScoreHelix_register_cells p h a b c Hin)
    as [hb [lb [_ [_ [HP HW _ _ HT]]]]].
  rewrite HP, HW, HT.
  apply score_register_Tm.
Qed.

Lemma scored_Tm_is_propensity_plus_pairwise_witness :
  Tm (ScoreHelix proline_parameters homotrimer_POG) 0 0 0 0
  = (Propensity (ScoreHelix proline_parameters homotrimer_POG) 0 0 0 0
     + PairWise (ScoreHelix proline_parameters homotrimer_POG) 0 0 0 0)%Q.
Proof.
  apply (scored_Tm_is_propensity_plus_pairwise proline_parameters
           homotrimer_POG 0 0 0).
  vm_compute. left. reflexivity.
Defined.

(** The cell [(a, b, c, d)] is none of those of the registers [rs]. *)
Lemma score_registers_off_cells :
  forall p numYaa rs st a b c d,
    (forall a' b' c', In (a', b', c') rs -> (a, b, c, d) <> (a', b', c', 0)) ->
    let h' := fst (score_registers p numYaa rs st) in
    Propensity h' a b c d = Propensity (fst st) a b c d
    /\ PairWise h' a b c d = PairWise (fst st) a b c d
    /\ Tm h' a b c d = Tm (fst st) a b c d
    /\ netCharge h' a b c d = netCharge (fst st) a b c d
    /\ totalCharge h' a b c d = totalCharge (fst st) a b c d.
Proof.
  intros p numYaa rs. induction rs as [|r rs IH]; intros st a b c d Hne.
  - cbn. repeat split; reflexivity.
  - rewrite score_registers_cons. cbv zeta.
    destruct (IH (body p numYaa st r) a b c d) as (I1 & I2 & I3 & I4 & I5).
    { intros a' b' c' Hin. apply Hne. right. exact Hin. }
    cbv zeta in *. rewrite I1, I2, I3, I4, I5.
    destruct r as [[a' b'] c']. rewrite body_eq.
    destruct (frame_register_body p a' b' c' 0 numYaa st)
      as [_ _ _ _ _ _ _ _ HP HW HN HT HM].
    specialize (Hne a' b' c' (or_introl eq_refl)).
    cbn [kept] in *.
    rewrite (HP a b c d Hne), (HW a b c d Hne), (HM a b c d Hne),
      (HN a b c d Hne), (HT a b c d Hne).
    repeat split; reflexivity.
Qed.

(** X9.  [ScoreHelix] zeroes the three tables of doubles and fills only
    the cells of the registers it scores: in every other cell of the
    tables (another offset, or a peptide index that is not below
    [numPep]) the propensity, the pairwise term and the Tm are 0
    afterwards, and the two charge counters are what they were. *)
Theorem unscored_cells_are_zero :
  forall p h a b c d,
    0 <= a < 3 -> 0 <= b < 3 -> 0 <= c < 3 -> 0 <= d < 9 ->
    ~ (In (a, b, c) (registers (numPep h)) /\ d = 0) ->
    Propensity (ScoreHelix p h) a b c d = 0%Q
    /\ PairWise (ScoreHelix p h) a b c d = 0%Q
    /\ Tm (ScoreHelix p h) a b c d = 0%Q
    /\ netCharge (ScoreHelix p h) a b c d = netCharge h a b c d
    /\ totalCharge (ScoreHelix p h) a b c d = totalCharge h a b c d.
Proof.
  intros p h a b c d _ _ _ _ Hnot.
  rewrite ScoreHelix_eq.
  destruct (conclude_keeps (snd (scored_state p h)) (fst (scored_state p h)))
    as (HP & HN & HT & _).
  destruct (conclude_tables (snd (scored_state p h)) (fst (scored_state p h)))
    as (_ & HW & HC & _).
  cbv zeta in *. rewrite HP, HN, HT, HW, HC.
  unfold scored_state.
  destruct (score_registers_off_cells p (Z.quot (numAA h) 3)
              (registers (numPep h)) (prepare h, initial_locals) a b c d)
    as (I1 & I2 & I3 & I4 & I5).
  { intros a' b' c' Hin E. apply Hnot.
    injection E as -> -> -> ->. split; [exact Hin | reflexivity]. }
  cbv zeta in *. rewrite I1, I2, I3, I4, I5.
  repeat split; reflexivity.
Qed.

Lemma unscored_cells_are_zero_witness :
  Propensity (ScoreHelix proline_parameters homotrimer_POG) 1 0 0 0 = 0%Q
  /\ PairWise (ScoreHelix proline_parameters homotrimer_POG) 1 0 0 0 = 0%Q
  /\ Tm (ScoreHelix proline_parameters homotrimer_POG) 1 0 0 0 = 0%Q
  /\ netCharge (ScoreHelix proline_parameters homotrimer_POG) 1 0 0 0
     = netCharge homotrimer_POG 1 0 0 0
  /\ totalCharge (ScoreHelix proline_parameters homotrimer_POG) 1 0 0 0
     = totalCharge homotrimer_POG 1 0 0 0.
Proof.
  apply (unscored_cells_are_zero proline_parameters homotrimer_POG 1 0 0 0);
    try lia.
  intros [Hin _]. vm_compute in Hin.
  destruct Hin as [E | []]. discriminate E.
Defined.

(** ** The best, the second best and the correct composition *)

Lemma last_best_upper :
  forall tmf els tm0 reg0 tm reg,
    last_best tmf els tm0 reg0 tm reg ->
    (tm0 <= tm)%Q /\ forall r, In r els -> (tmf r <= tm)%Q.
Proof.
  intros tmf els tm0 reg0 tm reg
    [(E1 & E2 & F) | (l1 & t & l2 & E & Ep & Et & H0 & F1 & F2)].
  - subst tm. split; [apply Qle_refl|].
    intros r Hr. rewrite Forall_forall in F.
    apply Qlt_le_weak, F, Hr.
  - split; [exact H0|].
    intros r Hr. subst els. rewrite Forall_forall in F1, F2.
    apply in_app_or in Hr. destruct Hr as [Hr | [Hr | Hr]].
    + apply F1, Hr.
    + subst r. rewrite Et. apply Qle_refl.
    + apply Qlt_le_weak, F2, Hr.
Qed.

(** The two scans of [ScoreHelix], on the sample it returns. *)
Lemma ScoreHelix_scans :
  forall p h,
    last_best (Tm_of (ScoreHelix p h))
      (filter (eligible (numPep h)) (registers (numPep h)))
      (-1500)%Q (7, 7, 7, 12)
      (CCTm (ScoreHelix p h)) (CCRegister (ScoreHelix p h))
    /\ last_best (Tm_of (ScoreHelix p h)) (registers (numPep h))
         (-1000)%Q (6, 6, 6, 11)
         (HighTm (ScoreHelix p h)) (bestRegister (ScoreHelix p h)).
Proof.
  intros p h.
  pose proof (scan_CC p (Z.quot (numAA h) 3) (numPep h)
                (registers (numPep h)) (prepare h, initial_locals)
                eq_refl (registers_NoDup _)) as S.
  pose proof (scan_best p (Z.quot (numAA h) 3) (registers (numPep h))
                (prepare h, initial_locals) (registers_NoDup _)) as Sb.
  rewrite filter_any_register in Sb.
  fold (scored_state p h) in S, Sb. cbn [fst snd] in S, Sb.
  change (CCTm (prepare h)) with (-1500)%Q in S.
  change (CCRegister (prepare h)) with (7, 7, 7, 12) in S.
  change (maxTm initial_locals) with (-1000)%Q in Sb.
  change (bestReg initial_locals) with (6, 6, 6, 11) in Sb.
  rewrite ScoreHelix_eq.
  destruct (conclude_keeps (snd (scored_state p h)) (fst (scored_state p h)))
    as (_ & _ & HT & HC & HR & _).
  destruct (conclude_slots (snd (scored_state p h)) (fst (scored_state p h)))
    as (H1 & H2 & _).
  cbv zeta in *. unfold Tm_of in *. rewrite HT, HC, HR, H1, H2.
  split; assumption.
Qed.

(** X10.  The best Tm that [ScoreHelix] reports is an upper bound: no
    scored register has a larger Tm, the Tm of the correct composition is
    not larger either, and neither slot falls below its initial sentinel
    (-1000 for the best, -1500 for the correct composition). *)
Theorem HighTm_bounds_every_register :
  forall p h,
    let r := ScoreHelix p h in
    (forall a b c, In (a, b, c) (registers (numPep h)) ->
                   (Tm r a b c 0 <= HighTm r)%Q)
    /\ (CCTm r <= HighTm r)%Q
    /\ (-1000 <= HighTm r)%Q
    /\ (-1500 <= CCTm r)%Q.
Proof.
  intros p h. cbv zeta.
  destruct (ScoreHelix_scans p h) as [SC SB].
  generalize dependent (ScoreHelix p h). intros r SC SB.
  destruct (last_best_upper _ _ _ _ _ _ SB) as [B0 B1].
  destruct (last_best_upper _ _ _ _ _ _ SC) as [C0 C1].
  split.
  { intros a b c Hin. exact (B1 (a, b, c) Hin). }
  split; [|split; assumption].
  destruct SC as [(E1 & _) | (l1 & t & l2 & E & _ & Et & _)].
  - rewrite E1. eapply Qle_trans; [|exact B0]. discriminate.
  - rewrite Et. apply B1.
    assert (Hin : In t (filter (eligible (numPep h)) (registers (numPep h))))
      by (rewrite E; apply in_or_app; right; left; reflexivity).
    apply filter_In in Hin. exact (proj1 Hin).
Qed.

Section TopTwo.

Variable p : parameterType.
Variable numYaa : Z.

Local Abbreviation body := (body p numYaa).

Lemma body_Tm_of_other :
  forall st r r',
    r' <> r -> Tm_of (fst (body st r)) r' = Tm_of (fst st) r'.
Proof.
  intros st r [[a b] c] Hne. unfold Tm_of.
  exact (sc_Tm _ _ _ _ _ (body_other_cells p numYaa st r a b c Hne)).
Qed.

Lemma top_two_step :
  forall scored st r,
    ~ In r scored ->
    top_two (Tm_of (fst st)) scored (snd st) ->
    top_two (Tm_of (fst (body st r))) (scored ++ [r]) (snd (body st r)).
Proof.
  intros scored st [[a b] c] Hnew (Ha & Hb & Hc & Hd).
  assert (Old : forall r, In r scored ->
                  Tm_of (fst (body st (a, b, c))) r = Tm_of (fst st) r).
  { intros r Hr. apply body_Tm_of_other. intro E. subst r. contradiction. }
  destruct (body_slots p numYaa st a b c) as (S1 & S2 & S3 & S4).
  cbv zeta in *.
  remember (body st (a, b, c)) as st1 eqn:Est1. clear Est1.
  change (Tm (fst st1) a b c 0) with (Tm_of (fst st1) (a, b, c)) in *.
  remember (Tm_of (fst st1) (a, b, c)) as tm eqn:Etm.
  unfold remember_best in S1, S2, S3, S4.
  unfold top_two.
  destruct (Qle_bool (maxTm (snd st)) tm) eqn:E1.
  - cbn in S1, S2, S3, S4. apply Qle_bool_iff in E1.
    rewrite S1, S2, S3. split; [exact E1|]. split; [|split].
    + intros r Hr. apply in_app_or in Hr. destruct Hr as [Hr | [<- | []]].
      * rewrite (Old r Hr). eapply Qle_trans; [apply Hb, Hr | exact E1].
      * rewrite Etm. apply Qle_refl.
    + intros a' b' c' Hr Hne.
      apply in_app_or in Hr. destruct Hr as [Hr | [E | []]].
      * rewrite (Old _ Hr). apply Hb, Hr.
      * exfalso. apply Hne. injection E as -> -> ->. reflexivity.
    + right. exists a, b, c. split; [|split; [reflexivity | exact Etm]].
      apply in_or_app. right. left. reflexivity.
  - apply Qle_bool_false in E1.
    assert (Hd' :
      (bestReg (snd st) = (6, 6, 6, 11) /\ maxTm (snd st) = (-1000)%Q
       /\ forall r, In r (scored ++ [(a, b, c)]) ->
                    (Tm_of (fst st1) r < -1000)%Q)
      \/ (exists a' b' c',
            In (a', b', c') (scored ++ [(a, b, c)])
            /\ bestReg (snd st) = (a', b', c', 0)
            /\ maxTm (snd st) = Tm_of (fst st1) (a', b', c'))).
    { destruct Hd as [(D1 & D2 & D3) | (a' & b' & c' & D1 & D2 & D3)].
      - left. split; [exact D1|]. split; [exact D2|].
        intros r Hr. apply in_app_or in Hr. destruct Hr as [Hr | [<- | []]].
        + rewrite (Old r Hr). apply D3, Hr.
        + rewrite <- Etm, D2 in *. exact E1.
      - right. exists a', b', c'. split; [|split].
        + apply in_or_app. left. exact D1.
        + exact D2.
        + rewrite (Old _ D1). exact D3. }
    destruct (Qle_bool (secondBestTm (snd st)) tm) eqn:E2.
    + cbn in S1, S2, S3, S4. apply Qle_bool_iff in E2.
      rewrite S1, S2, S3. split; [apply Qlt_le_weak, E1|]. split; [|split].
      * intros r Hr. apply in_app_or in Hr. destruct Hr as [Hr | [<- | []]].
        -- rewrite (Old r Hr). apply Hb, Hr.
        -- rewrite <- Etm. apply Qlt_le_weak, E1.
      * intros a' b' c' Hr Hne.
        apply in_app_or in Hr. destruct Hr as [Hr | [E | []]].
        -- rewrite (Old _ Hr).
           eapply Qle_trans; [apply Hc; assumption | exact E2].
        -- rewrite <- E, <- Etm. apply Qle_refl.
      * exact Hd'.
    + apply Qle_bool_false in E2.
      rewrite S1, S2, S3. split; [exact Ha|]. split; [|split].
      * intros r Hr. apply in_app_or in Hr. destruct Hr as [Hr | [<- | []]].
        -- rewrite (Old r Hr). apply Hb, Hr.
        -- rewrite <- Etm. apply Qlt_le_weak, E1.
      * intros a' b' c' Hr Hne.
        apply in_app_or in Hr. destruct Hr as [Hr | [E | []]].
        -- rewrite (Old _ Hr). apply Hc; assumption.
        -- rewrite <- E, <- Etm. apply Qlt_le_weak, E2.
      * exact Hd'.
Qed.

Lemma scan_top_two :
  forall rs scored st,
    NoDup (scored ++ rs) ->
    top_two (Tm_of (fst st)) scored (snd st) ->
    top_two (Tm_of (fst (score_registers p numYaa rs st))) (scored ++ rs)
      (snd (score_registers p numYaa rs st)).
Proof.
  induction rs as [|r rs IH]; intros scored st Hnd Ht.
  - rewrite app_nil_r. exact Ht.
  - rewrite score_registers_cons.
    replace (scored ++ r :: rs) with ((scored ++ [r]) ++ rs) in *
      by (rewrite <- app_assoc; reflexivity).
    apply IH; [exact Hnd|].
    apply top_two_step; [|exact Ht].
    intro Hin. rewrite <- app_assoc in Hnd. cbn in Hnd.
    apply NoDup_remove_2 in Hnd. apply Hnd.
    apply in_or_app. left. exact Hin.
Qed.

End TopTwo.

Lemma ScoreHelix_top_two :
  forall p h,
    top_two (Tm_of (ScoreHelix p h)) (registers (numPep h))
      (mkLocals (HighTm (ScoreHelix p h)) (secTm (ScoreHelix p h))
         (bestRegister (ScoreHelix p h)) (secRegister (ScoreHelix p h))
         (fun _ => 0%Q) (fun _ => 0%Q)).
Proof.
  intros p h.
  pose proof (scan_top_two p (Z.quot (numAA h) 3) (registers (numPep h)) []
                (prepare h, initial_locals) (registers_NoDup _)) as S.
  cbn [app] in S. fold (scored_state p h) in S.
  assert (I : top_two (Tm_of (fst (prepare h, initial_locals))) []
                (snd (prepare h, initial_locals))).
  { unfold top_two. cbn [fst snd initial_locals maxTm secondBestTm bestReg In].
    split; [discriminate|]. split; [tauto|]. split; [tauto|].
    left. split; [reflexivity|]. split; [reflexivity|]. tauto. }
  specialize (S I). clear I.
  rewrite ScoreHelix_eq.
  destruct (conclude_keeps (snd (scored_state p h)) (fst (scored_state p h)))
    as (_ & _ & HT & _).
  destruct (conclude_slots (snd (scored_state p h)) (fst (scored_state p h)))
    as (H1 & H2 & H3 & H4 & _).
  cbv zeta in *.
  generalize dependent (scored_state p h). intros [hf lf].
  cbn [fst snd]. generalize (conclude lf hf). intros r S HT H1 H2 H3 H4.
  unfold Tm_of in *. rewrite HT, H1, H2, H3.
  destruct lf; exact S.
Qed.

Lemma ScoreHelix_specificity :
  forall p h,
    specificity (ScoreHelix p h)
    = (HighTm (ScoreHelix p h) - secTm (ScoreHelix p h))%Q.
Proof.
  intros p h. rewrite ScoreHelix_eq.
  destruct (conclude_slots (snd (scored_state p h))
              (fst (scored_state p h))) as (H1 & _ & H3 & _ & H5).
  cbv zeta in *. rewrite H1, H3, H5. reflexivity.
Qed.

(** X11.  The second best Tm that [ScoreHelix] reports is at most the
    best one, so the specificity (their difference) is never negative;
    and every scored register other than the one recorded as the best has
    a Tm that is at most the second best Tm. *)
Theorem second_best_bounds_all_but_the_best :
  forall p h,
    let r := ScoreHelix p h in
    (secTm r <= HighTm r)%Q
    /\ (0 <= specificity r)%Q
    /\ specificity r = (HighTm r - secTm r)%Q
    /\ forall a b c,
         In (a, b, c) (registers (numPep h)) ->
         bestRegister r <> (a, b, c, 0) ->
         (Tm r a b c 0 <= secTm r)%Q.
Proof.
  intros p h. cbv zeta.
  pose proof (ScoreHelix_top_two p h) as T.
  pose proof (ScoreHelix_specificity p h) as Es.
  generalize dependent (ScoreHelix p h). intros r T Es.
  destruct T as (Ha & _ & Hc & _).
  cbn [maxTm secondBestTm bestReg] in Ha, Hc.
  split; [exact Ha|]. split; [rewrite Es; lra|]. split; [exact Es|].
  intros a b c Hin Hne. exact (Hc a b c Hin Hne).
Qed.

Lemma ScoreHelix_best_components :
  forall p h,
    bestPropensity (ScoreHelix p h)
    = at_reg (Propensity (ScoreHelix p h)) (bestRegister (ScoreHelix p h))
    /\ bestPairwise (ScoreHelix p h)
       = at_reg (PairWise (ScoreHelix p h)) (bestRegister (ScoreHelix p h)).
Proof.
  intros p h. rewrite ScoreHelix_eq.
  destruct (conclude_keeps (snd (scored_state p h))
              (fst (scored_state p h))) as (HP & _).
  destruct (conclude_tables (snd (scored_state p h))
              (fst (scored_state p h))) as (_ & HW & _ & HBP & HBW).
  destruct (conclude_slots (snd (scored_state p h))
              (fst (scored_state p h))) as (_ & H2 & _).
  cbv zeta in *. rewrite HP, HW, HBP, HBW, H2. split; reflexivity.
Qed.

Lemma ScoreHelix_Tm_sum :
  forall p h a b c,
    In (a, b, c) (registers (numPep h)) ->
    Tm (ScoreHelix p h) a b c 0
    = (Propensity (ScoreHelix p h) a b c 0
       + PairWise (ScoreHelix p h) a b c 0)%Q.
Proof.
  intros p h a b c Hin.
  destruct (ScoreHelix_register_cells p h a b c Hin)
    as [hb [lb [_ [_ [HP HW _ _ HT]]]]].
  rewrite HP, HW, HT.
  apply score_register_Tm.
Qed.

(** X12.  When some scored register has a Tm of at least -1000 (the
    sentinel of the best slot), the best register that [ScoreHelix]
    reports is one of the scored registers, at offset 0: its indices are
    below [numPep].  The best Tm, the best propensity and the best
    pairwise term are the entries of that register, and the best Tm is
    the sum of the other two. *)
Theorem best_register_is_a_scored_register :
  forall p h a0 b0 c0,
    In (a0, b0, c0) (registers (numPep h)) ->
    (-1000 <= Tm (ScoreHelix p h) a0 b0 c0 0)%Q ->
    let r := ScoreHelix p h in
    exists a b c,
      bestRegister r = (a, b, c, 0)
      /\ (0 <= a < numPep h /\ 0 <= b < numPep h /\ 0 <= c < numPep h)
      /\ HighTm r = Tm r a b c 0
      /\ bestPropensity r = Propensity r a b c 0
      /\ bestPairwise r = PairWise r a b c 0
      /\ HighTm r = (bestPropensity r + bestPairwise r)%Q.
Proof.
  intros p h a0 b0 c0 Hin0 Htm. cbv zeta.
  pose proof (ScoreHelix_top_two p h) as T.
  pose proof (ScoreHelix_best_components p h) as [EP EW].
  pose proof (ScoreHelix_Tm_sum p h) as ES.
  generalize dependent (ScoreHelix p h). intros r Htm T EP EW ES.
  destruct T as (_ & _ & _ & Hd).
  cbn [maxTm secondBestTm bestReg] in Hd.
  destruct Hd as [(_ & _ & D3) | (a & b & c & D1 & D2 & D3)].
  { exfalso. specialize (D3 (a0, b0, c0) Hin0).
    apply (Qlt_not_le _ _ D3). exact Htm. }
  exists a, b, c.
  specialize (ES a b c D1).
  rewrite D2 in EP, EW. cbn [at_reg] in EP, EW.
  split; [exact D2|]. split; [apply registers_In; exact D1|].
  split; [exact D3|]. split; [exact EP|]. split; [exact EW|].
  rewrite D3, EP, EW. exact ES.
Qed.

Lemma best_register_is_a_scored_register_witness :
  exists a b c,
    bestRegister (ScoreHelix alanine_parameters heterotrimer_PA) = (a, b, c, 0)
    /\ (0 <= a < numPep heterotrimer_PA /\ 0 <= b < numPep heterotrimer_PA
        /\ 0 <= c < numPep heterotrimer_PA)
    /\ HighTm (ScoreHelix alanine_parameters heterotrimer_PA)
       = Tm (ScoreHelix alanine_parameters heterotrimer_PA) a b c 0
    /\ bestPropensity (ScoreHelix alanine_parameters heterotrimer_PA)
       = Propensity (ScoreHelix alanine_parameters heterotrimer_PA) a b c 0
    /\ bestPairwise (ScoreHelix alanine_parameters heterotrimer_PA)
       = PairWise (ScoreHelix alanine_parameters heterotrimer_PA) a b c 0
    /\ HighTm (ScoreHelix alanine_parameters heterotrimer_PA)
       = (bestPropensity (ScoreHelix alanine_parameters heterotrimer_PA)
          + bestPairwise (ScoreHelix alanine_parameters heterotrimer_PA))%Q.
Proof.
  apply (best_register_is_a_scored_register alanine_parameters
           heterotrimer_PA 0 0 0).
  - vm_compute. left. reflexivity.
  - vm_compute. discriminate.
Defined.

(** ** The charge counters are never reset *)

Lemma net_charge_sum_bound :
  forall h a b c,
    0 <= numAA h ->
    - (3 * numAA h) <= net_charge_sum h a b c <= 3 * numAA h.
Proof.
  intros h a b c Hn. unfold net_charge_sum.
  assert (G : forall xs v,
            v - 3 * Z.of_nat (List.length xs)
            <= fold_left
                 (fun acc x => acc + (charge_of (sequences h a x)
                                      + charge_of (sequences h b x)
                                      + charge_of (sequences h c x))) xs v
            <= v + 3 * Z.of_nat (List.length xs)).
  { induction xs as [|x xs IH]; intro v.
    - cbn. lia.
    - cbn [fold_left List.length]. rewrite Nat2Z.inj_succ.
      specialize (IH (v + (charge_of (sequences h a x)
                           + charge_of (sequences h b x)
                           + charge_of (sequences h c x)))).
      pose proof (charge_of_bound (sequences h a x)).
      pose proof (charge_of_bound (sequences h b x)).
      pose proof (charge_of_bound (sequences h c x)).
      lia. }
  specialize (G (upto (numAA h)) 0).
  rewrite upto_length, Z2Nat.id in G by exact Hn. lia.
Qed.

Lemma ScoreHelix_netCharge :
  forall p h a b c,
    In (a, b, c) (registers (numPep h)) ->
    -32768 <= netCharge h a b c 0 <= 32767 ->
    -32768 <= netCharge h a b c 0 - 3 * numAA h ->
    netCharge h a b c 0 + 3 * numAA h <= 32767 ->
    netCharge (ScoreHelix p h) a b c 0
    = netCharge h a b c 0 + net_charge_sum h a b c.
Proof.
  intros p h a b c Hin Hr Hlo Hhi.
  destruct (ScoreHelix_register p h a b c Hin)
    as [hb [lb [Hs [Hb [_ [HN _]]]]]].
  rewrite HN, score_register_netCharge;
    rewrite ?Hb, ?(ss_numAA _ _ Hs); try assumption.
  now rewrite (net_charge_sum_same h hb a b c Hs).
Qed.

(** X13.  [ScoreHelix] does not reset the net charge of a register: each
    call adds the net charge of the three peptides (+1 for K and R, -1 for
    E and D) to what the counter held on entry.  After one call the
    counter has grown by that sum, after two calls by twice that sum (as
    long as the 16-bit counter does not wrap). *)
Theorem net_charge_accumulates_over_calls :
  forall p q h a b c,
    In (a, b, c) (registers (numPep h)) ->
    0 <= numAA h ->
    -32768 <= netCharge h a b c 0 - 6 * numAA h ->
    netCharge h a b c 0 + 6 * numAA h <= 32767 ->
    netCharge (ScoreHelix p h) a b c 0
    = netCharge h a b c 0 + net_charge_sum h a b c
    /\ netCharge (ScoreHelix q (ScoreHelix p h)) a b c 0
       = netCharge h a b c 0 + 2 * net_charge_sum h a b c.
Proof.
  intros p q h a b c Hin Hn Hlo Hhi.
  pose proof (net_charge_sum_bound h a b c Hn) as Hb.
  assert (H1 : netCharge (ScoreHelix p h) a b c 0
               = netCharge h a b c 0 + net_charge_sum h a b c)
    by (apply ScoreHelix_netCharge; [exact Hin | lia | lia | lia]).
  split; [exact H1|].
  pose proof (ScoreHelix_same_sample p h) as Hs.
  pose proof (ScoreHelix_netCharge q (ScoreHelix p h) a b c) as H2.
  rewrite (ss_numPep _ _ Hs), (ss_numAA _ _ Hs) in H2.
  rewrite (net_charge_sum_same h (ScoreHelix p h) a b c Hs) in H2.
  rewrite H1 in H2.
  rewrite H2; [lia | exact Hin | lia | lia | lia].
Qed.

Lemma net_charge_accumulates_over_calls_witness :
  netCharge (ScoreHelix zero_parameters homotrimer_KKK) 0 0 0 0
  = netCharge homotrimer_KKK 0 0 0 0 + net_charge_sum homotrimer_KKK 0 0 0
  /\ netCharge (ScoreHelix proline_parameters
                  (ScoreHelix zero_parameters homotrimer_KKK)) 0 0 0 0
     = netCharge homotrimer_KKK 0 0 0 0
       + 2 * net_charge_sum homotrimer_KKK 0 0 0.
Proof.
  apply (net_charge_accumulates_over_calls zero_parameters proline_parameters
           homotrimer_KKK 0 0 0).
  - vm_compute. left. reflexivity.
  - vm_compute. discriminate.
  - vm_compute. discriminate.
  - vm_compute. discriminate.
Defined.

(** ** The correct composition, the best register and the warning *)

Lemma NoDup_split_order :
  forall X (A B A' B' : list X) x y,
    NoDup (A ++ x :: B) ->
    A ++ x :: B = A' ++ y :: B' ->
    In x A' -> In y B.
Proof.
  intros X A. induction A as [|a A IH]; intros B A' B' x y Hnd E Hin.
  - destruct A' as [|a' A']; [contradiction|].
    cbn in E. injection E as E1 E2. subst B.
    apply in_or_app. right. left. reflexivity.
  - destruct A' as [|a' A']; [contradiction|].
    cbn in E. injection E as E1 E2. subst a'.
    inversion Hnd as [|? ? Hnot Hnd']; subst.
    destruct Hin as [Hx | Hin].
    + exfalso. apply Hnot. subst a.
      apply in_or_app. right. left. reflexivity.
    + exact (IH B A' B' x y Hnd' E2 Hin).
Qed.

Lemma same_peptides_iff :
  forall r1 r2,
    same_peptides r1 r2 = true <-> peptides_of r1 = peptides_of r2.
Proof.
  intros [[[a1 b1] c1] d1] [[[a2 b2] c2] d2]. cbn. split.
  - intro H. apply andb_prop in H. destruct H as [H H3].
    apply andb_prop in H. destruct H as [H1 H2].
    apply Z.eqb_eq in H1, H2, H3. congruence.
  - intro E. injection E as -> -> ->. now rewrite !Z.eqb_refl.
Qed.

(** The slot of the correct composition against the best slot, on the
    same list of registers. *)
Lemma last_best_eligible_best :
  forall tmf els elig tm0c reg0c tmc regc tm0 reg0 tm reg,
    NoDup els ->
    (tm0c <= tm0)%Q ->
    last_best tmf (filter elig els) tm0c reg0c tmc regc ->
    last_best tmf els tm0 reg0 tm reg ->
    reg <> reg0 \/ ~ In (peptides_of reg0) els ->
    In (peptides_of reg) els ->
    elig (peptides_of reg) = true ->
    peptides_of regc = peptides_of reg /\ tmc = tm.
Proof.
  intros tmf els elig tm0c reg0c tmc regc tm0 reg0 tm reg
    Hnd H0 SC SB Hreal Hin Hel.
  pose proof (last_best_upper _ _ _ _ _ _ SB) as [B0 B1].
  destruct SB as [(E1 & E2 & _) | (l1 & t & l2 & E & Ep & Et & _ & F1 & F2)].
  { exfalso. destruct Hreal as [Hr | Hr]; [exact (Hr E2)|].
    apply Hr. rewrite <- E2. exact Hin. }
  rewrite Ep in *.
  assert (Hf : In t (filter elig els)) by (apply filter_In; split; assumption).
  destruct SC as [(_ & _ & F) | (L1 & t' & L2 & EC & Epc & Etc & _ & G1 & G2)].
  { exfalso. rewrite Forall_forall in F. specialize (F t Hf).
    rewrite <- Et in F. lra. }
  rewrite Forall_forall in F1, F2, G1, G2.
  assert (Hin' : In t' els).
  { assert (In t' (filter elig els))
      by (rewrite EC; apply in_or_app; right; left; reflexivity).
    apply filter_In in H. exact (proj1 H). }
  rewrite EC in Hf. apply in_app_or in Hf.
  destruct Hf as [Hf | [Hf | Hf]].
  - exfalso.
    assert (ES : filter elig els = filter elig l1 ++ t :: filter elig l2).
    { rewrite E, filter_app. cbn [filter]. rewrite Hel. reflexivity. }
    assert (Hl2 : In t' (filter elig l2)).
    { apply (NoDup_split_order _ (filter elig l1) (filter elig l2) L1 L2 t t').
      - rewrite <- ES. apply NoDup_filter, Hnd.
      - rewrite <- ES. exact EC.
      - exact Hf. }
    apply filter_In in Hl2. destruct Hl2 as [Hl2 _].
    specialize (F2 t' Hl2). specialize (G1 t Hf).
    rewrite <- Et in G1. rewrite Etc in G1. lra.
  - split; [rewrite Epc; exact Hf|]. rewrite Etc, Et, Hf. reflexivity.
  - exfalso. specialize (G2 t Hf). specialize (B1 t' Hin').
    rewrite Etc, <- Et in G2. lra.
Qed.

Lemma ScoreHelix_computed_deviation :
  forall p h,
    deviation (ScoreHelix p h) = computed_deviation (ScoreHelix p h).
Proof.
  intros p h. rewrite ScoreHelix_eq.
  destruct (scored_state p h) as [h' l]. cbn [fst snd].
  unfold conclude. cbv zeta.
  match goal with
  | |- context [set_final_deviation (maxTm l) ?x] =>
      change (maxTm l) with (HighTm x)
  end.
  apply set_final_deviation_value.
Qed.

Lemma sentinel_not_eligible :
  forall n, In (6, 6, 6) (registers n) -> eligible n (6, 6, 6) = false.
Proof.
  intros n Hin. apply registers_In in Hin. unfold eligible.
  destruct (Z.eqb_spec n 1); [lia|].
  destruct (Z.eqb_spec n 2); [lia|].
  destruct (Z.eqb_spec n 3); [lia|]. reflexivity.
Qed.

(** The correct composition is the best register as soon as the best
    register passes the composition filter. *)
Lemma ScoreHelix_eligible_best :
  forall p h,
    In (peptides_of (bestRegister (ScoreHelix p h))) (registers (numPep h)) ->
    eligible (numPep h) (peptides_of (bestRegister (ScoreHelix p h))) = true ->
    peptides_of (CCRegister (ScoreHelix p h))
    = peptides_of (bestRegister (ScoreHelix p h))
    /\ CCTm (ScoreHelix p h) = HighTm (ScoreHelix p h).
Proof.
  intros p h Hin Hel.
  destruct (ScoreHelix_scans p h) as [SC SB].
  generalize dependent (ScoreHelix p h). intros r Hin Hel SC SB.
  apply (last_best_eligible_best (Tm_of r) (registers (numPep h))
           (eligible (numPep h)) (-1500)%Q (7, 7, 7, 12) (CCTm r)
           (CCRegister r) (-1000)%Q (6, 6, 6, 11) (HighTm r) (bestRegister r));
    try assumption.
  - apply registers_NoDup.
  - discriminate.
  - destruct (Z_lt_dec 6 (numPep h)) as [I | I].
    + left. intro E. rewrite E in Hel. cbn [peptides_of] in Hel.
      rewrite sentinel_not_eligible in Hel; [discriminate|].
      apply registers_In. lia.
    + right. intro J. apply registers_In in J. lia.
Qed.

(** X14.  When the best register that [ScoreHelix] finds is a scored
    register of the right composition, it is also the register of the
    correct composition: the two Tm agree and the deviation is the plain
    difference between the best Tm and the experimental Tm (with the
    sentinel rule when no transition was observed), without the
    wrong-register adjustment. *)
Theorem right_composition_best_has_no_adjustment :
  forall p h,
    In (peptides_of (bestRegister (ScoreHelix p h))) (registers (numPep h)) ->
    eligible (numPep h) (peptides_of (bestRegister (ScoreHelix p h))) = true ->
    let r := ScoreHelix p h in
    same_peptides (CCRegister r) (bestRegister r) = true
    /\ CCTm r = HighTm r
    /\ deviation r
       = if Qeq_bool (expTm h) (-10) then sentinel_deviation (HighTm r)
         else (HighTm r - expTm h)%Q.
Proof.
  intros p h Hin Hel. cbv zeta.
  destruct (ScoreHelix_eligible_best p h Hin Hel) as [Ep Et].
  pose proof (ScoreHelix_computed_deviation p h) as Hd.
  pose proof (ss_expTm _ _ (ScoreHelix_same_sample p h)) as He.
  generalize dependent (ScoreHelix p h). intros r _ _ Ep Et Hd He.
  apply same_peptides_iff in Ep.
  split; [exact Ep|]. split; [exact Et|].
  rewrite Hd. unfold computed_deviation. rewrite Ep, He. reflexivity.
Qed.

Lemma right_composition_best_has_no_adjustment_witness :
  same_peptides (CCRegister (ScoreHelix proline_parameters homotrimer_POG))
    (bestRegister (ScoreHelix proline_parameters homotrimer_POG)) = true
  /\ CCTm (ScoreHelix proline_parameters homotrimer_POG)
     = HighTm (ScoreHelix proline_parameters homotrimer_POG)
  /\ deviation (ScoreHelix proline_parameters homotrimer_POG)
     = if Qeq_bool (expTm homotrimer_POG) (-10)
       then sentinel_deviation
              (HighTm (ScoreHelix proline_parameters homotrimer_POG))
       else (HighTm (ScoreHelix proline_parameters homotrimer_POG)
             - expTm homotrimer_POG)%Q.
Proof.
  apply (right_composition_best_has_no_adjustment proline_parameters
           homotrimer_POG).
  - vm_compute. left. reflexivity.
  - vm_compute. reflexivity.
Defined.

Lemma composition_warning_eligible :
  forall h a b c d,
    1 <= numPep h <= 3 ->
    bestRegister h = (a, b, c, d) ->
    composition_warning h = negb (eligible (numPep h) (a, b, c)).
Proof.
  intros h a b c d Hn E. unfold composition_warning, eligible. rewrite E.
  assert (numPep h = 1 \/ numPep h = 2 \/ numPep h = 3) as [-> | [-> | ->]]
    by lia; cbn [Z.eqb Pos.eqb andb orb];
    repeat match goal with
    | |- context [if ?t then _ else _] => destruct t
    end; reflexivity.
Qed.

(** X15.  For a sample of one to three peptides in which some scored
    register has a Tm of at least -1000, [userOutput] prints the warning
    "The most stable register/composition does not include all the
    peptides you input" exactly when [ScoreHelix] found the best register
    and the register of the correct composition to differ, that is exactly
    when the deviation carries the wrong-register adjustment.  Without
    the warning, and with an observed transition, the deviation that
    [userOutput] prints (CCTm - expTm) is the deviation of the sample. *)
Theorem warning_iff_wrong_register :
  forall p h a0 b0 c0,
    1 <= numPep h <= 3 ->
    In (a0, b0, c0) (registers (numPep h)) ->
    (-1000 <= Tm (ScoreHelix p h) a0 b0 c0 0)%Q ->
    let r := ScoreHelix p h in
    composition_warning r = negb (same_peptides (CCRegister r) (bestRegister r))
    /\ (composition_warning r = false ->
        Qeq_bool (expTm h) (-10) = false ->
        reported_deviation r = deviation r).
Proof.
  intros p h a0 b0 c0 Hn Hin0 Htm. cbv zeta.
  pose proof (ScoreHelix_top_two p h) as T.
  pose proof (ScoreHelix_eligible_best p h) as HE.
  pose proof (ScoreHelix_computed_deviation p h) as Hd.
  destruct (ScoreHelix_scans p h) as [SC _].
  destruct (ScoreHelix_same_sample p h) as [Hnp _ _ _ _ _ Hex].
  generalize dependent (ScoreHelix p h). intros r Htm T HE Hd SC Hnp Hex.
  destruct T as (_ & _ & _ & Hbest).
  cbn [maxTm secondBestTm bestReg] in Hbest.
  destruct Hbest as [(_ & _ & D3) | (a & b & c & D1 & D2 & D3)].
  { exfalso. specialize (D3 (a0, b0, c0) Hin0).
    apply (Qlt_not_le _ _ D3). exact Htm. }
  rewrite (composition_warning_eligible r a b c 0)
    by (rewrite ?Hnp; assumption).
  rewrite Hnp. rewrite D2 in HE. cbn [peptides_of] in HE.
  destruct (eligible (numPep h) (a, b, c)) eqn:El; cbn [negb].
  - destruct (HE D1 eq_refl) as [Ep Et].
    assert (Es : same_peptides (CCRegister r) (bestRegister r) = true)
      by (apply same_peptides_iff; rewrite Ep, D2; reflexivity).
    rewrite Es. split; [reflexivity|].
    intros _ Hobs. rewrite Hd. unfold computed_deviation, reported_deviation.
    rewrite Es, Hex, Hobs, Et. reflexivity.
  - split; [|discriminate].
    destruct (same_peptides (CCRegister r) (bestRegister r)) eqn:Es;
      [|reflexivity].
    exfalso. apply same_peptides_iff in Es. rewrite D2 in Es.
    cbn [peptides_of] in Es.
    destruct SC as [(_ & E2 & _) | (L1 & t' & L2 & EC & Epc & _)].
    + rewrite E2 in Es. cbn in Es. injection Es as <- <- <-.
      apply registers_In in D1. lia.
    + assert (Hf : In t' (filter (eligible (numPep h)) (registers (numPep h))))
        by (rewrite EC; apply in_or_app; right; left; reflexivity).
      apply filter_In in Hf. destruct Hf as [_ Hf].
      rewrite <- Epc, Es, El in Hf. discriminate.
Qed.

Lemma warning_iff_wrong_register_witness :
  composition_warning (ScoreHelix alanine_parameters heterotrimer_PA)
  = negb (same_peptides
            (CCRegister (ScoreHelix alanine_parameters heterotrimer_PA))
            (bestRegister (ScoreHelix alanine_parameters heterotrimer_PA)))
  /\ (composition_warning (ScoreHelix alanine_parameters heterotrimer_PA)
      = false ->
      Qeq_bool (expTm heterotrimer_PA) (-10) = false ->
      reported_deviation (ScoreHelix alanine_parameters heterotrimer_PA)
      = deviation (ScoreHelix alanine_parameters heterotrimer_PA)).
Proof.
  apply (warning_iff_wrong_register alanine_parameters heterotrimer_PA 0 0 0).
  - vm_compute. split; discriminate.
  - vm_compute. left. reflexivity.
  - vm_compute. discriminate.
Defined.

(** ** The sign of the pairwise term *)

Section PairwiseSign.

Variable p : parameterType.
Variables a b c d : Z.
Variable numYaa : Z.

Lemma fill_threads_all :
  forall (P : Q -> Prop) isY n Xv Lv l,
    (forall x, P (Xv x) /\ P (Lv x)) ->
    threads_all P l ->
    threads_all P (fill_threads isY n Xv Lv l).
Proof.
  intros P isY n Xv Lv l Hv Hl. unfold fill_threads.
  assert (G : forall xs st,
            (forall j, P (snd (fst st) j) /\ P (snd st j)) ->
            forall j,
              P (snd (fst (fold_left (fill_step isY Xv Lv) xs st)) j)
              /\ P (snd (fold_left (fill_step isY Xv Lv) xs st) j)).
  { induction xs as [|x xs IH]; intros st Hst; [exact Hst|].
    cbn [fold_left]. apply IH. intro j.
    destruct st as [[i Xs] Ls]. unfold fill_step.
    destruct (isY x); [|apply Hst].
    cbn [fst snd]. unfold dstore.
    destruct (j =? i); [apply Hv | apply (Hst j)]. }
  specialize (G (upto n) (0, XinteractionThread l, LinteractionThread l) Hl).
  destruct (fold_left _ _ _) as [[i Xs] Ls]. cbn [fst snd] in G.
  intro j. cbn. apply G.
Qed.

Lemma PairWise_add :
  forall v h,
    PairWise (add_PairWise a b c d v h) a b c d
    = (PairWise h a b c d + v)%Q.
Proof.
  intros v h. unfold add_PairWise.
  change (PairWise (set_PairWise ?g h)) with g. apply gstore_same.
Qed.

Lemma PairWise_store :
  forall v h,
    PairWise (set_PairWise (gstore (PairWise h) a b c d v) h) a b c d = v.
Proof.
  intros v h. change (PairWise (set_PairWise ?g h)) with g.
  apply gstore_same.
Qed.

(** Forcing the destabilizing values never raises the pairwise term, and
    leaves the sample alone when no value is negative. *)
Lemma force_destabilizing_le :
  forall l h,
    (PairWise (force_destabilizing a b c d numYaa l h) a b c d
     <= PairWise h a b c d)%Q.
Proof.
  intros l h. unfold force_destabilizing.
  generalize (upto numYaa). intro xs. revert h.
  induction xs as [|x xs IH]; intro h; cbn [fold_left]; [apply Qle_refl|].
  eapply Qle_trans; [apply IH|].
  unfold destabilizing_step. cbv zeta.
  destruct (Qlt_bool (XinteractionThread l x) 0) eqn:EX;
    destruct (Qlt_bool (LinteractionThread l x) 0) eqn:EL;
    rewrite ?PairWise_add;
    try apply Qlt_bool_true in EX; try apply Qlt_bool_true in EL; lra.
Qed.

Lemma force_destabilizing_none :
  forall l h,
    threads_all (fun v => 0 <= v)%Q l ->
    force_destabilizing a b c d numYaa l h = h.
Proof.
  intros l h Hl. unfold force_destabilizing.
  generalize (upto numYaa). intro xs.
  induction xs as [|x xs IH]; cbn [fold_left]; [reflexivity|].
  unfold destabilizing_step at 2. cbv zeta.
  destruct (Hl x) as [HX HL].
  destruct (Qlt_bool (XinteractionThread l x) 0) eqn:EX;
    [apply Qlt_bool_true in EX; lra|].
  destruct (Qlt_bool (LinteractionThread l x) 0) eqn:EL;
    [apply Qlt_bool_true in EL; lra|].
  exact IH.
Qed.

Lemma best_stabilizing_nonneg :
  forall l, (0 <= best_stabilizing numYaa l)%Q.
Proof. intro l. apply PairWiseCalc_fuel_lower. Qed.

Lemma best_stabilizing_none :
  forall l,
    threads_all (fun v => v <= 0)%Q l ->
    (best_stabilizing numYaa l == 0)%Q.
Proof.
  intros l Hl. apply Qle_antisym; [|apply best_stabilizing_nonneg].
  apply PairWiseCalc_fuel_upper; [apply Qle_refl|].
  rewrite stabilizing_total_zero; [lra|].
  intros j _. destruct (Hl j) as [HX HL]. split; assumption.
Qed.

(** One thread added to the pairwise term. *)
Lemma thread_nonpos :
  forall l h,
    threads_all (fun v => v <= 0)%Q l ->
    (PairWise h a b c d <= 0)%Q ->
    (PairWise (force_destabilizing a b c d numYaa l
                 (add_PairWise a b c d (best_stabilizing numYaa l) h))
       a b c d <= 0)%Q.
Proof.
  intros l h Hl Hh.
  eapply Qle_trans; [apply force_destabilizing_le|].
  rewrite PairWise_add, (best_stabilizing_none l Hl). lra.
Qed.

Lemma thread_nonneg :
  forall l h,
    threads_all (fun v => 0 <= v)%Q l ->
    (0 <= PairWise h a b c d)%Q ->
    (0 <= PairWise (force_destabilizing a b c d numYaa l
                      (add_PairWise a b c d (best_stabilizing numYaa l) h))
            a b c d)%Q.
Proof.
  intros l h Hl Hh.
  rewrite (force_destabilizing_none l _ Hl), PairWise_add.
  pose proof (best_stabilizing_nonneg l). lra.
Qed.

Lemma first_thread_nonpos :
  forall l h,
    threads_all (fun v => v <= 0)%Q l ->
    (PairWise (force_destabilizing a b c d numYaa l
                 (set_PairWise
                    (gstore (PairWise h) a b c d (best_stabilizing numYaa l))
                    h))
       a b c d <= 0)%Q.
Proof.
  intros l h Hl.
  eapply Qle_trans; [apply force_destabilizing_le|].
  rewrite PairWise_store, (best_stabilizing_none l Hl). lra.
Qed.

Lemma first_thread_nonneg :
  forall l h,
    threads_all (fun v => 0 <= v)%Q l ->
    (0 <= PairWise (force_destabilizing a b c d numYaa l
                      (set_PairWise
                         (gstore (PairWise h) a b c d
                            (best_stabilizing numYaa l)) h))
            a b c d)%Q.
Proof.
  intros l h Hl.
  rewrite (force_destabilizing_none l _ Hl), PairWise_store.
  apply best_stabilizing_nonneg.
Qed.

Lemma pair_or_zero :
  forall (P : Q -> Prop) (t : Z -> Z -> Q) s k x k' x' (g : bool),
    P 0%Q -> (forall i j, P (t i j)) ->
    P (if g then pair_value t s k x k' x' else 0%Q).
Proof.
  intros P t s k x k' x' g H0 Ht. destruct g; [apply Ht | exact H0].
Qed.

Ltac threads_filled H0 Hp Hl :=
  repeat (apply fill_threads_all;
          [intro; split; apply pair_or_zero;
           [exact H0 | intros; apply Hp | exact H0 | intros; apply Hp]
          |]);
  exact Hl.

(** The threads after the three fillings of a register. *)
Lemma set_pairwise_threads :
  forall (P : Q -> Prop) tr h l,
    P 0%Q -> pairs_all P p -> threads_all P l ->
    threads_all P (snd (set_pairwise p a b c d numYaa tr (h, l))).
Proof.
  intros P tr h l H0 Hp Hl. unfold set_pairwise. cbv zeta. cbn [snd].
  threads_filled H0 Hp Hl.
Qed.

Lemma set_pairwise_nonpos :
  forall tr h l,
    pairs_all (fun v => v <= 0)%Q p ->
    threads_all (fun v => v <= 0)%Q l ->
    (PairWise (fst (set_pairwise p a b c d numYaa tr (h, l))) a b c d <= 0)%Q.
Proof.
  intros tr h l Hp Hl. unfold set_pairwise. cbv zeta. cbn [fst].
  assert (H0 : (0 <= 0)%Q) by apply Qle_refl.
  apply thread_nonpos; [|apply thread_nonpos; [|apply first_thread_nonpos]];
    threads_filled H0 Hp Hl.
Qed.

Lemma set_pairwise_nonneg :
  forall tr h l,
    pairs_all (fun v => 0 <= v)%Q p ->
    threads_all (fun v => 0 <= v)%Q l ->
    (0 <= PairWise (fst (set_pairwise p a b c d numYaa tr (h, l))) a b c d)%Q.
Proof.
  intros tr h l Hp Hl. unfold set_pairwise. cbv zeta. cbn [fst].
  assert (H0 : (0 <= 0)%Q) by apply Qle_refl.
  apply thread_nonneg; [|apply thread_nonneg; [|apply first_thread_nonneg]];
    threads_filled H0 Hp Hl.
Qed.

(** The pairwise term and the threads after a register was scored. *)
Lemma score_register_snd :
  forall h l,
    snd (score_register p a b c d numYaa (h, l))
    = snd (set_pairwise p a b c d numYaa (trim_canonical h a b c)
             (before_pairwise p a b c d h, l)).
Proof.
  intros h l. unfold score_register, before_pairwise. cbv zeta.
  destruct (set_pairwise _ _ _ _ _ _ _ _). reflexivity.
Qed.

Lemma score_register_PairWise :
  forall h l,
    PairWise (fst (score_register p a b c d numYaa (h, l)))
    = PairWise (fst (set_pairwise p a b c d numYaa (trim_canonical h a b c)
                       (before_pairwise p a b c d h, l))).
Proof. intros h l. rewrite score_register_fst. reflexivity. Qed.

Lemma register_body_threads :
  forall (P : Q -> Prop) st,
    P 0%Q -> pairs_all P p -> threads_all P (snd st) ->
    threads_all P (snd (register_body p a b c d numYaa st)).
Proof.
  intros P [h l] H0 Hp Hl. unfold register_body.
  pose proof (score_register_snd h l) as E.
  pose proof (set_pairwise_threads P (trim_canonical h a b c)
                (before_pairwise p a b c d h) l H0 Hp Hl) as T.
  rewrite <- E in T.
  destruct (score_register p a b c d numYaa (h, l)) as [h1 l1].
  cbn [snd] in *. unfold remember_best.
  destruct (Qle_bool (maxTm l1) (Tm h1 a b c d));
    [|destruct (Qle_bool (secondBestTm l1) (Tm h1 a b c d))];
    intro i; apply (T i).
Qed.

End PairwiseSign.

Lemma score_registers_at_inv :
  forall p numYaa (inv : locals -> Prop),
    (forall st r, inv (snd st) -> inv (snd (body p numYaa st r))) ->
    forall rs st a b c,
      NoDup rs -> In (a, b, c) rs -> inv (snd st) ->
      exists hb lb,
        inv lb
        /\ same_cells a b c (fst (register_body p a b c 0 numYaa (hb, lb)))
             (fst (score_registers p numYaa rs st)).
Proof.
  intros p numYaa inv Hinv.
  induction rs as [|r rs IH]; intros st a b c Hnd Hin Hst; [contradiction|].
  rewrite score_registers_cons. inversion Hnd as [|? ? Hnotin Hnd']; subst.
  destruct Hin as [E | Hin].
  - subst r. destruct st as [hb lb]. exists hb, lb.
    split; [exact Hst|].
    apply score_registers_other_cells. exact Hnotin.
  - apply (IH (body p numYaa st r) a b c Hnd' Hin).
    apply Hinv. exact Hst.
Qed.

Lemma ScoreHelix_PairWise_from :
  forall p h (P : Q -> Prop) a b c,
    P 0%Q -> pairs_all P p ->
    In (a, b, c) (registers (numPep h)) ->
    exists tr hb lb,
      threads_all P lb
      /\ PairWise (ScoreHelix p h) a b c 0
         = PairWise (fst (set_pairwise p a b c 0 (Z.quot (numAA h) 3) tr
                            (hb, lb))) a b c 0.
Proof.
  intros p h P a b c H0 Hp Hin.
  destruct (score_registers_at_inv p (Z.quot (numAA h) 3) (threads_all P))
    with (rs := registers (numPep h)) (st := (prepare h, initial_locals))
         (a := a) (b := b) (c := c)
    as [hb [lb [Hl Hc]]].
  - intros st [[a' b'] c'] Hst. rewrite body_eq.
    apply register_body_threads; assumption.
  - apply registers_NoDup.
  - exact Hin.
  - intro i. cbn. split; exact H0.
  - exists (trim_canonical hb a b c), (before_pairwise p a b c 0 hb), lb.
    split; [exact Hl|].
    rewrite ScoreHelix_eq. fold (scored_state p h) in Hc.
    rewrite (sc_PairWise _ _ _ _ _
                  (conclude_cells (snd (scored_state p h))
                     (fst (scored_state p h)) a b c)).
    rewrite (sc_PairWise _ _ _ _ _ Hc).
    unfold register_body.
    pose proof (score_register_PairWise p a b c 0 (Z.quot (numAA h) 3) hb lb)
      as E.
    destruct (score_register p a b c 0 (Z.quot (numAA h) 3) (hb, lb))
      as [h1 l1].
    cbn [fst] in *.
    rewrite (sc_PairWise _ _ _ _ _ (remember_CC_cells a b c h1)).
    rewrite E. reflexivity.
Qed.

(** X16.  The sign of the pairwise term follows the tables.  When no
    axial or lateral pair value of the parameters is positive, the
    pairwise term of every scored register is at most 0 and its Tm at most
    its propensity; when no pair value is negative, the pairwise term is at
    least 0 and the Tm at least the propensity. *)
Theorem pairwise_term_follows_the_sign_of_the_tables :
  forall p h a b c,
    In (a, b, c) (registers (numPep h)) ->
    let r := ScoreHelix p h in
    (pairs_all (fun v => v <= 0)%Q p ->
     (PairWise r a b c 0 <= 0)%Q /\ (Tm r a b c 0 <= Propensity r a b c 0)%Q)
    /\ (pairs_all (fun v => 0 <= v)%Q p ->
        (0 <= PairWise r a b c 0)%Q
        /\ (Propensity r a b c 0 <= Tm r a b c 0)%Q).
Proof.
  intros p h a b c Hin. cbv zeta.
  pose proof (ScoreHelix_Tm_sum p h a b c Hin) as ES.
  split; intro Hp.
  - destruct (ScoreHelix_PairWise_from p h (fun v => v <= 0)%Q a b c
                (Qle_refl 0) Hp Hin) as [tr [hb [lb [Hl E]]]].
    pose proof (set_pairwise_nonpos p a b c 0 (Z.quot (numAA h) 3) tr hb lb
                  Hp Hl) as S.
    rewrite <- E in S.
    generalize dependent (ScoreHelix p h). intros r ES _ S.
    split; [exact S|]. rewrite ES. lra.
  - destruct (ScoreHelix_PairWise_from p h (fun v => 0 <= v)%Q a b c
                (Qle_refl 0) Hp Hin) as [tr [hb [lb [Hl E]]]].
    pose proof (set_pairwise_nonneg p a b c 0 (Z.quot (numAA h) 3) tr hb lb
                  Hp Hl) as S.
    rewrite <- E in S.
    generalize dependent (ScoreHelix p h). intros r ES _ S.
    split; [exact S|]. rewrite ES. lra.
Qed.

Lemma pairwise_term_follows_the_sign_of_the_tables_witness :
  ((PairWise (ScoreHelix repelling_pairs homotrimer_POG) 0 0 0 0 <= 0)%Q
   /\ (Tm (ScoreHelix repelling_pairs homotrimer_POG) 0 0 0 0
       <= Propensity (ScoreHelix repelling_pairs homotrimer_POG) 0 0 0 0)%Q)
  /\ ((0 <= PairWise (ScoreHelix attracting_pairs homotrimer_POG) 0 0 0 0)%Q
      /\ (Propensity (ScoreHelix attracting_pairs homotrimer_POG) 0 0 0 0
          <= Tm (ScoreHelix attracting_pairs homotrimer_POG) 0 0 0 0)%Q)
  /\ (PairWise (ScoreHelix repelling_pairs homotrimer_POG) 0 0 0 0 == -27)%Q
  /\ (PairWise (ScoreHelix attracting_pairs homotrimer_POG) 0 0 0 0
      == 37 # 2)%Q.
Proof.
  assert (Hin : In (0, 0, 0) (registers (numPep homotrimer_POG)))
    by (vm_compute; left; reflexivity).
  destruct (pairwise_term_follows_the_sign_of_the_tables repelling_pairs
              homotrimer_POG 0 0 0 Hin) as [Below _].
  destruct (pairwise_term_follows_the_sign_of_the_tables attracting_pairs
              homotrimer_POG 0 0 0 Hin) as [_ Above].
  split; [apply Below | split; [apply Above | split; vm_compute; reflexivity]];
    intros i j; unfold repelling_pairs, attracting_pairs, store2;
    cbn [axial lateral set_axial set_lateral];
    destruct ((i =? 15) && (j =? 16)); split; vm_compute; discriminate.
Defined.

(** ** The total charge of one register *)

Lemma charged_bound : forall ch, 0 <= charged ch <= 2.
Proof.
  intro ch. unfold charged.
  destruct (is_letter ch "K" || is_letter ch "R"),
    (is_letter ch "E" || is_letter ch "D"); lia.
Qed.

Section TotalCharge.

Variable p : parameterType.
Variables a b c d : Z.

Lemma count_charge_totalCharge :
  forall ch h,
    -32768 <= totalCharge h a b c d ->
    totalCharge h a b c d + 2 <= 32767 ->
    totalCharge (count_charge a b c d ch h) a b c d
    = totalCharge h a b c d + charged ch.
Proof.
  intros ch h Hlo Hhi. unfold count_charge, charged.
  destruct (is_letter ch "K" || is_letter ch "R"),
    (is_letter ch "E" || is_letter ch "D"); cbn;
    rewrite ?gstore_same; cbn; rewrite ?gstore_same;
    rewrite ?to_short_small; rewrite ?to_short_small; lia.
Qed.

Lemma residue_propensity_totalCharge :
  forall tr tip x k h,
    totalCharge (residue_propensity p a b c d tr tip x k h) = totalCharge h.
Proof.
  intros.
  exact (fr_totalCharge _ _ _ _ _ _ _ _ _ _ _ _
           (frame_residue_propensity a b c d false p false false false false
              tr tip x k h)).
Qed.

Lemma single_AA_step_totalCharge :
  forall tr h x,
    -32768 <= totalCharge h a b c d ->
    totalCharge h a b c d + 6 <= 32767 ->
    totalCharge (single_AA_step p a b c d tr h x) a b c d
    = totalCharge h a b c d + charged_at a b c tr x.
Proof.
  intros tr h x Hlo Hhi. unfold single_AA_step. cbv zeta.
  rewrite !residue_propensity_totalCharge.
  pose proof (charged_bound (sequences tr a x)) as Ba.
  pose proof (charged_bound (sequences tr b x)) as Bb.
  pose proof (charged_bound (sequences tr c x)) as Bc.
  assert (H1 : totalCharge (count_charge a b c d (sequences tr a x) h) a b c d
               = totalCharge h a b c d + charged (sequences tr a x))
    by (apply count_charge_totalCharge; lia).
  assert (H2 : totalCharge
                 (count_charge a b c d (sequences tr b x)
                    (count_charge a b c d (sequences tr a x) h)) a b c d
               = totalCharge h a b c d + charged (sequences tr a x)
                 + charged (sequences tr b x))
    by (rewrite count_charge_totalCharge; lia).
  rewrite count_charge_totalCharge by lia.
  unfold charged_at. lia.
Qed.

Lemma single_AA_fold_totalCharge :
  forall tr xs h,
    -32768 <= totalCharge h a b c d ->
    totalCharge h a b c d + 6 * Z.of_nat (List.length xs) <= 32767 ->
    totalCharge (fold_left (single_AA_step p a b c d tr) xs h) a b c d
    = fold_left (fun acc x => acc + charged_at a b c tr x) xs
        (totalCharge h a b c d).
Proof.
  intros tr xs. induction xs as [|x xs IH]; intros h Hlo Hhi.
  - reflexivity.
  - cbn [fold_left]. cbn [List.length] in Hhi.
    assert (Hs : totalCharge (single_AA_step p a b c d tr h x) a b c d
                 = totalCharge h a b c d + charged_at a b c tr x)
      by (apply single_AA_step_totalCharge; lia).
    assert (Hb : 0 <= charged_at a b c tr x <= 6).
    { unfold charged_at.
      pose proof (charged_bound (sequences tr a x)).
      pose proof (charged_bound (sequences tr b x)).
      pose proof (charged_bound (sequences tr c x)). lia. }
    rewrite IH by lia. now rewrite Hs.
Qed.

Lemma charged_from :
  forall h xs v,
    fold_left (fun acc x => acc + charged_at a b c h x) xs v
    = v + fold_left (fun acc x => acc + charged_at a b c h x) xs 0.
Proof.
  intros h xs. induction xs as [|x xs IH]; intro v; simpl.
  - lia.
  - rewrite IH. rewrite (IH (charged_at a b c h x)). lia.
Qed.

Lemma charged_trim :
  forall h xs v,
    fold_left
      (fun acc x => acc + charged_at a b c (trim_canonical h a b c) x) xs v
    = fold_left (fun acc x => acc + charged_at a b c h x) xs v.
Proof.
  intros h xs. induction xs as [|x xs IH]; intro v; simpl.
  - reflexivity.
  - rewrite IH. unfold charged_at. now rewrite !trim_sequences.
Qed.

Lemma score_register_totalCharge :
  forall numYaa h l,
    -32768 <= totalCharge h a b c d ->
    0 <= numAA h ->
    totalCharge h a b c d + 6 * numAA h <= 32767 ->
    totalCharge (fst (score_register p a b c d numYaa (h, l))) a b c d
    = totalCharge h a b c d + total_charge_sum h a b c.
Proof.
  intros numYaa h l Hlo Hn Hhi.
  rewrite score_register_fst.
  change (totalCharge (set_Tm_cell a b c d ?x)) with (totalCharge x).
  rewrite (fr_totalCharge _ _ _ _ _ _ _ _ _ _ _ _
             (frame_set_pairwise a b c d false p false false false false
                numYaa (trim_canonical h a b c)
                (before_pairwise p a b c d h) l)).
  unfold before_pairwise. cbv zeta.
  rewrite (fr_totalCharge _ _ _ _ _ _ _ _ _ _ _ _
             (frame_charge_scoring a b c d false false false false false _)).
  set (tr := trim_canonical h a b c).
  pose proof (frame_termination a b c d false false false false false tr
                (set_length p a b c d tr h)) as F2.
  pose proof (frame_set_length a b c d false p false false false false tr h)
    as F1.
  pose proof (frame_trans _ _ _ _ _ _ _ _ _ _ _ _ _ F1 F2) as F.
  destruct F as [_ Hnn _ _ _ _ _ _ _ _ _ HT _]. simpl in HT.
  unfold single_AA_score. rewrite Hnn.
  rewrite single_AA_fold_totalCharge; rewrite HT, ?upto_length; try lia.
  rewrite charged_from. unfold total_charge_sum. f_equal.
  subst tr. apply charged_trim.
Qed.

End TotalCharge.

Lemma charge_sums_compare :
  forall h a b c,
    0 <= total_charge_sum h a b c
    /\ - total_charge_sum h a b c <= net_charge_sum h a b c
       <= total_charge_sum h a b c.
Proof.
  intros h a b c. unfold total_charge_sum, net_charge_sum.
  assert (C : forall ch, - charged ch <= charge_of ch <= charged ch).
  { intro ch. unfold charged, charge_of.
    destruct (is_letter ch "K" || is_letter ch "R"),
      (is_letter ch "E" || is_letter ch "D"); lia. }
  assert (G : forall xs t n,
            0 <= t -> - t <= n <= t ->
            let t' := fold_left (fun acc x => acc + charged_at a b c h x) xs t in
            let n' := fold_left
                        (fun acc x => acc + (charge_of (sequences h a x)
                                             + charge_of (sequences h b x)
                                             + charge_of (sequences h c x)))
                        xs n in
            0 <= t' /\ - t' <= n' <= t').
  { induction xs as [|x xs IH]; intros t n Ht Hn; cbv zeta; cbn [fold_left].
    - split; assumption.
    - pose proof (C (sequences h a x)). pose proof (C (sequences h b x)).
      pose proof (C (sequences h c x)).
      apply IH; unfold charged_at; lia. }
  apply (G (upto (numAA h)) 0 0); lia.
Qed.

(** X17.  The total charge counter of a scored register counts the
    charged residues (K, R, E and D) of its three peptides, on top of what
    the counter held on entry: like the net charge it is not reset.  The
    count of charged residues bounds the net charge of the register on
    both sides. *)
Theorem total_charge_counts_the_charged_residues :
  forall p h a b c,
    In (a, b, c) (registers (numPep h)) ->
    0 <= numAA h ->
    -32768 <= totalCharge h a b c 0 ->
    totalCharge h a b c 0 + 6 * numAA h <= 32767 ->
    totalCharge (ScoreHelix p h) a b c 0
    = totalCharge h a b c 0 + total_charge_sum h a b c
    /\ 0 <= total_charge_sum h a b c
    /\ - total_charge_sum h a b c <= net_charge_sum h a b c
       <= total_charge_sum h a b c.
Proof.
  intros p h a b c Hin Hn Hlo Hhi.
  split; [|apply charge_sums_compare].
  destruct (ScoreHelix_register_cells p h a b c Hin)
    as [hb [lb [Hs [Hc Hf]]]].
  rewrite (sc_totalCharge _ _ _ _ _ Hf).
  pose proof (sc_totalCharge _ _ _ _ _ Hc) as Hb.
  change (totalCharge (prepare h)) with (totalCharge h) in Hb.
  rewrite score_register_totalCharge;
    rewrite ?Hb, ?(ss_numAA _ _ Hs); try assumption.
  f_equal. unfold total_charge_sum. rewrite (ss_numAA _ _ Hs).
  unfold charged_at. rewrite (ss_sequences _ _ Hs). reflexivity.
Qed.

Lemma total_charge_counts_the_charged_residues_witness :
  totalCharge (ScoreHelix zero_parameters homotrimer_KKK) 0 0 0 0
  = totalCharge homotrimer_KKK 0 0 0 0 + total_charge_sum homotrimer_KKK 0 0 0
  /\ 0 <= total_charge_sum homotrimer_KKK 0 0 0
  /\ - total_charge_sum homotrimer_KKK 0 0 0
     <= net_charge_sum homotrimer_KKK 0 0 0
     <= total_charge_sum homotrimer_KKK 0 0 0.
Proof.
  apply (total_charge_counts_the_charged_residues zero_parameters
           homotrimer_KKK 0 0 0).
  - vm_compute. left. reflexivity.
  - vm_compute. discriminate.
  - vm_compute. discriminate.
  - vm_compute. discriminate.
Defined.

(** ** The sites of the interaction threads *)

Lemma isYaa_track :
  forall h x,
    0 <= XaaPos h <= 2 -> 0 <= x ->
    isYaa h x = (x mod 3 =? (XaaPos h + 1) mod 3).
Proof.
  intros h x HX Hx. unfold isYaa.
  rewrite role_nonneg by lia.
  rewrite mod3_eqb_shift by lia.
  replace ((1 - (3 - XaaPos h)) mod 3) with ((XaaPos h + 1) mod 3)
    by (Z.div_mod_to_equations; lia).
  reflexivity.
Qed.

(** The counter of the filling loop counts the Yaa positions, and the
    entries from the counter on are not written. *)
Lemma fill_fold_counter :
  forall isY Xv Lv xs i Xs Ls,
    let st := fold_left (fill_step isY Xv Lv) xs (i, Xs, Ls) in
    fst (fst st) = i + Z.of_nat (List.length (filter isY xs))
    /\ forall j, fst (fst st) <= j ->
         snd (fst st) j = Xs j /\ snd st j = Ls j.
Proof.
  intros isY Xv Lv xs. induction xs as [|x xs IH]; intros i Xs Ls; cbv zeta.
  - cbn. split; [lia | intros; split; reflexivity].
  - cbn [fold_left filter].
    change (fill_step isY Xv Lv (i, Xs, Ls) x)
      with (if isY x
            then (i + 1, dstore Xs i (Xv x), dstore Ls i (Lv x))
            else (i, Xs, Ls)).
    destruct (isY x).
    + destruct (IH (i + 1) (dstore Xs i (Xv x)) (dstore Ls i (Lv x)))
        as [C U]. cbv zeta in C, U.
      split.
      * rewrite C. cbn [List.length]. lia.
      * intros j Hj. destruct (U j Hj) as [UX UL].
        rewrite UX, UL. unfold dstore.
        assert (Hne : (j =? i) = false) by (apply Z.eqb_neq; lia).
        rewrite Hne. split; reflexivity.
    + apply IH.
Qed.

(** X18.  [ScoreHelix] tells [PairWiseCalc] that the last site is
    [numYaa] (numAA / 3), but the loop that fills the two threads writes
    one site per Yaa position, from site 0 on.  For a sample whose length
    is a multiple of 3 these are the sites 0 to numYaa - 1: the site
    [numYaa] itself, and everything after it, is never written by the
    filling loop and keeps what the threads held before. *)
Theorem site_numYaa_is_not_filled :
  forall h Xv Lv l j,
    0 <= XaaPos h <= 2 ->
    0 <= numAA h ->
    numAA h mod 3 = 0 ->
    Z.quot (numAA h) 3 <= j ->
    let l' := fill_threads (isYaa h) (numAA h) Xv Lv l in
    XinteractionThread l' j = XinteractionThread l j
    /\ LinteractionThread l' j = LinteractionThread l j.
Proof.
  intros h Xv Lv l j HX Hn Hmod Hj. cbv zeta. unfold fill_threads.
  destruct (fill_fold_counter (isYaa h) Xv Lv (upto (numAA h)) 0
              (XinteractionThread l) (LinteractionThread l)) as [C U].
  cbv zeta in C, U.
  assert (K : Z.of_nat (List.length (filter (isYaa h) (upto (numAA h))))
              = Z.quot (numAA h) 3).
  { rewrite (filter_ext_in (isYaa h)
               (fun x => x mod 3 =? (XaaPos h + 1) mod 3)).
    - unfold upto. rewrite track_size
        by (Z.div_mod_to_equations; lia).
      rewrite Z2Nat.id by exact Hn.
      rewrite Z.quot_div_nonneg by lia.
      Z.div_mod_to_equations. lia.
    - intros x Hx. apply isYaa_track; [exact HX|].
      apply upto_bound in Hx. lia. }
  rewrite K in C.
  destruct (fold_left _ _ _) as [[i Xs] Ls]. cbn [fst snd] in *.
  apply U. lia.
Qed.

Lemma site_numYaa_is_not_filled_witness :
  XinteractionThread
    (fill_threads (isYaa homotrimer_POG) (numAA homotrimer_POG)
       (fun _ => 5%Q) (fun _ => 3%Q) initial_locals) 7
  = XinteractionThread initial_locals 7
  /\ LinteractionThread
       (fill_threads (isYaa homotrimer_POG) (numAA homotrimer_POG)
          (fun _ => 5%Q) (fun _ => 3%Q) initial_locals) 7
     = LinteractionThread initial_locals 7.
Proof.
  apply (site_numYaa_is_not_filled homotrimer_POG (fun _ => 5%Q)
           (fun _ => 3%Q) initial_locals 7).
  - vm_compute. split; discriminate.
  - vm_compute. discriminate.
  - reflexivity.
  - vm_compute. discriminate.
Defined.

(** ** Scoring passes over a library *)

(** X19.  [ScoreLibrary] scores exactly the samples from [start] up to,
    but not including, [stop], each from its own state, and leaves every
    other element of the library alone.  On an empty range it does
    nothing, and two calls on adjacent ranges amount to one call on the
    joined range. *)
Theorem ScoreLibrary_scores_exactly_its_range :
  forall start stop p Lib,
    (forall n,
        ScoreLibrary start stop p Lib n
        = if (start <=? n) && (n <? stop) then ScoreHelix p (Lib n)
          else Lib n)
    /\ (stop <= start -> forall n, ScoreLibrary start stop p Lib n = Lib n)
    /\ (forall mid n,
          start <= mid <= stop ->
          ScoreLibrary mid stop p (ScoreLibrary start mid p Lib) n
          = ScoreLibrary start stop p Lib n).
Proof.
  intros start stop p Lib. split; [|split].
  - intro n. apply ScoreLibrary_at.
  - intros Hempty n. rewrite ScoreLibrary_at.
    destruct (Z.leb_spec start n), (Z.ltb_spec n stop);
      cbn [andb]; try lia; reflexivity.
  - intros mid n Hmid. rewrite !ScoreLibrary_at.
    destruct (Z.leb_spec start n), (Z.ltb_spec n mid),
      (Z.leb_spec mid n), (Z.ltb_spec n stop);
      cbn [andb]; try lia; reflexivity.
Qed.

(** X20.  The two workers of a scoring pass touch disjoint halves of the
    library: whichever of them runs first, the result is the same, and it
    is that of one call of [ScoreLibrary] over the whole library: every
    sample below [TotalHelices] is scored exactly once. *)
Theorem two_workers_amount_to_one_pass :
  forall T p Lib n,
    0 <= T ->
    score_pass T p Lib n = ScoreLibrary 0 T p Lib n
    /\ score_pass T p Lib n
       = ScoreLibrary 0 (Z.quot T 2) p (ScoreLibrary (Z.quot T 2) T p Lib) n
    /\ score_pass T p Lib n
       = if (0 <=? n) && (n <? T) then ScoreHelix p (Lib n) else Lib n.
Proof.
  intros T p Lib n HT. unfold score_pass. rewrite !ScoreLibrary_at.
  pose proof (Z.quot_pos T 2 HT ltac:(lia)) as Hq.
  assert (Hq2 : Z.quot T 2 <= T) by (apply Z.quot_le_upper_bound; lia).
  destruct (Z.leb_spec 0 n), (Z.ltb_spec n (Z.quot T 2)),
    (Z.leb_spec (Z.quot T 2) n), (Z.ltb_spec n T);
    cbn [andb]; try lia; repeat split; reflexivity.
Qed.

Lemma two_workers_amount_to_one_pass_witness :
  score_pass 3 zero_parameters (fun _ => homotrimer_POG) 1
  = ScoreLibrary 0 3 zero_parameters (fun _ => homotrimer_POG) 1
  /\ score_pass 3 zero_parameters (fun _ => homotrimer_POG) 1
     = ScoreLibrary 0 (Z.quot 3 2) zero_parameters
         (ScoreLibrary (Z.quot 3 2) 3 zero_parameters
            (fun _ => homotrimer_POG)) 1
  /\ score_pass 3 zero_parameters (fun _ => homotrimer_POG) 1
     = if (0 <=? 1) && (1 <? 3)
       then ScoreHelix zero_parameters homotrimer_POG
       else homotrimer_POG.
Proof.
  apply (two_workers_amount_to_one_pass 3 zero_parameters
           (fun _ => homotrimer_POG) 1).
  lia.
Defined.

(** ** The optimization loop: what it leaves alone *)

Lemma optimize_done_fixed :
  forall fuel extra T st,
    done (optimize fuel T st) = true ->
    optimize (fuel + extra) T st = optimize fuel T st.
Proof.
  induction fuel as [|fuel IH]; intros extra T st Hd.
  - cbn in Hd. destruct (done st) eqn:E.
    + cbn [Nat.add optimize]. rewrite E. destruct extra; cbn; now rewrite E.
    + rewrite E in Hd. discriminate.
  - cbn [Nat.add optimize] in *. destruct (done st) eqn:E; [reflexivity|].
    apply IH. exact Hd.
Qed.

Lemma one_round_round :
  forall T st,
    0 <= round st < maxRounds ->
    round (one_round T st) = round st + 1
    /\ (round st + 1 >= maxRounds -> done (one_round T st) = true).
Proof.
  intros T st H. unfold maxRounds in *. unfold one_round.
  generalize visit_order. intro ss.
  cbv zeta. cbn [round done]. rewrite tune_fold_round.
  rewrite to_short_small by lia. split; [reflexivity|].
  intro Hge. unfold maxRounds.
  destruct (Z.geb_spec (round st + 1) 25); [reflexivity | lia].
Qed.

Lemma optimize_round_bound :
  forall fuel T st,
    (done st = true \/ round st < maxRounds) ->
    0 <= round st <= maxRounds ->
    0 <= round (optimize fuel T st) <= maxRounds.
Proof.
  induction fuel as [|fuel IH]; intros T st Hinv Hr; cbn [optimize].
  - destruct (done st); exact Hr.
  - destruct (done st) eqn:E; [exact Hr|].
    destruct Hinv as [Hd | Hlt]; [discriminate|].
    destruct (one_round_round T st ltac:(lia)) as [R D].
    apply IH.
    + destruct (Z_lt_dec (round st + 1) maxRounds) as [L | G].
      * right. rewrite R. exact L.
      * left. apply D. lia.
    + rewrite R. lia.
Qed.

(** X21.  The [while] loop of the optimization ends.  Started at round 0
    it reaches [done] within [maxRounds] (25) rounds, [round] never
    exceeds [maxRounds], and further iterations would change nothing: the
    result does not depend on how much more fuel the model is given. *)
Theorem optimization_loop_stops_within_maxRounds :
  forall T st,
    round st = 0 ->
    let r := optimize (Z.to_nat maxRounds) T st in
    done r = true
    /\ 0 <= round r <= maxRounds
    /\ forall extra, optimize (Z.to_nat maxRounds + extra) T st = r.
Proof.
  intros T st H0. cbv zeta.
  assert (Hd : done (optimize (Z.to_nat maxRounds) T st) = true).
  { apply optimize_reaches_done.
    - right. rewrite H0. unfold maxRounds. lia.
    - rewrite H0. unfold maxRounds. lia. }
  split; [exact Hd|]. split.
  - apply optimize_round_bound.
    + right. rewrite H0. unfold maxRounds. lia.
    + rewrite H0. unfold maxRounds. lia.
  - intro extra. apply optimize_done_fixed. exact Hd.
Qed.

Lemma optimization_loop_stops_within_maxRounds_witness :
  done (optimize (Z.to_nat maxRounds) 1 search_start) = true
  /\ 0 <= round (optimize (Z.to_nat maxRounds) 1 search_start) <= maxRounds
  /\ forall extra,
       optimize (Z.to_nat maxRounds + extra) 1 search_start
       = optimize (Z.to_nat maxRounds) 1 search_start.
Proof.
  apply (optimization_loop_stops_within_maxRounds 1 search_start).
  reflexivity.
Defined.

Lemma same_settings_refl : forall p, same_settings p p.
Proof. intro p. constructor; reflexivity. Qed.

Lemma same_settings_trans :
  forall p1 p2 p3,
    same_settings p1 p2 -> same_settings p2 p3 -> same_settings p1 p3.
Proof. intros p1 p2 p3 [] []. constructor; congruence. Qed.

Lemma same_settings_assign :
  forall s v p, same_settings p (assign s v p).
Proof. intros [x|x|x y|x y] v p; constructor; reflexivity. Qed.

Lemma same_settings_reference :
  forall s p p', same_settings p p' -> reference s p' = reference s p.
Proof.
  intros [x|x|x y|x y] p p' H; cbn;
    [rewrite (st_exPropensityX _ _ H) | rewrite (st_exPropensityY _ _ H)
    | rewrite (st_exAxial _ _ H) | rewrite (st_exLateral _ _ H)];
    reflexivity.
Qed.

Lemma same_settings_tunable :
  forall s p p', same_settings p p' -> tunable s p' = tunable s p.
Proof.
  intros [x|x|x y|x y] p p' H; cbn;
    [rewrite (st_optPropX _ _ H) | rewrite (st_optPropY _ _ H)
    | rewrite (st_optAxial _ _ H) | rewrite (st_optLat _ _ H)];
    reflexivity.
Qed.

Lemma value_assign_other :
  forall s s' v p, s' <> s -> value s' (assign s v p) = value s' p.
Proof.
  intros [x|x|x y|x y] [x'|x'|x' y'|x' y'] v p Hne; cbn;
    try reflexivity; unfold store1, store2.
  - destruct (Z.eqb_spec x' x); [subst; contradiction | reflexivity].
  - destruct (Z.eqb_spec x' x); [subst; contradiction | reflexivity].
  - destruct (Z.eqb_spec x' x), (Z.eqb_spec y' y); cbn [andb];
      try reflexivity. subst. contradiction.
  - destruct (Z.eqb_spec x' x), (Z.eqb_spec y' y); cbn [andb];
      try reflexivity. subst. contradiction.
Qed.

Lemma only_scalar_refl : forall s p, only_scalar s p p.
Proof. intros s p. split; [apply same_settings_refl | reflexivity]. Qed.

Lemma only_scalar_trans :
  forall s p1 p2 p3,
    only_scalar s p1 p2 -> only_scalar s p2 p3 -> only_scalar s p1 p3.
Proof.
  intros s p1 p2 p3 [S1 V1] [S2 V2]. split.
  - eapply same_settings_trans; eassumption.
  - intros s' Hne. rewrite (V2 s' Hne). apply V1, Hne.
Qed.

Lemma only_scalar_change :
  forall s k st,
    only_scalar s (parameters_of st) (parameters_of (change s k st)).
Proof.
  intros s k st. unfold change. cbn [parameters_of with_parameters]. split.
  - apply same_settings_assign.
  - intros s' Hne. apply value_assign_other, Hne.
Qed.

Lemma test_change_parameters :
  forall T t st, parameters_of (test_change T t st) = parameters_of st.
Proof.
  intros T t st. exact (proj1 (test_change_cases T t st)).
Qed.

(** A block changes at most its own scalar, and nothing at all when the
    scalar is not open to optimization. *)
Lemma tune_only_scalar :
  forall T s st,
    only_scalar s (parameters_of st) (parameters_of (tune T s st))
    /\ (tunable s (parameters_of st) = false ->
        parameters_of (tune T s st) = parameters_of st).
Proof.
  intros T s st. unfold tune. cbv zeta.
  change (parameters_of (with_improved false ?x)) with (parameters_of x).
  destruct (tunable s (parameters_of st));
    [|split; [apply only_scalar_refl | reflexivity]].
  split; [|discriminate].
  set (st2 := test_change T _ (change s (- delta) st)).
  assert (H2 : only_scalar s (parameters_of st) (parameters_of st2)).
  { subst st2. rewrite test_change_parameters. apply only_scalar_change. }
  destruct (negb (improved st2)) eqn:E2.
  - set (st4 := test_change T _ (change s delta (change s delta st2))).
    assert (H4 : only_scalar s (parameters_of st) (parameters_of st4)).
    { subst st4. rewrite test_change_parameters.
      eapply only_scalar_trans; [exact H2|].
      eapply only_scalar_trans; apply only_scalar_change. }
    destruct (negb (improved st4)); [|exact H4].
    eapply only_scalar_trans; [exact H4 | apply only_scalar_change].
  - rewrite E2. exact H2.
Qed.

Lemma tune_fold_settings :
  forall T ss st,
    same_settings (parameters_of st)
      (parameters_of (fold_left (fun st s => tune T s st) ss st)).
Proof.
  intros T ss. induction ss as [|s ss IH]; intro st; cbn [fold_left].
  - apply same_settings_refl.
  - eapply same_settings_trans; [|apply IH].
    exact (proj1 (proj1 (tune_only_scalar T s st))).
Qed.

Lemma one_round_settings :
  forall T st,
    same_settings (parameters_of st) (parameters_of (one_round T st)).
Proof.
  intros T st. unfold one_round. generalize visit_order. intro ss.
  cbv zeta. cbn [parameters_of]. apply tune_fold_settings.
Qed.

(** X22.  The optimization loop writes only the four tables it tunes
    (the Xaa and Yaa propensities, the axial and the lateral pair
    values).  The length coefficients A, B and C, the charge and terminus
    parameters, every optimization flag and every experimental reference
    value come out of the loop as they went in, however many rounds it
    runs. *)
Theorem optimization_keeps_the_settings :
  forall fuel T st,
    same_settings (parameters_of st) (parameters_of (optimize fuel T st))
    /\ same_settings (parameters_of st) (parameters_of (one_round T st)).
Proof.
  intros fuel T st.
  split; [|apply one_round_settings].
  revert st. induction fuel as [|fuel IH]; intro st; cbn [optimize].
  - destruct (done st); apply same_settings_refl.
  - destruct (done st); [apply same_settings_refl|].
    eapply same_settings_trans; [apply one_round_settings | apply IH].
Qed.

Lemma scalar_eq_or_neq : forall s s' : scalar, s = s' \/ s <> s'.
Proof.
  intros [x|x|x y|x y] [x'|x'|x' y'|x' y']; try (right; discriminate).
  - destruct (Z.eq_dec x x'); [left | right]; congruence.
  - destruct (Z.eq_dec x x'); [left | right]; congruence.
  - destruct (Z.eq_dec x x'), (Z.eq_dec y y'); [left | right..]; congruence.
  - destruct (Z.eq_dec x x'), (Z.eq_dec y y'); [left | right..]; congruence.
Qed.

Lemma tune_fixed :
  forall T s s' st,
    tunable s (parameters_of st) = false ->
    value s (parameters_of (tune T s' st)) = value s (parameters_of st)
    /\ tunable s (parameters_of (tune T s' st)) = false.
Proof.
  intros T s s' st Hfix.
  destruct (tune_only_scalar T s' st) as [[HS HV] Hoff].
  split.
  - destruct (scalar_eq_or_neq s s') as [<- | Hne].
    + rewrite (Hoff Hfix). reflexivity.
    + apply HV, Hne.
  - rewrite (same_settings_tunable s _ _ HS). exact Hfix.
Qed.

Lemma tune_fold_fixed :
  forall T s ss st,
    tunable s (parameters_of st) = false ->
    value s (parameters_of (fold_left (fun st s' => tune T s' st) ss st))
    = value s (parameters_of st)
    /\ tunable s
         (parameters_of (fold_left (fun st s' => tune T s' st) ss st))
       = false.
Proof.
  intros T s ss. induction ss as [|s' ss IH]; intros st Hfix;
    cbn [fold_left].
  - split; [reflexivity | exact Hfix].
  - destruct (tune_fixed T s s' st Hfix) as [V F].
    destruct (IH (tune T s' st) F) as [V' F'].
    split; [rewrite V'; exact V | exact F'].
Qed.

Lemma one_round_fixed :
  forall T s st,
    tunable s (parameters_of st) = false ->
    value s (parameters_of (one_round T st)) = value s (parameters_of st)
    /\ tunable s (parameters_of (one_round T st)) = false.
Proof.
  intros T s st Hfix. unfold one_round. generalize visit_order. intro ss.
  cbv zeta. cbn [parameters_of]. apply tune_fold_fixed, Hfix.
Qed.

Lemma optimize_fixed :
  forall fuel T s st,
    tunable s (parameters_of st) = false ->
    value s (parameters_of (optimize fuel T st)) = value s (parameters_of st).
Proof.
  induction fuel as [|fuel IH]; intros T s st Hfix; cbn [optimize].
  - destruct (done st); reflexivity.
  - destruct (done st); [reflexivity|].
    destruct (one_round_fixed T s st Hfix) as [V F].
    rewrite (IH T s (one_round T st) F). exact V.
Qed.

(** X23.  A scalar whose optimization flag is off is never changed by the
    optimization loop: its value after any number of rounds is the value
    it had on entry. *)
Theorem flagged_off_parameters_are_never_changed :
  forall fuel T st s,
    tunable s (parameters_of st) = false ->
    value s (parameters_of (optimize fuel T st)) = value s (parameters_of st)
    /\ value s (parameters_of (one_round T st)) = value s (parameters_of st).
Proof.
  intros fuel T st s Hfix. split.
  - apply optimize_fixed, Hfix.
  - exact (proj1 (one_round_fixed T s st Hfix)).
Qed.

Lemma flagged_off_parameters_are_never_changed_witness :
  value (PropY 16) (parameters_of (optimize 2 1 search_start))
  = value (PropY 16) (parameters_of search_start)
  /\ value (PropY 16) (parameters_of (one_round 1 search_start))
     = value (PropY 16) (parameters_of search_start).
Proof.
  apply (flagged_off_parameters_are_never_changed 2 1 search_start (PropY 16)).
  reflexivity.
Defined.

(** ** The optimization loop: the range test *)

(** X24.  The optimization loop keeps a changed value only after its range
    test.  Whenever a block, entered with the flag down, lowers the
    tracked sum, its scalar is open to optimization and the value kept is
    either the lowered one, found at least reference - maxDev, or the
    raised one, found at most reference + maxDev, the two bounds being
    the doubles the source compares with. *)
Theorem kept_change_passed_its_range_test :
  forall T s st,
    improved st = false ->
    (sumSquaredDev (tune T s st) < sumSquaredDev st)%Q ->
    tunable s (parameters_of st) = true
    /\ ((value s (parameters_of (tune T s st))
         = lowered (value s (parameters_of st))
         /\ (to_double (reference s (parameters_of st) - maxDev)
             <= value s (parameters_of (tune T s st)))%Q)
        \/ (value s (parameters_of (tune T s st))
            = raised (value s (parameters_of st))
            /\ (value s (parameters_of (tune T s st))
                <= to_double (reference s (parameters_of st) + maxDev))%Q)).
Proof.
  intros T s st Hi Hlt.
  destruct (tune_outcome T s st Hi) as [(S & _) | (Et & _ & _ & _ & V)].
  - rewrite S in Hlt. exfalso. exact (Qlt_irrefl _ Hlt).
  - split; [exact Et|].
    destruct V as [(V & R) | (V & R)]; [left | right];
      (split; [exact V|]); rewrite V; apply Qle_bool_iff; exact R.
Qed.

Lemma kept_change_passed_its_range_test_witness :
  improved alanine_high_start = false
  /\ (sumSquaredDev (tune 4 (PropX 1) alanine_high_start)
      < sumSquaredDev alanine_high_start)%Q
  /\ tunable (PropX 1) (parameters_of alanine_high_start) = true
  /\ ((value (PropX 1) (parameters_of (tune 4 (PropX 1) alanine_high_start))
       = lowered (value (PropX 1) (parameters_of alanine_high_start))
       /\ (to_double
             (reference (PropX 1) (parameters_of alanine_high_start) - maxDev)
           <= value (PropX 1)
                (parameters_of (tune 4 (PropX 1) alanine_high_start)))%Q)
      \/ (value (PropX 1) (parameters_of (tune 4 (PropX 1) alanine_high_start))
          = raised (value (PropX 1) (parameters_of alanine_high_start))
          /\ (value (PropX 1)
                (parameters_of (tune 4 (PropX 1) alanine_high_start))
              <= to_double
                   (reference (PropX 1) (parameters_of alanine_high_start)
                    + maxDev))%Q)).
Proof.
  assert (Hi : improved alanine_high_start = false) by reflexivity.
  assert (Hlt : (sumSquaredDev (tune 4 (PropX 1) alanine_high_start)
                 < sumSquaredDev alanine_high_start)%Q)
    by (vm_compute; reflexivity).
  split; [exact Hi|]. split; [exact Hlt|].
  exact (kept_change_passed_its_range_test 4 (PropX 1) alanine_high_start
           Hi Hlt).
Defined.

(** ** The choice of the parameters to optimize *)

Lemma upto_succ :
  forall n : nat,
    upto (Z.of_nat (S n)) = upto (Z.of_nat n) ++ [Z.of_nat n].
Proof.
  intro n. unfold upto. rewrite !Nat2Z.id, seq_S, map_app. reflexivity.
Qed.

Lemma below_succ :
  forall (n : nat) i,
    below (Z.of_nat (S n)) i = below (Z.of_nat n) i || (i =? Z.of_nat n).
Proof.
  intros n i. unfold below. rewrite Nat2Z.inj_succ.
  destruct (Z.leb_spec 0 i), (Z.ltb_spec i (Z.succ (Z.of_nat n))),
    (Z.ltb_spec i (Z.of_nat n)), (Z.eqb_spec i (Z.of_nat n));
    cbn; try reflexivity; lia.
Qed.

Lemma below_zero : forall i, below 0 i = false.
Proof.
  intro i. unfold below.
  destruct (Z.leb_spec 0 i), (Z.ltb_spec i 0); cbn; try reflexivity; lia.
Qed.

(** What a step leaves alone: the values and the references. *)
Lemma set_flags_value :
  forall s p vX vY vA vL,
    value s (set_optPropX vX p) = value s p
    /\ value s (set_optPropY vY p) = value s p
    /\ value s (set_optAxial vA p) = value s p
    /\ value s (set_optLat vL p) = value s p
    /\ reference s (set_optPropX vX p) = reference s p
    /\ reference s (set_optPropY vY p) = reference s p
    /\ reference s (set_optAxial vA p) = reference s p
    /\ reference s (set_optLat vL p) = reference s p.
Proof. intros [x|x|x y|x y] p vX vY vA vL; repeat split; reflexivity. Qed.

(** The relation between the parameters before and after some steps of
    the two loops: the flags of the scalars in [off] are down, the others
    are up when they were up or when their scalar is in [on]; values and
    references are untouched. *)
Lemma by_counts_cell_flags :
  forall counts y p x s,
    let p' := by_counts_cell counts y p x in
    tunable s p'
    = tunable s p || (is_cell y x s && Qlt_bool 25 (value s counts))
    /\ value s p' = value s p /\ reference s p' = reference s p.
Proof.
  intros counts y p x s. cbv zeta. unfold by_counts_cell. cbv zeta.
  destruct (Qlt_bool 25 (lateral counts y x)) eqn:EL;
    destruct (Qlt_bool 25 (axial counts y x)) eqn:EA;
    destruct s as [i|i|i j|i j]; cbn;
    unfold store2;
    rewrite ?orb_false_r, ?andb_false_r;
    repeat split; try reflexivity;
    destruct (Z.eqb_spec i y), (Z.eqb_spec j x); subst; cbn;
    rewrite ?EL, ?EA, ?orb_true_r, ?orb_false_r; reflexivity.
Qed.

Lemma by_counts_cells_flags :
  forall counts y (m : nat) p s,
    let p' := fold_left (by_counts_cell counts y) (upto (Z.of_nat m)) p in
    tunable s p'
    = tunable s p
      || (in_cells y (Z.of_nat m) s && Qlt_bool 25 (value s counts))
    /\ value s p' = value s p /\ reference s p' = reference s p.
Proof.
  intros counts y m p s. cbv zeta. induction m as [|m IH].
  - cbn [upto Z.to_nat Z.of_nat seq map fold_left].
    split; [|split; reflexivity].
    destruct s; cbn; rewrite ?below_zero, ?andb_false_r, ?orb_false_r;
      reflexivity.
  - rewrite upto_succ, fold_left_app. cbn [fold_left].
    destruct IH as (IT & IV & IR).
    destruct (by_counts_cell_flags counts y
                (fold_left (by_counts_cell counts y) (upto (Z.of_nat m)) p)
                (Z.of_nat m) s) as (T & V & R).
    cbv zeta in T, V, R. rewrite T, V, R, IT, IV, IR.
    split; [|split; reflexivity].
    destruct s as [i|i|i j|i j]; cbn [in_cells is_cell];
      rewrite ?below_succ; cbn [andb];
      rewrite ?orb_false_r; try reflexivity;
      destruct (tunable _ p), (i =? y), (below (Z.of_nat m) j),
        (j =? Z.of_nat m), (Qlt_bool 25 _); reflexivity.
Qed.

Lemma by_counts_row_flags :
  forall counts p y s,
    let p' := by_counts_row counts p y in
    tunable s p'
    = tunable s p || (is_row y s && Qlt_bool 25 (value s counts))
    /\ value s p' = value s p /\ reference s p' = reference s p.
Proof.
  intros counts p y s. cbv zeta. unfold by_counts_row. cbv zeta.
  match goal with
  | |- context [fold_left _ _ ?q] =>
      destruct (by_counts_cells_flags counts y 27 q s) as (T & V & R)
  end.
  cbv zeta in T, V, R. change (Z.of_nat 27) with 27 in T, V, R.
  rewrite T, V, R. clear T V R.
  destruct (Qlt_bool 25 (propensityX counts y)) eqn:EX;
    destruct (Qlt_bool 25 (propensityY counts y)) eqn:EY;
    destruct s as [i|i|i j|i j]; cbn;
    unfold store1;
    rewrite ?orb_false_r, ?andb_false_r;
    repeat split; try reflexivity;
    destruct (Z.eqb_spec i y); subst; cbn;
    rewrite ?EX, ?EY, ?orb_true_r, ?orb_false_r; reflexivity.
Qed.

Lemma by_counts_rows_flags :
  forall counts (n : nat) p s,
    let p' := fold_left (by_counts_row counts) (upto (Z.of_nat n)) p in
    tunable s p'
    = tunable s p
      || (in_rows (Z.of_nat n) s && Qlt_bool 25 (value s counts))
    /\ value s p' = value s p /\ reference s p' = reference s p.
Proof.
  intros counts n p s. cbv zeta. induction n as [|n IH].
  - cbn [upto Z.to_nat Z.of_nat seq map fold_left].
    split; [|split; reflexivity].
    destruct s; cbn; rewrite ?below_zero; cbn; rewrite ?orb_false_r;
      reflexivity.
  - rewrite upto_succ, fold_left_app. cbn [fold_left].
    destruct IH as (IT & IV & IR).
    destruct (by_counts_row_flags counts
                (fold_left (by_counts_row counts) (upto (Z.of_nat n)) p)
                (Z.of_nat n) s) as (T & V & R).
    cbv zeta in T, V, R. rewrite T, V, R, IT, IV, IR.
    split; [|split; reflexivity].
    destruct s as [i|i|i j|i j]; cbn [in_rows is_row];
      rewrite ?below_succ;
      destruct (tunable _ p), (below (Z.of_nat n) i), (i =? Z.of_nat n),
        (Qlt_bool 25 _); cbn; rewrite ?andb_false_r, ?orb_false_r;
        try reflexivity;
      destruct (below 27 j); reflexivity.
Qed.

Lemma force_step_flags :
  forall p x s,
    let p' := force_step p x in
    tunable s p' = (if cleared_at x s then false else tunable s p)
    /\ value s p' = value s p /\ reference s p' = reference s p.
Proof.
  intros p x s. cbv zeta. unfold force_step. cbv zeta.
  split; [|destruct s; split; reflexivity].
  unfold cleared_at. cbv zeta.
  generalize (residue "P"), (residue "O"). intros P O.
  destruct s as [i|i|i j|i j]; cbn; unfold store1, store2.
  - destruct (i =? P); reflexivity.
  - destruct (i =? O); reflexivity.
  - destruct (Z.eqb_spec i O), (Z.eqb_spec i P), (Z.eqb_spec i x),
      (Z.eqb_spec j x), (Z.eqb_spec j P); subst; cbn;
      rewrite ?Z.eqb_refl; cbn; try reflexivity;
      repeat match goal with
      | |- context [?u =? ?v] => destruct (Z.eqb_spec u v); try lia; cbn
      end; reflexivity.
  - destruct (Z.eqb_spec i O), (Z.eqb_spec i x),
      (Z.eqb_spec j x), (Z.eqb_spec j P); subst; cbn;
      rewrite ?Z.eqb_refl; cbn; try reflexivity;
      repeat match goal with
      | |- context [?u =? ?v] => destruct (Z.eqb_spec u v); try lia; cbn
      end; reflexivity.
Qed.

Lemma force_steps_flags :
  forall (n : nat) p s,
    let p' := fold_left force_step (upto (Z.of_nat n)) p in
    tunable s p'
    = (if cleared_upto (Z.of_nat n) s then false else tunable s p)
    /\ value s p' = value s p /\ reference s p' = reference s p.
Proof.
  intros n p s. cbv zeta. induction n as [|n IH].
  - cbn [upto Z.to_nat Z.of_nat seq map fold_left].
    split; [|split; reflexivity].
    unfold cleared_upto. cbv zeta.
    destruct s; rewrite ?below_zero; cbn;
      rewrite ?andb_false_r; reflexivity.
  - rewrite upto_succ, fold_left_app. cbn [fold_left].
    destruct IH as (IT & IV & IR).
    destruct (force_step_flags
                (fold_left force_step (upto (Z.of_nat n)) p)
                (Z.of_nat n) s) as (T & V & R).
    cbv zeta in T, V, R. rewrite T, V, R, IT, IV, IR.
    split; [|split; reflexivity].
    unfold cleared_upto, cleared_at. cbv zeta.
    generalize (residue "P"), (residue "O"). intros P O.
    assert (Hn : (0 <? Z.of_nat (S n)) = true)
      by (apply Z.ltb_lt; lia).
    destruct s as [i|i|i j|i j]; rewrite ?below_succ, ?Hn.
    + destruct (i =? P), (0 <? Z.of_nat n); reflexivity.
    + destruct (i =? O), (0 <? Z.of_nat n); reflexivity.
    + destruct (i =? O), (i =? P), (below (Z.of_nat n) j),
        (below (Z.of_nat n) i), (j =? Z.of_nat n), (i =? Z.of_nat n),
        (j =? P); reflexivity.
    + destruct (i =? O), (below (Z.of_nat n) j),
        (below (Z.of_nat n) i), (j =? Z.of_nat n), (i =? Z.of_nat n),
        (j =? P); reflexivity.
Qed.

Lemma choose_optimized_flags :
  forall counts p s,
    tunable s (choose_optimized counts p)
    = (if fixed_scalar s then false
       else tunable s p
            || (in_tables s && Qlt_bool 25 (value s counts)))
    /\ value s (choose_optimized counts p) = value s p
    /\ reference s (choose_optimized counts p) = reference s p.
Proof.
  intros counts p s. unfold choose_optimized, force_fixed,
    set_optimization_by_counts, fixed_scalar, in_tables.
  destruct (by_counts_rows_flags counts 27 p s) as (T1 & V1 & R1).
  cbv zeta in T1, V1, R1. change (Z.of_nat 27) with 27 in T1, V1, R1.
  destruct (force_steps_flags 27
              (fold_left (by_counts_row counts) (upto 27) p) s)
    as (T2 & V2 & R2).
  cbv zeta in T2, V2, R2. change (Z.of_nat 27) with 27 in T2, V2, R2.
  rewrite T2, V2, R2, T1, V1, R1. repeat split; reflexivity.
Qed.

(** X25.  After the two loops that choose what to optimize, the flag of a
    parameter that must stay fixed (the Xaa propensity of Pro, the Yaa
    propensity of Hyp, every pair value with Hyp in the first place or
    Pro in the second, and every axial value with Pro in the first place)
    is down whatever the counts are.  The flag of any other parameter is
    up exactly when it was up before or the parameter belongs to the
    tables and was counted more than 25 times in the library; no value
    and no experimental reference is touched. *)
Theorem fixed_parameters_are_flagged_off :
  forall countInteractions p s,
    let p' := choose_optimized countInteractions p in
    tunable s p'
    = (if fixed_scalar s then false
       else tunable s p
            || (in_tables s && Qlt_bool 25 (value s countInteractions)))
    /\ value s p' = value s p
    /\ reference s p' = reference s p
    /\ fixed_scalar (PropX (residue "P")) = true
    /\ fixed_scalar (PropY (residue "O")) = true
    /\ forall x, below 27 x = true ->
         fixed_scalar (LateralCell (residue "O") x) = true
         /\ fixed_scalar (AxialCell (residue "O") x) = true
         /\ fixed_scalar (AxialCell (residue "P") x) = true
         /\ fixed_scalar (LateralCell x (residue "P")) = true
         /\ fixed_scalar (AxialCell x (residue "P")) = true.
Proof.
  intros counts p s. cbv zeta.
  destruct (choose_optimized_flags counts p s) as (T & V & R).
  split; [exact T|]. split; [exact V|]. split; [exact R|].
  split; [reflexivity|]. split; [reflexivity|].
  intros x Hx. unfold fixed_scalar, cleared_upto. cbv zeta.
  change (residue "P") with 16. change (residue "O") with 15.
  rewrite Hx. cbn. rewrite ?orb_true_r. repeat split; reflexivity.
Qed.

(** X26.  The parameters that must stay fixed do stay fixed: when the
    optimization loop starts from the parameters the two choosing loops
    produced, the value of each of them after any number of rounds is the
    value read from the parameter file, whatever the counts, the library
    and the other parameters are. *)
Theorem fixed_parameters_survive_the_optimization :
  forall fuel T st countInteractions p s,
    parameters_of st = choose_optimized countInteractions p ->
    fixed_scalar s = true ->
    value s (parameters_of (optimize fuel T st)) = value s p.
Proof.
  intros fuel T st counts p s Hst Hfix.
  destruct (choose_optimized_flags counts p s) as (Tn & V & _).
  rewrite Hfix in Tn.
  rewrite optimize_fixed by (rewrite Hst; exact Tn).
  rewrite Hst. exact V.
Qed.

Lemma fixed_parameters_survive_the_optimization_witness :
  value (PropX 16)
    (parameters_of
       (optimize 2 1
          (mkSearch (choose_optimized proline_tunable proline_tunable)
             (fun _ => homotrimer_POG) 100 false false false 0)))
  = value (PropX 16) proline_tunable.
Proof.
  apply (fixed_parameters_survive_the_optimization 2 1
           (mkSearch (choose_optimized proline_tunable proline_tunable)
              (fun _ => homotrimer_POG) 100 false false false 0)
           proline_tunable proline_tunable (PropX 16)).
  - reflexivity.
  - reflexivity.
Defined.

(** ** The optimization loop: progress *)

Lemma test_change_progress :
  forall T t st,
    let st' := test_change T t st in
    (improved st' = improved st /\ improvedRound st' = improvedRound st
     /\ sumSquaredDev st' = sumSquaredDev st)
    \/ (improved st' = true /\ improvedRound st' = true
        /\ (sumSquaredDev st' < sumSquaredDev st)%Q).
Proof.
  intros T t st. unfold test_change. destruct t; cbv zeta.
  - destruct (Qlt_bool _ _) eqn:E; cbn.
    + right. repeat split.
      unfold Qlt_bool in E. apply negb_true_iff in E.
      now apply Qle_bool_false.
    + left. repeat split.
  - left. repeat split.
Qed.

Lemma change_improvedRound :
  forall s k st, improvedRound (change s k st) = improvedRound st.
Proof. reflexivity. Qed.

(** A block leaves the round flag and the tracked sum alone, or raises
    the flag and lowers the sum. *)
Lemma tune_progress :
  forall T s st,
    let st' := tune T s st in
    (improvedRound st' = improvedRound st
     /\ sumSquaredDev st' = sumSquaredDev st)
    \/ (improvedRound st' = true
        /\ (sumSquaredDev st' < sumSquaredDev st)%Q).
Proof.
  intros T s st. unfold tune. cbv zeta.
  change (improvedRound (with_improved false ?x)) with (improvedRound x).
  change (sumSquaredDev (with_improved false ?x)) with (sumSquaredDev x).
  destruct (tunable s (parameters_of st)); [|left; split; reflexivity].
  set (st1 := change s (- delta) st).
  set (st2 := test_change T _ st1).
  assert (H2 : (improvedRound st2 = improvedRound st
                /\ sumSquaredDev st2 = sumSquaredDev st)
               \/ (improvedRound st2 = true
                   /\ (sumSquaredDev st2 < sumSquaredDev st)%Q)).
  { subst st2.
    destruct (test_change_progress T
                (Qle_bool (to_double (reference s (parameters_of st1) - maxDev))
                   (value s (parameters_of st1))) st1)
      as [(_ & R & S) | (_ & R & S)]; [left | right]; split; assumption. }
  destruct (negb (improved st2)) eqn:E2.
  - set (st3 := change s delta (change s delta st2)).
    set (st4 := test_change T _ st3).
    assert (H4 : (improvedRound st4 = improvedRound st
                  /\ sumSquaredDev st4 = sumSquaredDev st)
                 \/ (improvedRound st4 = true
                     /\ (sumSquaredDev st4 < sumSquaredDev st)%Q)).
    { subst st4.
      destruct (test_change_progress T
                  (Qle_bool (value s (parameters_of st3))
                     (to_double (reference s (parameters_of st3) + maxDev)))
                  st3)
        as [(_ & R & S) | (_ & R & S)].
      - change (improvedRound st3) with (improvedRound st2) in R.
        change (sumSquaredDev st3) with (sumSquaredDev st2) in S.
        rewrite R, S. exact H2.
      - right. split; [exact R|].
        change (sumSquaredDev st3) with (sumSquaredDev st2) in S.
        destruct H2 as [[_ S2] | [_ S2]]; [rewrite <- S2; exact S|].
        eapply Qlt_trans; eassumption. }
    destruct (negb (improved st4)); exact H4.
  - rewrite E2. exact H2.
Qed.

Lemma tune_fold_progress :
  forall T ss st,
    let st' := fold_left (fun st s => tune T s st) ss st in
    (improvedRound st' = improvedRound st
     /\ sumSquaredDev st' = sumSquaredDev st)
    \/ (improvedRound st' = true
        /\ (sumSquaredDev st' < sumSquaredDev st)%Q).
Proof.
  intros T ss. induction ss as [|s ss IH]; intro st; cbv zeta;
    cbn [fold_left].
  - left. split; reflexivity.
  - destruct (IH (tune T s st)) as [[R S] | [R S]];
      destruct (tune_progress T s st) as [[R0 S0] | [R0 S0]];
      cbv zeta in *.
    + left. split; congruence.
    + right. split; [congruence|]. rewrite S. exact S0.
    + right. split; [exact R|]. rewrite <- S0. exact S.
    + right. split; [exact R|]. eapply Qlt_trans; eassumption.
Qed.

(** X27.  Every round of the optimization loop makes progress or ends the
    loop: a round entered with the round flag down either lowers the
    tracked sum of squared deviations strictly, or sets [done]. *)
Theorem a_round_lowers_the_sum_or_ends_the_loop :
  forall T st,
    improvedRound st = false ->
    done (one_round T st) = true
    \/ (sumSquaredDev (one_round T st) < sumSquaredDev st)%Q.
Proof.
  intros T st H0. unfold one_round. generalize visit_order. intro ss.
  cbv zeta. cbn [done sumSquaredDev].
  destruct (tune_fold_progress T ss st) as [[R S] | [R S]]; cbv zeta in *.
  - left. rewrite R, H0. cbn [negb].
    destruct (_ >=? _); reflexivity.
  - right. exact S.
Qed.

Lemma a_round_lowers_the_sum_or_ends_the_loop_witness :
  done (one_round 1 search_start) = true
  \/ (sumSquaredDev (one_round 1 search_start) < sumSquaredDev search_start)%Q.
Proof.
  apply (a_round_lowers_the_sum_or_ends_the_loop 1 search_start).
  reflexivity.
Defined.

(** ** The low-confidence count of a user helix *)

Lemma fold_left_ext_in :
  forall X Y (f g : Y -> X -> Y) xs y,
    (forall y x, In x xs -> f y x = g y x) ->
    fold_left f xs y = fold_left g xs y.
Proof.
  intros X Y f g xs. induction xs as [|x xs IH]; intros y H; cbn.
  - reflexivity.
  - rewrite (H y x (or_introl eq_refl)).
    apply IH. intros y' x' Hin. apply H. right. exact Hin.
Qed.

Lemma note_off :
  forall counts i j st,
    note_axial counts false i j st = st
    /\ note_lateral counts false i j st = st.
Proof. intros. split; reflexivity. Qed.

Lemma confidence_step_third_thread_off :
  forall counts userHelix unread a b c st x,
    numAA unread <= 2 -> 0 <= x ->
    confidence_step counts userHelix unread a b c st x
    = confidence_step_two_threads counts userHelix a b c st x.
Proof.
  intros counts userHelix unread a b c st x Hn Hx.
  unfold confidence_step, confidence_step_two_threads. cbv zeta.
  destruct (isYaa userHelix x); [|reflexivity].
  assert (E5 : (x + 5 <? numAA unread) = false) by (apply Z.ltb_ge; lia).
  assert (E2 : (x + 2 <? numAA unread) = false) by (apply Z.ltb_ge; lia).
  rewrite E5, E2.
  rewrite (proj2 (note_off counts _ _ _)).
  rewrite (proj1 (note_off counts _ _ _)).
  reflexivity.
Qed.

(** X28.  The low-confidence count of a user helix compares the third
    axial and the third lateral pair of a position (trailing chain to
    leading chain) with the length of the library element after the last
    one read.  That element is as [initializeAll] left it, of length 0, so
    these two tests never succeed: whatever the counts and the helix, the
    count and the two lists are those of the first two pairs alone. *)
Theorem third_thread_is_never_counted_as_low_confidence :
  forall countInteractions userHelix unread,
    numAA unread <= 2 ->
    low_confidence countInteractions userHelix unread
    = low_confidence_two_threads countInteractions userHelix.
Proof.
  intros counts userHelix unread Hn.
  unfold low_confidence, low_confidence_two_threads.
  apply fold_left_ext_in. intros st [[a b] c] _.
  apply fold_left_ext_in. intros st' x Hx.
  apply confidence_step_third_thread_off; [exact Hn|].
  apply upto_bound in Hx. lia.
Qed.

Lemma third_thread_is_never_counted_as_low_confidence_witness :
  low_confidence zero_parameters homotrimer_POG (initializeAll blank)
  = low_confidence_two_threads zero_parameters homotrimer_POG.
Proof.
  apply (third_thread_is_never_counted_as_low_confidence zero_parameters
           homotrimer_POG (initializeAll blank)).
  vm_compute. discriminate.
Defined.
